(** * TRPX 2.0 (Terse/Prolix): a shallow embedding of the codec and its container

    The development follows the C++ sources:
    - [Bitqueue.hpp]  : [Bitqueue_push_back], [Bitqueue_pop]
    - [Terse.hpp]     : [Terse], its block codecs and its stream format
    - [pyterse.cpp]   : the Python wrapper around [Terse::block_size]

    Conventions of the embedding.
    - Values of a C++ integral type [T] are integers of [Z] inside the range
      of [T]; every conversion is written out ([cast], [to_unsigned],
      [to_size_t]).
    - Sizes and indices ([d_size], [d_block], [from], [to]) are [nat].
    - A byte buffer is a [list Z] of bytes; the host is little-endian, as
      [std::memcpy] of the 64-bit scratch word makes the layout depend on it.
    - [assert] is compiled in or out by [NDEBUG]; the flag [ndebug] selects the
      build, and a failing assertion is the outcome [AssertFail].
    - A read outside the byte vector, a read of an indeterminate value and a
      float-to-integer conversion out of range are the outcome [Undefined];
      so is a write past the end of a vector, whose capacity beyond its size
      C++ leaves to the implementation; a C++ or Python exception is the
      outcome [Throw].
    - A [double] is a binary64 [float], with the operations of the kernel,
      which round to nearest. *)

From Stdlib Require Import String Ascii DecimalString DecimalNat DecimalFacts ZArith List
  Lia Bool Floats.
Import ListNotations.
Local Open Scope Z_scope.

(** ** Outcomes of fallible code *)

Inductive exception : Type :=
| invalid_argument
| value_error.

Inductive outcome (A : Type) : Type :=
| Done (a : A)
| AssertFail
| Undefined
| Throw (e : exception).
Arguments Done {A} a.
Arguments AssertFail {A}.
Arguments Undefined {A}.
Arguments Throw {A} e.

Definition obind {A B : Type} (c : outcome A) (k : A -> outcome B) : outcome B :=
  match c with
  | Done a => k a
  | AssertFail => AssertFail
  | Undefined => Undefined
  | Throw e => Throw e
  end.

Notation "x <- c ;; k" := (obind c (fun x => k))
  (at level 61, c at next level, right associativity).
Notation "' pat <- c ;; k" := (obind c (fun x => match x with pat => k end))
  (at level 61, pat pattern, c at next level, right associativity).

(** [assert(c)]: checked unless the build defines [NDEBUG]. *)
Definition assert_ (ndebug : bool) (c : bool) : outcome unit :=
  if ndebug then Done tt else if c then Done tt else AssertFail.

(** ** Integral element types *)

Record int_type : Type := { tbits : Z; tsigned : bool }.

Definition int8_t   := {| tbits := 8;  tsigned := true |}.
Definition uint8_t  := {| tbits := 8;  tsigned := false |}.
Definition int16_t  := {| tbits := 16; tsigned := true |}.
Definition uint16_t := {| tbits := 16; tsigned := false |}.
Definition int32_t  := {| tbits := 32; tsigned := true |}.
Definition uint32_t := {| tbits := 32; tsigned := false |}.
Definition int64_t  := {| tbits := 64; tsigned := true |}.
Definition uint64_t := {| tbits := 64; tsigned := false |}.
Definition size_t   := uint64_t.
Definition int_     := int32_t.

Definition wrap_unsigned (w x : Z) : Z := x mod 2 ^ w.
Definition wrap_signed (w x : Z) : Z := (x + 2 ^ (w - 1)) mod 2 ^ w - 2 ^ (w - 1).

(** [static_cast<T>(x)] *)
Definition cast (T : int_type) (x : Z) : Z :=
  if tsigned T then wrap_signed (tbits T) x else wrap_unsigned (tbits T) x.

(** [static_cast<std::make_unsigned_t<T>>(x)] *)
Definition to_unsigned (T : int_type) (x : Z) : Z := wrap_unsigned (tbits T) x.

Definition to_size_t (x : Z) : Z := wrap_unsigned 64 x.

(** [std::numeric_limits<T>::max()] and [min()] *)
Definition numeric_max (T : int_type) : Z :=
  if tsigned T then 2 ^ (tbits T - 1) - 1 else 2 ^ tbits T - 1.
Definition numeric_min (T : int_type) : Z :=
  if tsigned T then - 2 ^ (tbits T - 1) else 0.

Definition in_range (T : int_type) (x : Z) : Prop :=
  numeric_min T <= x <= numeric_max T.

(** The type of an arithmetic expression on [T] after integral promotion:
    types narrower than [int] are computed in [int]. *)
Definition promote (T : int_type) : int_type :=
  if tbits T <? 32 then int_ else T.

(** [std::ranges::max] of a non-empty span. *)
Definition ranges_max (l : list Z) : Z :=
  match l with
  | [] => 0
  | x :: r => fold_left Z.max r x
  end.

(** ** Little-endian words *)

Fixpoint word_bytes (n : nat) (w : Z) : list Z :=
  match n with
  | O => []
  | S k => Z.land w 255 :: word_bytes k (Z.shiftr w 8)
  end.

Fixpoint bytes_word (l : list Z) : Z :=
  match l with
  | [] => 0
  | b :: r => Z.lor b (Z.shiftl (bytes_word r) 8)
  end.

(** ** Bitqueue.hpp *)

Module Bitqueue.

(** *** [Bitqueue_push_back]

    [pb_mem] is the memory between [container.data()] and [d_data], that is
    the words spilled so far; the vector behind [d_data] is still zero. *)
Record Bitqueue_push_back : Type := {
  pb_mem : list Z;
  pb_buffered_bits : Z;
  pb_buffer : Z
}.

Definition push_init : Bitqueue_push_back :=
  {| pb_mem := []; pb_buffered_bits := 0; pb_buffer := 0 |}.

(** Constructor: the three assertions on the container. The vector is
    heap-allocated, hence aligned; what is left is the size test. *)
Definition push_ctor (ndebug : bool) (container_size : nat) : outcome Bitqueue_push_back :=
  _ <- assert_ ndebug (Nat.eqb (container_size mod 8) 0) ;;
  Done push_init.

(** [data() - container.data()] *)
Definition pb_data (q : Bitqueue_push_back) : nat := length (pb_mem q).

(** The operand that is or-ed into [d_buffer]: masked for a signed [T] only. *)
Definition push_operand (T : int_type) (B val : Z) : Z :=
  if tsigned T then Z.land (to_unsigned T val) (Z.ones B) else val.

(** One iteration of the loop of [push_back(B, values)]. (A push of 64
    bits that ends on a word boundary shifts by 64, which C++ leaves open;
    [Z.shiftr] gives 0 there.) *)
Definition push_value (T : int_type) (B : Z) (q : Bitqueue_push_back) (val : Z)
  : Bitqueue_push_back :=
  let x := push_operand T B val in
  let buffer := to_size_t (Z.lor (pb_buffer q) (Z.shiftl x (pb_buffered_bits q))) in
  let buffered := pb_buffered_bits q + B in
  if 64 <=? buffered then
    {| pb_mem := pb_mem q ++ word_bytes 8 buffer;
       pb_buffered_bits := buffered - 64;
       pb_buffer := Z.shiftr x (B - (buffered - 64)) |}
  else
    {| pb_mem := pb_mem q; pb_buffered_bits := buffered; pb_buffer := buffer |}.

(** [push_back(B, std::span<T,N> values)] and [push_back<B>(std::span<T,N>)].
    The assertion [B <= sizeof(T) * 8] of the first holds at every call of
    Terse.hpp, where [B] is a result of [f_most_significant_bit] for the
    type pushed. *)
Definition push_back_span (T : int_type) (B : Z) (values : list Z)
  (q : Bitqueue_push_back) : Bitqueue_push_back :=
  if B =? 0 then q else fold_left (push_value T B) values q.

(** [push_back(B, val)] and [push_back<B>(val)] *)
Definition push_back (T : int_type) (B : Z) (val : Z) (q : Bitqueue_push_back)
  : Bitqueue_push_back :=
  if B =? 0 then q else push_back_span T B [val] q.

(** [operator-(container.data())] *)
Definition push_distance (q : Bitqueue_push_back) : nat :=
  (pb_data q + Z.to_nat ((pb_buffered_bits q + 7) / 8))%nat.

(** The destructor: [flush_buffer] copies the scratch word to [d_data]. *)
Definition flush_buffer (q : Bitqueue_push_back) : list Z :=
  pb_mem q ++ word_bytes 8 (pb_buffer q).

(** *** [Bitqueue_pop]

    [pp_mem] is the container, [pp_data] is [d_data - container.data()]. *)
Record Bitqueue_pop : Type := {
  pp_mem : list Z;
  pp_data : nat;
  pp_buffer : Z;
  pp_buffered_bits : Z
}.

(** [std::memcpy(&d_buffer, p, 8)]: all eight bytes must lie in the vector. *)
Definition load_word (mem : list Z) (off : nat) : outcome Z :=
  if (off + 8 <=? length mem)%nat
  then Done (bytes_word (firstn 8 (skipn off mem)))
  else Undefined.

(** Constructor. [d_buffer] has no initializer and only
    [min(container.size(), 8)] bytes are copied into it: with fewer than
    eight bytes the rest of the scratch word is indeterminate. *)
Definition pop_ctor (ndebug : bool) (container : list Z) : outcome Bitqueue_pop :=
  _ <- assert_ ndebug (Nat.eqb (length container mod 8) 0) ;;
  w <- load_word container 0 ;;
  Done {| pp_mem := container; pp_data := 0%nat; pp_buffer := w; pp_buffered_bits := 64 |}.

(** The sign step at the end of one iteration of [pop]. *)
Definition sign_extend (T : int_type) (B p : Z) : Z :=
  if B =? tbits T then p
  else
    let mask := cast T (Z.ones B) in
    let is_negative := if tsigned T then cast T (Z.shiftl 1 (B - 1)) else 0 in
    if Z.land p is_negative =? 0
    then cast T (Z.land p mask)
    else cast T (Z.lor p (Z.lnot mask)).

(** One iteration of the loop of [pop(B, values)], for [0 < B]. Asking for
    more bits than [T] has trips the assertion; without it the shifts of the
    sign step leave the defined range. *)
Definition pop_value (ndebug : bool) (T : int_type) (B : Z) (q : Bitqueue_pop)
  : outcome (Z * Bitqueue_pop) :=
  _ <- assert_ ndebug (B <=? tbits T) ;;
  if tbits T <? B then Undefined
  else
    let p := cast T (pp_buffer q) in
    if B <=? pp_buffered_bits q then
      if B =? 64 then
        Done (sign_extend T B p,
              {| pp_mem := pp_mem q; pp_data := pp_data q;
                 pp_buffer := 0; pp_buffered_bits := 0 |})
      else
        Done (sign_extend T B p,
              {| pp_mem := pp_mem q; pp_data := pp_data q;
                 pp_buffer := Z.shiftr (pp_buffer q) B;
                 pp_buffered_bits := pp_buffered_bits q - B |})
    else
      w <- load_word (pp_mem q) (pp_data q + 8) ;;
      let p' := cast T (Z.lor p (cast T (to_size_t (Z.shiftl w (pp_buffered_bits q))))) in
      Done (sign_extend T B p',
            {| pp_mem := pp_mem q; pp_data := (pp_data q + 8)%nat;
               pp_buffer := Z.shiftr w (B - pp_buffered_bits q);
               pp_buffered_bits := 64 + pp_buffered_bits q - B |}).

(** [pop(B, std::span<T,N> values)] and [pop<B>(std::span<T,N>)], for a span
    of [num] values. *)
Fixpoint pop_loop (ndebug : bool) (T : int_type) (B : Z) (num : nat) (q : Bitqueue_pop)
  : outcome (list Z * Bitqueue_pop) :=
  match num with
  | O => Done ([], q)
  | S k =>
      '(p, q1) <- pop_value ndebug T B q ;;
      '(r, q2) <- pop_loop ndebug T B k q1 ;;
      Done (p :: r, q2)
  end.

Definition pop_span (ndebug : bool) (T : int_type) (B : Z) (num : nat) (q : Bitqueue_pop)
  : outcome (list Z * Bitqueue_pop) :=
  if B =? 0 then Done (repeat 0 num, q) else pop_loop ndebug T B num q.

(** [pop<B,T>()] and [pop<T>(B)] *)
Definition pop (ndebug : bool) (T : int_type) (B : Z) (q : Bitqueue_pop)
  : outcome (Z * Bitqueue_pop) :=
  if B =? 0 then Done (0, q) else pop_value ndebug T B q.

(** [skip(B)]: neither branch touches [d_buffer]. *)
Definition skip (B : Z) (q : Bitqueue_pop) : Bitqueue_pop :=
  if B <=? pp_buffered_bits q then
    {| pp_mem := pp_mem q; pp_data := pp_data q;
       pp_buffer := pp_buffer q; pp_buffered_bits := pp_buffered_bits q - B |}
  else
    {| pp_mem := pp_mem q; pp_data := (pp_data q + 8 + Z.to_nat (B / 64))%nat;
       pp_buffer := pp_buffer q; pp_buffered_bits := 64 - B mod 64 |}.

(** [operator-(p)], with [p] given as an offset into the container. *)
Definition pop_distance (q : Bitqueue_pop) (p : Z) : Z :=
  Z.of_nat (pp_data q) + (pp_buffered_bits q + 7) / 8 - p.

End Bitqueue.

(** ** Terse.hpp *)

Module Terse.
Import Bitqueue.

Inductive Terse_mode : Type := Unsigned | Small_unsigned | Signed | Default.

(** The object representation of a [std::string] element of [d_metadata]:
    either a string with its characters, or an object whose bytes were
    overwritten from outside, which has no string value any more. *)
Inductive std_string : Type :=
| Chars (s : string)
| Clobbered (raw : list Z).

Record Terse : Type := {
  d_terse_frames : list (list Z);
  d_signed : bool;
  d_small : bool;
  d_block : nat;
  d_size : nat;
  d_prolix_bits : Z;
  d_dim : list nat;
  d_metadata : list std_string
}.

(** [Terse() noexcept {}] with the default member initializers; [d_signed]
    has none and is set by the first insertion. *)
Definition Terse_empty : Terse :=
  {| d_terse_frames := []; d_signed := false; d_small := false; d_block := 12;
     d_size := 0; d_prolix_bits := 0; d_dim := []; d_metadata := [] |}.

Definition number_of_frames (t : Terse) : nat := length (d_terse_frames t).
Definition size (t : Terse) : nat := d_size t.

(** *** [f_most_significant_bit] *)

(** [for ( ; setbits; setbits>>=1, ++r);] on a 64-bit word. *)
Fixpoint msb_loop (fuel : nat) (setbits r : Z) : Z :=
  match fuel with
  | O => r
  | S k => if setbits =? 0 then r else msb_loop k (Z.shiftr setbits 1) (r + 1)
  end.

(** [(val == -1) ? 1 : std::abs(val) << 1], computed in the promoted type.
    [std::abs] of the most negative value is outside the standard; the
    embedding gives it the two's-complement result. *)
Definition signed_setbits (T : int_type) (val : Z) : Z :=
  if val =? -1 then 1
  else cast (promote T) (Z.shiftl (cast (promote T) (Z.abs val)) 1).

Definition setbits_of (T : int_type) (val : Z) : Z :=
  to_size_t (if tsigned T then signed_setbits T val else val).

(** [f_most_significant_bit(std::span<T0,N> values)] *)
Definition f_most_significant_bit (T : int_type) (values : list Z) : Z :=
  let setbits := fold_left (fun acc val => Z.lor acc (setbits_of T val)) values 0 in
  Z.min (msb_loop 64 setbits 0) (tbits T).

(** [f_most_significant_bit(T0 val)]; its callers pass an unsigned operand
    (the maximum of an unsigned block, or a [size_t]). *)
Definition f_most_significant_bit1 (T : int_type) (val : Z) : Z :=
  Z.min (msb_loop 64 (to_size_t val) 0) (tbits T).

(** *** Compression, modes [Signed] and [Unsigned] *)

Definition sizeof (T : int_type) : nat := Z.to_nat (tbits T / 8).

(** [PUSH_BITS(prevbits, bits)]; the result carries the new [prevbits]. *)
Definition PUSH_BITS (prevbits bits : Z) (q : Bitqueue_push_back)
  : Bitqueue_push_back * Z :=
  (if prevbits =? bits then push_back int_ 1 1 q
   else if bits <? 7 then push_back size_t 4 (Z.shiftl bits 1) q
   else if bits <? 10 then push_back size_t 6 (14 + Z.shiftl (bits - 7) 4) q
   else push_back size_t 12 (62 + Z.shiftl (bits - 10) 6) q,
   bits).

(** [std::span(data + from, data + to)] *)
Definition span_of (data : list Z) (from to : nat) : list Z :=
  firstn (to - from) (skipn from data).

(** [std::transform(first, last, buffer.begin(), [](T val) {return val + 1;})] *)
Definition transform_incr (T : int_type) (block buffer : list Z) : list Z :=
  map (fun val => cast T (val + 1)) block ++ skipn (length block) buffer.

(** The size the output vector is created with. The product with [0.01] is
    rounded towards zero by the conversion to [size_t]. *)
Definition initial_size (T : int_type) (size block : nat) : nat :=
  ((size * sizeof T) / 100 + block * sizeof T + 2)%nat.

(** The vector [terse_frame] of the encoders. Its bytes are those of the
    bit queue that writes to it ([pb_mem], then zeros); what is kept here is
    [terse_frame.size()], and whether the run is still one that C++ defines:
    [tf_defined] turns false when a word has been copied past the end of the
    vector, when the new size of a [resize] is no [size_t], and when the
    loop over the blocks does not come to an end. *)
Record terse_frame_vector : Type := {
  tf_size : nat;
  tf_defined : bool
}.

Definition tf_undefined (v : terse_frame_vector) : terse_frame_vector :=
  {| tf_size := tf_size v; tf_defined := false |}.

(** The conversion of a [size_t] to [double]; the sizes and indices of what
    is in memory lie below [2^63]. *)
Definition to_double (n : nat) : float :=
  PrimFloat.of_uint63 (Uint63.of_Z (Z.of_nat n)).

(** The conversion of a [double] to [size_t]: the fraction is dropped, and
    a value that has no [size_t] has no result. *)
Definition double_to_size_t (x : float) : option nat :=
  match Prim2SF x with
  | S754_zero _ => Some 0%nat
  | S754_finite sign m e =>
      let z := Z.shiftl (Z.pos m) e in
      if sign then (if z =? 0 then Some 0%nat else None)
      else if z <? 2 ^ 64 then Some (Z.to_nat z) else None
  | _ => None
  end.

(** [1.1 * terse_frame.size() * d_size / from], as [resize] takes it. *)
Definition grown_size (size d_size from : nat) : option nat :=
  double_to_size_t
    (PrimFloat.div
       (PrimFloat.mul (PrimFloat.mul 0x1.199999999999ap+0%float (to_double size))
                      (to_double d_size))
       (to_double from)).

(** The head of the loop over the blocks:
    [index = bitqueue.data() - terse_frame.data()], then
    [if (index > terse_frame.size() - block * sizeof(T) - 2)] the [resize]
    and the [relocate]. The words copied since the head of the block before
    lie below [index]: they are in the vector when [index <= size()], and a
    [resize] keeps no byte that is not. The [resize] keeps the bytes of the
    vector and adds zeros; [relocate] moves the queue to the same [index]. *)
Definition make_room (T : int_type) (t : Terse) (block from : nat)
  (q : Bitqueue_push_back) (v : terse_frame_vector) : terse_frame_vector :=
  let index := pb_data q in
  let defined := tf_defined v && (index <=? tf_size v)%nat in
  if to_size_t (Z.of_nat (tf_size v) - Z.of_nat (block * sizeof T) - 2) <? Z.of_nat index
  then match grown_size (tf_size v) (d_size t) from with
       | Some size => {| tf_size := size; tf_defined := defined |}
       | None => tf_undefined v
       end
  else {| tf_size := tf_size v; tf_defined := defined |}.

(** The bytes from [terse_frame.data()] to the end of the bit stream, the
    scratch word copied behind the words spilled. *)
Definition frame_bytes (q : Bitqueue_push_back) : list Z :=
  firstn (push_distance q) (flush_buffer q).

(** [terse_frame.resize(bitqueue - terse_frame.data())] and [return],
    followed by the destructor of [bitqueue], which copies the scratch word
    to [d_data]. The bit queue is not relocated after this [resize]: when it
    enlarges the vector the elements may move, and the destructor then
    writes through a pointer that is no longer valid. When it shortens the
    vector the storage stays, and holds the eight bytes of the scratch word
    if they end within the size the vector had. *)
Definition finish (v : terse_frame_vector) (q : Bitqueue_push_back) : outcome (list Z) :=
  if tf_defined v && (push_distance q <=? tf_size v)%nat
     && (pb_data q + 8 <=? tf_size v)%nat
  then Done (frame_bytes q)
  else Undefined.

Record compress_state : Type := {
  cs_vector : terse_frame_vector;
  cs_queue : Bitqueue_push_back;
  cs_prevbits : Z;
  cs_prevmasked_bits : Z;
  cs_buffer : list Z
}.

(** The body of the loop of [f_compress<MODE>], [MODE] being [Signed] or
    [Unsigned]. *)
Definition compress_block (mode : Terse_mode) (T : int_type) (t : Terse)
  (data : list Z) (from : nat) (s : compress_state) : compress_state :=
  let v := make_room T t (d_block t) from (cs_queue s) (cs_vector s) in
  let data_block := span_of data from (Nat.min (d_size t) (from + d_block t)) in
  let significant_bits := f_most_significant_bit T data_block in
  let '(q, prevbits) := PUSH_BITS (cs_prevbits s) significant_bits (cs_queue s) in
  match mode with
  | Signed =>
      {| cs_vector := v;
         cs_queue := push_back_span T significant_bits data_block q;
         cs_prevbits := prevbits;
         cs_prevmasked_bits := cs_prevmasked_bits s;
         cs_buffer := cs_buffer s |}
  | _ =>
      if negb (significant_bits =? tbits T) then
        {| cs_vector := v;
           cs_queue := push_back_span T significant_bits data_block q;
           cs_prevbits := prevbits;
           cs_prevmasked_bits := cs_prevmasked_bits s;
           cs_buffer := cs_buffer s |}
      else
        let buffer := transform_incr T data_block (cs_buffer s) in
        let masked_bits := f_most_significant_bit T buffer in
        let '(q, prevmasked_bits) := PUSH_BITS (cs_prevmasked_bits s) masked_bits q in
        {| cs_vector := v;
           cs_queue := push_back_span T masked_bits buffer q;
           cs_prevbits := prevbits;
           cs_prevmasked_bits := prevmasked_bits;
           cs_buffer := buffer |}
  end.

(** The state of a loop that has not come to its end when the fuel is
    used up: with a block size of 0 [from] never moves. *)
Definition cs_unfinished (s : compress_state) : compress_state :=
  {| cs_vector := tf_undefined (cs_vector s);
     cs_queue := cs_queue s;
     cs_prevbits := cs_prevbits s;
     cs_prevmasked_bits := cs_prevmasked_bits s;
     cs_buffer := cs_buffer s |}.

(** [for (std::size_t from = 0; from < d_size; from += d_block)]; a fuel of
    [d_size] is enough for every block size but 0. *)
Fixpoint compress_loop (fuel : nat) (mode : Terse_mode) (T : int_type) (t : Terse)
  (data : list Z) (from : nat) (s : compress_state) : compress_state :=
  match fuel with
  | O => if (from <? d_size t)%nat then cs_unfinished s else s
  | S k =>
      if (from <? d_size t)%nat
      then compress_loop k mode T t data (from + d_block t)
             (compress_block mode T t data from s)
      else s
  end.

(** [f_compress<MODE>(data)], [MODE == Signed || MODE == Unsigned] *)
Definition f_compress_plain (ndebug : bool) (mode : Terse_mode) (T : int_type)
  (t : Terse) (data : list Z) : outcome (list Z) :=
  let terse_frame := {| tf_size := initial_size T (d_size t) (d_block t);
                        tf_defined := true |} in
  q <- push_ctor ndebug (tf_size terse_frame) ;;
  let q := match mode with
           | Signed => q
           | _ => push_back int_ 18 262136 q
           end in
  let s := compress_loop (d_size t) mode T t data 0
             {| cs_vector := terse_frame;
                cs_queue := q; cs_prevbits := 0; cs_prevmasked_bits := 0;
                cs_buffer := repeat 0 (d_block t) |} in
  finish (cs_vector s) (cs_queue s).

(** *** Compression, mode [Small_unsigned] *)

(** The loop of the default case of [f_compress_weak_block]:
    [compact += mult * data_block[i]; mult *= (maxval + 1);] on [size_t]. *)
Definition radix_pack (maxval : Z) (data_block : list Z) : Z * Z :=
  fold_left (fun '(mult, compact) d =>
               (to_size_t (mult * (maxval + 1)), to_size_t (compact + mult * d)))
            data_block (1, 0).

(** Width of the single radix-packed integer the encoder writes for a block. *)
Definition weak_radix_bits (maxval : Z) (data_block : list Z) : Z :=
  f_most_significant_bit1 size_t (to_size_t (fst (radix_pack maxval data_block) - 1)).

(** [f_compress_weak_block(data_block, bitqueue, maxval, previous_maxval)];
    the result carries the new [previous_maxval]. *)
Definition f_compress_weak_block (T : int_type) (data_block : list Z)
  (q : Bitqueue_push_back) (maxval previous_maxval : Z) : Bitqueue_push_back * Z :=
  let q :=
    if (previous_maxval =? 0) && (maxval =? 0) then push_back int_ 1 1 q
    else if previous_maxval =? maxval then push_back int_ 2 3 q
    else if cast (promote T) (previous_maxval + 1) =? maxval then push_back int_ 2 2 q
    else if negb (maxval =? 6) && (cast (promote T) (previous_maxval - 1) =? maxval)
         then push_back int_ 2 1 q
    else if (previous_maxval =? 6) && (maxval =? 4) then push_back int_ 2 2 q
    else push_back (promote T) 5 (cast (promote T) (Z.shiftl maxval 2)) q in
  let q :=
    if maxval =? 0 then q
    else if maxval =? 1 then push_back_span T 1 data_block q
    else if maxval =? 3 then push_back_span T 2 data_block q
    else push_back size_t (weak_radix_bits maxval data_block)
                   (snd (radix_pack maxval data_block)) q in
  (q, maxval).

(** The literal headers of the strong path: [significant_bits] after the
    two-bit flag [00] and the escapes at 7, 10 and 17. *)
Definition push_strong_literal (significant_bits : Z) (q : Bitqueue_push_back)
  : Bitqueue_push_back :=
  if significant_bits <? 10
  then push_back size_t 8 (to_size_t (28 + Z.shiftl (to_size_t (significant_bits - 3)) 5)) q
  else if significant_bits <? 17
  then push_back size_t 11 (to_size_t (252 + Z.shiftl (to_size_t (significant_bits - 10)) 8)) q
  else push_back size_t 17 (to_size_t (2044 + Z.shiftl (to_size_t (significant_bits - 17)) 11)) q.

(** [f_compress_strong_block(data_block, bitqueue, significant_bits,
    previous_significant_bits)]; the result carries the new
    [previous_significant_bits]. *)
Definition f_compress_strong_block (T : int_type) (data_block : list Z)
  (q : Bitqueue_push_back) (significant_bits previous_significant_bits : Z)
  : Bitqueue_push_back * Z :=
  let q :=
    if previous_significant_bits =? significant_bits then push_back int_ 2 3 q
    else if to_size_t (previous_significant_bits + 1) =? significant_bits
         then push_back int_ 2 2 q
    else if to_size_t (previous_significant_bits - 1) =? significant_bits
         then push_back int_ 2 1 q
    else push_strong_literal significant_bits q in
  (push_back_span T significant_bits data_block q, significant_bits).

Record small_state : Type := {
  ss_vector : terse_frame_vector;
  ss_queue : Bitqueue_push_back;
  ss_prevmax : Z;
  ss_prevbits : Z
}.

Definition ss_unfinished (s : small_state) : small_state :=
  {| ss_vector := tf_undefined (ss_vector s);
     ss_queue := ss_queue s;
     ss_prevmax := ss_prevmax s;
     ss_prevbits := ss_prevbits s |}.

Definition small_block (t : Terse) : nat := Nat.min (d_block t) 24.

(** One masked block of [f_compress_masked]: room for the block as at the
    head of the other loops, the shift by one, then the weak or the strong
    path on the shifted values. *)
Definition masked_block (T : int_type) (t : Terse) (data buffer : list Z)
  (from : nat) (s : small_state) : small_state * list Z :=
  let v := make_room T t (small_block t) from (ss_queue s) (ss_vector s) in
  let to := Nat.min (d_size t) (from + small_block t) in
  let buffer := transform_incr T (span_of data from to) buffer in
  let unmasked := firstn (to - from) buffer in
  let max := ranges_max unmasked in
  if max <? 7 then
    let '(q, prevmax) := f_compress_weak_block T unmasked (ss_queue s) max (ss_prevmax s) in
    ({| ss_vector := v; ss_queue := q; ss_prevmax := prevmax;
        ss_prevbits := ss_prevbits s |}, buffer)
  else
    let '(q, prevbits) :=
      f_compress_strong_block T unmasked (ss_queue s)
        (f_most_significant_bit1 T max) (ss_prevbits s) in
    ({| ss_vector := v; ss_queue := q; ss_prevmax := ss_prevmax s;
        ss_prevbits := prevbits |}, buffer).

(** The loop of [f_compress_masked]; the result carries the value [from] is
    left with. A fuel of [d_size] is enough for every block size but 0. *)
Fixpoint masked_loop (fuel : nat) (T : int_type) (t : Terse) (data buffer : list Z)
  (from : nat) (s : small_state) : small_state * nat :=
  match fuel with
  | O => (if (from <? d_size t)%nat then ss_unfinished s else s, from)
  | S k =>
      if (from <? d_size t)%nat then
        let to := Nat.min (d_size t) (from + small_block t) in
        let '(s, buffer) := masked_block T t data buffer from s in
        if negb (Nat.eqb to (d_size t)) then
          let test_for_masked :=
            span_of data to (Nat.min (d_size t) (to + small_block t)) in
          if negb (ranges_max test_for_masked =? numeric_max T) then
            ({| ss_vector := ss_vector s;
                ss_queue := push_back int_ 1 0 (ss_queue s);
                ss_prevmax := ss_prevmax s; ss_prevbits := ss_prevbits s |}, from)
          else
            masked_loop k T t data buffer (from + small_block t)
              {| ss_vector := ss_vector s;
                 ss_queue := push_back int_ 1 1 (ss_queue s);
                 ss_prevmax := ss_prevmax s; ss_prevbits := ss_prevbits s |}
        else masked_loop k T t data buffer (from + small_block t) s
      else (s, from)
  end.

(** [f_compress_masked(data, terse_frame, from, bitqueue, max, prevmax, prevbits)] *)
Definition f_compress_masked (T : int_type) (t : Terse) (data : list Z)
  (from : nat) (s : small_state) : small_state * nat :=
  let q := push_strong_literal (tbits T) (ss_queue s) in
  masked_loop (d_size t) T t data (repeat 0 (small_block t)) from
    {| ss_vector := ss_vector s;
       ss_queue := q; ss_prevmax := numeric_max T; ss_prevbits := tbits T + 1 |}.

(** [for (std::size_t from = 0; from < d_size; from += block)] of
    [f_compress<Small_unsigned>]; a fuel of [d_size] is enough for every
    block size but 0. *)
Fixpoint small_loop (fuel : nat) (T : int_type) (t : Terse) (data : list Z)
  (from : nat) (s : small_state) : small_state :=
  match fuel with
  | O => if (from <? d_size t)%nat then ss_unfinished s else s
  | S k =>
      if (from <? d_size t)%nat then
        let v := make_room T t (small_block t) from (ss_queue s) (ss_vector s) in
        let data_block := span_of data from (Nat.min (d_size t) (from + small_block t)) in
        let max := ranges_max data_block in
        if max <? 7 then
          let '(q, prevmax) :=
            f_compress_weak_block T data_block (ss_queue s) max (ss_prevmax s) in
          small_loop k T t data (from + small_block t)
            {| ss_vector := v; ss_queue := q; ss_prevmax := prevmax; ss_prevbits := 65 |}
        else
          let significant_bits := f_most_significant_bit1 T max in
          if significant_bits =? tbits T then
            let '(s, from) :=
              f_compress_masked T t data from
                {| ss_vector := v; ss_queue := ss_queue s;
                   ss_prevmax := ss_prevmax s; ss_prevbits := ss_prevbits s |} in
            small_loop k T t data (from + small_block t) s
          else
            let '(q, prevbits) :=
              f_compress_strong_block T data_block (ss_queue s)
                significant_bits (ss_prevbits s) in
            small_loop k T t data (from + small_block t)
              {| ss_vector := v; ss_queue := q; ss_prevmax := numeric_max T / 2;
                 ss_prevbits := prevbits |}
      else s
  end.

(** [f_compress<Small_unsigned>(data)] *)
Definition f_compress_small (ndebug : bool) (T : int_type) (t : Terse)
  (data : list Z) : outcome (list Z) :=
  let terse_frame := {| tf_size := initial_size T (d_size t) (small_block t);
                        tf_defined := true |} in
  q <- push_ctor ndebug (tf_size terse_frame) ;;
  let q := push_back int_ 18 262140 q in
  let s := small_loop (d_size t) T t data 0
             {| ss_vector := terse_frame;
                ss_queue := q; ss_prevmax := 0; ss_prevbits := 0 |} in
  finish (ss_vector s) (ss_queue s).

(** [f_compress(mode, data_begin)] *)
Definition f_compress (ndebug : bool) (mode : Terse_mode) (T : int_type)
  (t : Terse) (data : list Z) : outcome (list Z) :=
  let mode := if tsigned T then Signed else mode in
  match mode with
  | Small_unsigned => f_compress_small ndebug T t data
  | Unsigned => f_compress_plain ndebug Unsigned T t data
  | Signed => f_compress_plain ndebug Signed T t data
  | Default => if d_small t then f_compress_small ndebug T t data
               else f_compress_plain ndebug Unsigned T t data
  end.

(** *** Decompression *)

(** [BITS(bits)]: the significant-bits header; [bits] is a [uint8_t]. *)
Definition BITS (ndebug : bool) (bits : Z) (q : Bitqueue_pop) : outcome (Z * Bitqueue_pop) :=
  '(b, q) <- pop ndebug uint8_t 1 q ;;
  if b =? 0 then
    '(bits, q) <- pop ndebug uint8_t 3 q ;;
    if bits =? 7 then
      '(b2, q) <- pop ndebug uint8_t 2 q ;;
      let bits := cast uint8_t (bits + b2) in
      if bits =? 10 then
        '(b6, q) <- pop ndebug uint8_t 6 q ;;
        Done (cast uint8_t (bits + b6), q)
      else Done (bits, q)
    else Done (bits, q)
  else Done (bits, q).

(** [POP(bits, begin, num)]: every arm of the macro pops [num] values of
    [bits] bits, with the width known at compile time or not. *)
Definition POP (ndebug : bool) (T : int_type) (bits : Z) (num : nat) (q : Bitqueue_pop)
  : outcome (list Z * Bitqueue_pop) :=
  pop_span ndebug T bits num q.

(** [for (std::size_t i = from; i != to; ++i) --begin[i];] *)
Definition decrement_all (T : int_type) (values : list Z) : list Z :=
  map (fun v => cast T (v - 1)) values.

(** The loop of [f_prolix_signed]; the decoded blocks are appended to [out]. *)
Fixpoint prolix_signed_loop (fuel : nat) (ndebug : bool) (T : int_type) (t : Terse)
  (from : nat) (significant_bits : Z) (q : Bitqueue_pop) (out : list Z)
  : outcome (list Z) :=
  match fuel with
  | O => Done out
  | S k =>
      if (from <? d_size t)%nat then
        let to := Nat.min (d_size t) (from + d_block t) in
        '(significant_bits, q) <- BITS ndebug significant_bits q ;;
        '(values, q) <- POP ndebug T significant_bits (to - from) q ;;
        prolix_signed_loop k ndebug T t (from + d_block t) significant_bits q
          (out ++ values)
      else Done out
  end.

(** [f_prolix_signed<N>(begin, frame)] *)
Definition f_prolix_signed (ndebug : bool) (T : int_type) (t : Terse) (frame : nat)
  : outcome (list Z) :=
  _ <- assert_ ndebug (frame <? number_of_frames t)%nat ;;
  _ <- assert_ ndebug (implb (d_signed t) (tsigned T)) ;;
  q <- pop_ctor ndebug (nth frame (d_terse_frames t) []) ;;
  prolix_signed_loop (d_size t) ndebug T t 0 0 q [].

(** The loop of [f_prolix_unsigned]. *)
Fixpoint prolix_unsigned_loop (fuel : nat) (ndebug : bool) (T : int_type) (t : Terse)
  (from : nat) (significant_bits masked_bits : Z) (q : Bitqueue_pop) (out : list Z)
  : outcome (list Z) :=
  match fuel with
  | O => Done out
  | S k =>
      if (from <? d_size t)%nat then
        let to := Nat.min (d_size t) (from + d_block t) in
        '(significant_bits, q) <- BITS ndebug significant_bits q ;;
        if negb (significant_bits =? d_prolix_bits t) then
          '(values, q) <- POP ndebug T significant_bits (to - from) q ;;
          prolix_unsigned_loop k ndebug T t (from + d_block t)
            significant_bits masked_bits q (out ++ values)
        else
          '(masked_bits, q) <- BITS ndebug masked_bits q ;;
          '(values, q) <- POP ndebug T masked_bits (to - from) q ;;
          prolix_unsigned_loop k ndebug T t (from + d_block t)
            significant_bits masked_bits q (out ++ decrement_all T values)
      else Done out
  end.

(** An [assert] whose argument pops the 18-bit prefix: with [NDEBUG] the
    argument is not evaluated and the prefix stays in the queue. *)
Definition assert_prefix (ndebug : bool) (prefix : Z) (q : Bitqueue_pop)
  : outcome Bitqueue_pop :=
  if ndebug then Done q
  else
    '(flag, q) <- pop ndebug size_t 18 q ;;
    _ <- assert_ ndebug (flag =? prefix) ;;
    Done q.

(** [f_prolix_unsigned<N>(begin, frame)] *)
Definition f_prolix_unsigned (ndebug : bool) (T : int_type) (t : Terse) (frame : nat)
  : outcome (list Z) :=
  _ <- assert_ ndebug (frame <? number_of_frames t)%nat ;;
  _ <- assert_ ndebug (implb (d_signed t) (tsigned T)) ;;
  q <- pop_ctor ndebug (nth frame (d_terse_frames t) []) ;;
  q <- assert_prefix ndebug 262136 q ;;
  prolix_unsigned_loop (d_size t) ndebug T t 0 0 0 q [].

(** [f_get_max(bitqueue, max, bits)]: [max] is a [T], [bits] a [uint8_t]. *)
Definition f_get_max (ndebug : bool) (T : int_type) (q : Bitqueue_pop) (max bits : Z)
  : outcome (Bitqueue_pop * Z * Z) :=
  '(flag, q) <- pop ndebug uint8_t 1 q ;;
  if (flag =? 1) && (max =? 0) then Done (q, max, bits)
  else
    '(b, q) <- pop ndebug uint8_t 1 q ;;
    let flag := cast uint8_t (Z.shiftl flag 1 + b) in
    if flag =? 3 then Done (q, max, bits)
    else if flag =? 2 then Done (q, cast T (max - 1), cast uint8_t (bits - 1))
    else if flag =? 1 then
      Done (q, (if max =? 6 then cast T (max - 2) else cast T (max + 1)),
            cast uint8_t (bits + 1))
    else
      '(bits, q) <- pop ndebug uint8_t 3 q ;;
      if bits =? 7 then
        '(b3, q) <- pop ndebug uint8_t 3 q ;;
        let bits := cast uint8_t (3 + b3) in
        if bits =? 10 then
          '(b3, q) <- pop ndebug uint8_t 3 q ;;
          let bits := cast uint8_t (bits + b3) in
          if bits =? 17 then
            '(b6, q) <- pop ndebug uint8_t 6 q ;;
            Done (q, numeric_max T / 2, cast uint8_t (bits + b6))
          else Done (q, numeric_max T / 2, bits)
        else Done (q, numeric_max T / 2, bits)
      else Done (q, cast T bits, bits).

(** [std::size_t const mult = std::pow(base, block) - 1;]. The power is a
    [double]; below [2^64] its rounding does not change the number of
    significant bits of [mult], which is all the callers use, and from [2^64]
    on the conversion to [size_t] is out of range. *)
Definition pow_minus_one (base : Z) (block : nat) : outcome Z :=
  let m := base ^ Z.of_nat block - 1 in
  if m <? 2 ^ 64 then Done m else Undefined.

(** Width of the single radix-packed integer the decoder reads for a block. *)
Definition prolix_radix_bits (max : Z) (block : nat) : outcome Z :=
  mult <- pow_minus_one (max + 1) block ;;
  Done (f_most_significant_bit1 size_t mult).

(** [data_block[i] = val % base; val /= base;] over [num] values *)
Fixpoint radix_digits (num : nat) (base val : Z) : list Z :=
  match num with
  | O => []
  | S k => val mod base :: radix_digits k base (val / base)
  end.

(** The radix case of the decoders. *)
Definition prolix_radix (ndebug : bool) (T : int_type) (max : Z) (block num : nat)
  (q : Bitqueue_pop) : outcome (list Z * Bitqueue_pop) :=
  width <- prolix_radix_bits max block ;;
  '(val, q) <- pop ndebug size_t width q ;;
  Done (map (cast T) (radix_digits num (max + 1) val), q).

Record prolix_state : Type := {
  ps_queue : Bitqueue_pop;
  ps_max : Z;
  ps_bits : Z;
  ps_out : list Z
}.

(** The loop of [f_prolix_small_unsigned_masked]; the result carries the
    value [from] is left with. *)
Fixpoint prolix_masked_loop (fuel : nat) (ndebug : bool) (T : int_type) (t : Terse)
  (from : nat) (s : prolix_state) : outcome (prolix_state * nat) :=
  match fuel with
  | O => Done (s, from)
  | S k =>
      if (from <? d_size t)%nat then
        let to := Nat.min (d_size t) (from + small_block t) in
        '(q, max, bits) <- f_get_max ndebug T (ps_queue s) (ps_max s) (ps_bits s) ;;
        '(values, q, max) <-
           (if 7 <=? max then
              '(values, q) <- POP ndebug T bits (to - from) q ;;
              Done (decrement_all T values, q, ranges_max values)
            else
              '(values, q) <- prolix_radix ndebug T max (small_block t) (to - from) q ;;
              Done (decrement_all T values, q, max)) ;;
        '(masked, q) <- pop ndebug uint8_t 1 q ;;
        let s := {| ps_queue := q; ps_max := max; ps_bits := bits;
                    ps_out := ps_out s ++ values |} in
        if masked =? 0 then Done (s, from)
        else prolix_masked_loop k ndebug T t (from + small_block t) s
      else Done (s, from)
  end.

(** [f_prolix_small_unsigned_masked<N>(bitqueue, begin, from, max, bits)] *)
Definition f_prolix_small_unsigned_masked (ndebug : bool) (T : int_type) (t : Terse)
  (from : nat) (s : prolix_state) : outcome (prolix_state * nat) :=
  prolix_masked_loop (d_size t) ndebug T t from
    {| ps_queue := ps_queue s; ps_max := ps_max s; ps_bits := 0; ps_out := ps_out s |}.

(** The loop of [f_prolix_small_unsigned] (integral element type). *)
Fixpoint prolix_small_loop (fuel : nat) (ndebug : bool) (T : int_type) (t : Terse)
  (from : nat) (s : prolix_state) : outcome (list Z) :=
  match fuel with
  | O => Done (ps_out s)
  | S k =>
      if (from <? d_size t)%nat then
        let to := Nat.min (d_size t) (from + small_block t) in
        '(q, max, bits) <- f_get_max ndebug T (ps_queue s) (ps_max s) (ps_bits s) ;;
        let plain (width : Z) :=
          '(values, q) <- POP ndebug T width (to - from) q ;;
          prolix_small_loop k ndebug T t (from + small_block t)
            {| ps_queue := q; ps_max := max; ps_bits := bits;
               ps_out := ps_out s ++ values |} in
        let radix (maxval : Z) :=
          '(values, q) <- prolix_radix ndebug T maxval (small_block t) (to - from) q ;;
          prolix_small_loop k ndebug T t (from + small_block t)
            {| ps_queue := q; ps_max := max; ps_bits := bits;
               ps_out := ps_out s ++ values |} in
        if max =? 0 then plain 0
        else if max =? 1 then plain 1
        else if max =? 2 then radix max
        else if max =? 3 then plain 2
        else if max =? 7 then plain 3
        else if max <? 7 then radix max
        else if bits =? d_prolix_bits t then
          '(s, from) <- f_prolix_small_unsigned_masked ndebug T t from
                          {| ps_queue := q; ps_max := max; ps_bits := bits;
                             ps_out := ps_out s |} ;;
          prolix_small_loop k ndebug T t (from + small_block t) s
        else plain bits
      else Done (ps_out s)
  end.

(** [f_prolix_small_unsigned<N>(begin, frame)] *)
Definition f_prolix_small_unsigned (ndebug : bool) (T : int_type) (t : Terse) (frame : nat)
  : outcome (list Z) :=
  _ <- assert_ ndebug (implb (d_signed t) (tsigned T)) ;;
  q <- pop_ctor ndebug (nth frame (d_terse_frames t) []) ;;
  q <- assert_prefix ndebug 262140 q ;;
  prolix_small_loop (d_size t) ndebug T t 0
    {| ps_queue := q; ps_max := 0; ps_bits := 0; ps_out := [] |}.

(** [f_prolix<N>(begin, frame)] *)
Definition f_prolix (ndebug : bool) (T : int_type) (t : Terse) (frame : nat)
  : outcome (list Z) :=
  q <- pop_ctor ndebug (nth frame (d_terse_frames t) []) ;;
  '(flag, _) <- pop ndebug size_t 18 q ;;
  if flag =? 262140 then f_prolix_small_unsigned ndebug T t frame
  else if flag =? 262136 then f_prolix_unsigned ndebug T t frame
  else f_prolix_signed ndebug T t frame.

(** [prolix(begin, frame)]: the switch on [d_block] selects the template
    argument [N], which only chooses between the equivalent arms of [POP]. *)
Definition prolix (ndebug : bool) (T : int_type) (t : Terse) (frame : nat)
  : outcome (list Z) :=
  _ <- assert_ ndebug (frame <? number_of_frames t)%nat ;;
  f_prolix ndebug T t frame.

(** *** The container *)

Definition set_frames (t : Terse) (frames : list (list Z)) (metadata : list std_string)
  : Terse :=
  {| d_terse_frames := frames; d_signed := d_signed t; d_small := d_small t;
     d_block := d_block t; d_size := d_size t; d_prolix_bits := d_prolix_bits t;
     d_dim := d_dim t; d_metadata := metadata |}.

(** [std::vector::insert(begin() + pos, x)] *)
Definition vector_insert {A : Type} (pos : nat) (x : A) (l : list A) : list A :=
  firstn pos l ++ x :: skipn pos l.

(** [v[pos] = x] *)
Fixpoint vector_set {A : Type} (pos : nat) (x : A) (l : list A) : list A :=
  match l, pos with
  | [], _ => []
  | _ :: r, O => x :: r
  | y :: r, S k => y :: vector_set k x r
  end.

(** [block_size(block)], declared [noexcept]: no branch of it fails. *)
Definition block_size (t : Terse) (block : nat) : outcome Terse :=
  Done {| d_terse_frames := d_terse_frames t; d_signed := d_signed t;
          d_small := d_small t;
          d_block := if Nat.eqb (number_of_frames t) 0 then block else d_block t;
          d_size := d_size t; d_prolix_bits := d_prolix_bits t;
          d_dim := d_dim t; d_metadata := d_metadata t |}.

(** [set_block_size] of the Python module (pyterse.cpp). *)
Definition set_block_size (t : Terse) (block : nat) : outcome Terse :=
  if (0 <? number_of_frames t)%nat then Throw value_error
  else block_size t block.

(** [small(val)] *)
Definition small (t : Terse) (val : bool) : Terse :=
  {| d_terse_frames := d_terse_frames t; d_signed := d_signed t; d_small := val;
     d_block := d_block t; d_size := d_size t; d_prolix_bits := d_prolix_bits t;
     d_dim := d_dim t; d_metadata := d_metadata t |}.

(** [dim(dim)], for a container whose dimensions are not set yet. *)
Definition dim (t : Terse) (dims : list nat) : Terse :=
  {| d_terse_frames := d_terse_frames t; d_signed := d_signed t; d_small := d_small t;
     d_block := d_block t; d_size := d_size t; d_prolix_bits := d_prolix_bits t;
     d_dim := dims; d_metadata := d_metadata t |}.

(** [f_validate_insert<T>(pos, size, mode)] *)
Definition f_validate_insert (ndebug : bool) (T : int_type) (t : Terse)
  (pos size : nat) (mode : Terse_mode) : outcome Terse :=
  _ <- assert_ ndebug (pos <=? number_of_frames t)%nat ;;
  let prolix_bits := Z.max (d_prolix_bits t) (8 * Z.of_nat (sizeof T)) in
  t' <- (if Nat.eqb (number_of_frames t) 0 then
           Done {| d_terse_frames := d_terse_frames t; d_signed := tsigned T;
                   d_small := d_small t; d_block := d_block t; d_size := size;
                   d_prolix_bits := prolix_bits; d_dim := d_dim t;
                   d_metadata := d_metadata t |}
         else
           _ <- assert_ ndebug (Nat.eqb (d_size t) size) ;;
           _ <- assert_ ndebug (Bool.eqb (d_signed t) (tsigned T)) ;;
           Done {| d_terse_frames := d_terse_frames t; d_signed := d_signed t;
                   d_small := d_small t; d_block := d_block t; d_size := d_size t;
                   d_prolix_bits := prolix_bits; d_dim := d_dim t;
                   d_metadata := d_metadata t |}) ;;
  _ <- assert_ ndebug (implb (d_signed t')
                         (match mode with Signed => true | _ => false end)) ;;
  Done t'.

(** [insert(pos, data, size, mode)] *)
Definition insert (ndebug : bool) (T : int_type) (t : Terse) (pos : nat)
  (data : list Z) (mode : Terse_mode) : outcome Terse :=
  let mode := if tsigned T then Signed else mode in
  t <- f_validate_insert ndebug T t pos (length data) mode ;;
  let metadata := vector_insert pos (Chars EmptyString) (d_metadata t) in
  frame <- f_compress ndebug mode T t data ;;
  Done (set_frames t (vector_insert pos frame (d_terse_frames t)) metadata).

(** [push_back(it, size, mode)] *)
Definition push_back_frame (ndebug : bool) (T : int_type) (t : Terse)
  (data : list Z) (mode : Terse_mode) : outcome Terse :=
  insert ndebug T t (number_of_frames t) data mode.

(** [metadata(pos, data)] *)
Definition set_metadata (ndebug : bool) (t : Terse) (pos : nat) (data : string)
  : outcome Terse :=
  _ <- assert_ ndebug (pos <? number_of_frames t)%nat ;;
  Done (set_frames t (d_terse_frames t) (vector_set pos (Chars data) (d_metadata t))).

(** [metadata(frame)] *)
Definition metadata (t : Terse) (frame : nat) : std_string :=
  nth frame (d_metadata t) (Clobbered []).

(** [terse_size()] *)
Definition terse_size (t : Terse) : nat :=
  fold_left (fun memsize frame => (memsize + length frame)%nat) (d_terse_frames t) 0%nat.

(** *** Streams *)

(** An output stream is the list of the bytes written to it, an input stream
    the list of the bytes still to be read. *)
Definition bytes_of_string (s : string) : list Z :=
  map (fun c => Z.of_nat (nat_of_ascii c)) (list_ascii_of_string s).

Definition string_of_bytes (l : list Z) : string :=
  string_of_list_ascii (map (fun b => ascii_of_nat (Z.to_nat b)) l).

(** [ostream << n] for an unsigned number *)
Definition decimal (n : nat) : string :=
  NilEmpty.string_of_uint (Nat.to_uint n).

Definition put (s : string) (os : list Z) : list Z := os ++ bytes_of_string s.

(** The size of a metadata string as [std::string::size] reports it. *)
Definition string_size (m : std_string) : nat :=
  match m with
  | Chars s => String.length s
  | Clobbered raw => length raw
  end.

Definition string_data (m : std_string) : list Z :=
  match m with
  | Chars s => bytes_of_string s
  | Clobbered raw => raw
  end.

(** [for (i = 0; i + 1 != n; ++i) ostream << x[i] << " "; ostream << x.back()] *)
Fixpoint put_list (l : list nat) (os : list Z) : list Z :=
  match l with
  | [] => os
  | [x] => put (decimal x) os
  | x :: r => put_list r (put " " (put (decimal x) os))
  end.

Definition quote : string := String (ascii_of_nat 34) EmptyString.

(** [f_write_metadata(ostream)] *)
Definition f_write_metadata (t : Terse) (os : list Z) : list Z :=
  let memory_size := terse_size t in
  let os := put quote (put (decimal (Z.to_nat (d_prolix_bits t)))
              (put quote (put "<Terse prolix_bits=" os))) in
  let os := put quote (put (if d_signed t then "1" else "0")
              (put quote (put " signed=" os))) in
  let os := put quote (put (decimal (d_block t)) (put quote (put " block=" os))) in
  let os := put quote (put (decimal (size t))
              (put quote (put " number_of_values=" os))) in
  let os := match d_dim t with
            | [] => os
            | _ => put quote (put_list (d_dim t) (put quote (put " dimensions=" os)))
            end in
  let os := put quote (put (decimal (length (d_terse_frames t)))
              (put quote (put " number_of_frames=" os))) in
  let os := put quote (put_list (map (@length Z) (d_terse_frames t))
              (put quote (put " memory_sizes_of_frames=" os))) in
  let os := put quote (put (decimal memory_size)
              (put quote (put " memory_size=" os))) in
  let os := match d_metadata t with
            | [] => os
            | _ => put quote (put_list (map string_size (d_metadata t))
                     (put quote (put " metadata_string_sizes=" os)))
            end in
  let os := put "/>" os in
  fold_left (fun os str => os ++ string_data str) (d_metadata t) os.

(** [file_size()] *)
Definition file_size (t : Terse) : nat :=
  if Nat.eqb (number_of_frames t) 0 then 0%nat
  else (length (f_write_metadata t []) + terse_size t)%nat.

(** [write(ostream)] *)
Definition write (t : Terse) (os : list Z) : list Z :=
  if Nat.eqb (number_of_frames t) 0 then os
  else fold_left (fun os frame => os ++ frame) (d_terse_frames t) (f_write_metadata t os).

(** *** Reading a container *)

Definition is_digit (c : ascii) : bool :=
  (48 <=? nat_of_ascii c)%nat && (nat_of_ascii c <=? 57)%nat.

Fixpoint read_digits (s : string) (acc : nat) (seen : bool) : option nat * string :=
  match s with
  | String c r =>
      if is_digit c then read_digits r (10 * acc + (nat_of_ascii c - 48)) true
      else ((if seen then Some acc else None), s)
  | EmptyString => ((if seen then Some acc else None), s)
  end.

Fixpoint skip_spaces (s : string) : string :=
  match s with
  | String c r => if Ascii.eqb c " " then skip_spaces r else s
  | EmptyString => s
  end.

(** [std::stoul], [std::stoull] on a decimal numeral; a string without one
    makes them throw. *)
Definition stoul (s : string) : outcome nat :=
  match read_digits (skip_spaces s) 0 false with
  | (Some n, _) => Done n
  | (None, _) => Throw invalid_argument
  end.

(** [while (stream >> val) ...]: the numbers of a space-separated list *)
Fixpoint extract_loop (fuel : nat) (s : string) : list nat :=
  match fuel with
  | O => []
  | S k =>
      match read_digits (skip_spaces s) 0 false with
      | (Some n, r) => n :: extract_loop k r
      | (None, _) => []
      end
  end.

Definition extract (s : string) : list nat := extract_loop (S (String.length s)) s.

(** Modelled from the spec: [XML_element] (XML_element.hpp is not among the
    sources). The header is a single self-closing tag [<Terse .../>] of
    [name="value"] attributes, serialized as ASCII; the constructor scans the
    stream for the tag and leaves the stream right behind [/>]; [attribute]
    gives the value of an attribute, and the empty string when it is absent. *)
Record XML_element : Type := { xml_attributes : list (string * string) }.

Fixpoint starts_with (p s : list Z) : bool :=
  match p, s with
  | [], _ => true
  | a :: p', b :: s' => (a =? b) && starts_with p' s'
  | _ :: _, [] => false
  end.

Fixpoint find_tag (p s : list Z) : option (list Z) :=
  if starts_with p s then Some (skipn (length p) s)
  else match s with
       | [] => None
       | _ :: r => find_tag p r
       end.

Fixpoint read_until (c : Z) (s : list Z) : list Z * option (list Z) :=
  match s with
  | [] => ([], None)
  | b :: r => if b =? c then ([], Some r)
              else let '(text, rest) := read_until c r in (b :: text, rest)
  end.

Fixpoint skip_blanks (s : list Z) : list Z :=
  match s with
  | 32 :: r => skip_blanks r
  | _ => s
  end.

Fixpoint parse_attributes (fuel : nat) (s : list Z)
  : option (list (string * string) * list Z) :=
  match fuel with
  | O => None
  | S k =>
      match skip_blanks s with
      | 47 :: 62 :: rest => Some ([], rest)
      | s' =>
          match read_until 61 s' with
          | (name, Some (34 :: r)) =>
              match read_until 34 r with
              | (value, Some r') =>
                  match parse_attributes k r' with
                  | Some (l, rest) =>
                      Some ((string_of_bytes name, string_of_bytes value) :: l, rest)
                  | None => None
                  end
              | _ => None
              end
          | _ => None
          end
      end
  end.

(** [XML_element(istream, "Terse")]; [None] when the stream ends without the
    tag. *)
Definition XML_element_ctor (istream : list Z) (tag : string)
  : option (XML_element * list Z) :=
  match find_tag (bytes_of_string ("<" ++ tag)) istream with
  | Some r =>
      match parse_attributes (length r) r with
      | Some (l, rest) => Some ({| xml_attributes := l |}, rest)
      | None => None
      end
  | None => None
  end.

Fixpoint assoc (name : string) (l : list (string * string)) : string :=
  match l with
  | [] => EmptyString
  | (k, v) :: r => if String.eqb k name then v else assoc name r
  end.

Definition attribute (xmle : XML_element) (name : string) : string :=
  assoc name (xml_attributes xmle).

(** [istream.read(p, n)] *)
Definition stream_read (n : nat) (istream : list Z) : list Z * list Z :=
  (firstn n istream, skipn n istream).

(** [v.resize(n)] *)
Definition vector_resize (n : nat) (v : list Z) : list Z :=
  firstn n v ++ repeat 0 (n - length v).

(** [v.resize(n); istream.read(&v[0], n)]: what the stream cannot supply
    stays zero. *)
Definition read_vector (n : nat) (istream : list Z) : list Z * list Z :=
  (vector_resize n (firstn n istream), skipn n istream).

(** The metadata loop of the constructor. The destination of [read] is
    [&d_metadata.back()] cast to a character pointer, the address of the
    [std::string] object and not of its characters: the bytes of the stream
    land on the object representation of the string. *)
Fixpoint read_metadata (sizes : list nat) (istream : list Z)
  : list std_string * list Z :=
  match sizes with
  | [] => ([], istream)
  | val :: r =>
      let '(raw, istream) := stream_read val istream in
      let '(l, istream) := read_metadata r istream in
      (Clobbered raw :: l, istream)
  end.

(** The loop over [memory_sizes_of_frames]: [frame_sizes_str >> val] leaves
    zero in [val] once the list is exhausted. *)
Fixpoint read_frames (n : nat) (sizes : list nat) (istream : list Z)
  : list (list Z) * list Z :=
  match n with
  | O => ([], istream)
  | S k =>
      let val := hd 0%nat sizes in
      let '(frame, istream) := read_vector val istream in
      let '(l, istream) := read_frames k (tl sizes) istream in
      (frame :: l, istream)
  end.

(** The header walk of [f_fill_terse_frames] over one frame. The one-bit pop
    is written [pop<1,bool>] in the source, an instance that
    [Bitqueue_pop] excludes; it is taken as the [pop<1,uint8_t>] of [BITS]. *)
Fixpoint walk_loop (fuel : nat) (ndebug : bool) (t : Terse) (from : nat)
  (significant_bits : Z) (q : Bitqueue_pop) : outcome Bitqueue_pop :=
  match fuel with
  | O => Done q
  | S k =>
      if (from <? size t)%nat then
        '(significant_bits, q) <- BITS ndebug significant_bits q ;;
        let q := skip (significant_bits *
                       Z.of_nat (Nat.min (d_block t) (size t - from))) q in
        walk_loop k ndebug t (from + d_block t) significant_bits q
      else Done q
  end.

(** The first loop of [f_fill_terse_frames]: every frame is walked by a
    [Bitqueue_pop] constructed on [f_get_frame(0)]; [terse_begin] is kept as
    an offset into that vector. *)
Fixpoint walk_frames (n : nat) (ndebug : bool) (t : Terse) (blob : list Z)
  (terse_begin : Z) : outcome (list Z) :=
  match n with
  | O => Done []
  | S k =>
      q <- pop_ctor ndebug blob ;;
      q <- walk_loop (size t) ndebug t 0 0 q ;;
      let terse_size := to_size_t (pop_distance q terse_begin) in
      r <- walk_frames k ndebug t blob (terse_begin + terse_size) ;;
      Done (terse_size :: r)
  end.

(** [std::memcpy(dst, blob + data_start, n)] into a vector resized to [n] *)
Definition copy_out (blob : list Z) (data_start n : Z) : outcome (list Z) :=
  if data_start + n <=? Z.of_nat (length blob)
  then Done (firstn (Z.to_nat n) (skipn (Z.to_nat data_start) blob))
  else Undefined.

(** The second loop of [f_fill_terse_frames]. *)
Fixpoint split_frames (terse_sizes : list Z) (blob : list Z) (data_start : Z)
  : outcome (list (list Z)) :=
  match terse_sizes with
  | [] => Done []
  | n :: r =>
      frame <- copy_out blob data_start n ;;
      l <- split_frames r blob (data_start + n) ;;
      Done (frame :: l)
  end.

(** [f_fill_terse_frames(istream, number_of_bytes)], on a container whose
    [d_terse_frames] holds [number_of_frames] empty vectors; the result is
    the new [d_terse_frames] and the stream left. *)
Definition f_fill_terse_frames (ndebug : bool) (t : Terse) (istream : list Z)
  (number_of_bytes : nat) : outcome (list (list Z) * list Z) :=
  let '(blob, istream) := read_vector number_of_bytes istream in
  terse_sizes <- walk_frames (number_of_frames t) ndebug t blob 0 ;;
  match terse_sizes with
  | [] => Undefined
  | size0 :: r =>
      l <- split_frames r blob size0 ;;
      Done (vector_resize (Z.to_nat size0) blob :: l, istream)
  end.

(** [Terse(istream, XML_element(istream, "Terse"))] *)
Definition Terse_read (ndebug : bool) (istream : list Z) : outcome (Terse * list Z) :=
  match XML_element_ctor istream "Terse" with
  | None => Done (Terse_empty, [])
  | Some (xmle, istream) =>
      prolix_bits <- stoul (attribute xmle "prolix_bits") ;;
      signed <- stoul (attribute xmle "signed") ;;
      block <- stoul (attribute xmle "block") ;;
      size <- stoul (attribute xmle "number_of_values") ;;
      let dims := extract (attribute xmle "dimensions") in
      let '(metadata, istream) :=
        if String.eqb (attribute xmle "metadata_string_sizes") EmptyString then ([], istream)
        else read_metadata (extract (attribute xmle "metadata_string_sizes")) istream in
      frames <- stoul (attribute xmle "number_of_frames") ;;
      let t := {| d_terse_frames := repeat [] frames;
                  d_signed := negb (Nat.eqb signed 0); d_small := false;
                  d_block := block; d_size := size;
                  d_prolix_bits := Z.of_nat prolix_bits;
                  d_dim := dims; d_metadata := metadata |} in
      if String.eqb (attribute xmle "memory_sizes_of_frames") EmptyString then
        memory_size <- stoul (attribute xmle "memory_size") ;;
        '(l, istream) <- f_fill_terse_frames ndebug t istream memory_size ;;
        Done (set_frames t l metadata, istream)
      else
        let '(l, istream) :=
          read_frames frames (extract (attribute xmle "memory_sizes_of_frames")) istream in
        Done (set_frames t l metadata, istream)
  end.

(** *** More of the container *)

(** [std::vector::erase(begin() + i)] *)
Definition vector_erase {A : Type} (i : nat) (l : list A) : list A :=
  firstn i l ++ skipn (S i) l.

(** [erase(i)]; erasing at an index the vectors do not have is outside the
    contract of [std::vector::erase]. *)
Definition erase (t : Terse) (i : nat) : outcome Terse :=
  if (i <? length (d_metadata t))%nat && (i <? number_of_frames t)%nat
  then Done (set_frames t (vector_erase i (d_terse_frames t))
                          (vector_erase i (d_metadata t)))
  else Undefined.

(** [at(pos)]: a container of its own for one frame; [d_small] keeps the
    value a new container has. *)
Definition at_frame (ndebug : bool) (t : Terse) (pos : nat) : outcome Terse :=
  _ <- assert_ ndebug (pos <? number_of_frames t)%nat ;;
  if (pos <? length (d_metadata t))%nat && (pos <? number_of_frames t)%nat
  then Done {| d_terse_frames := [nth pos (d_terse_frames t) []];
               d_signed := d_signed t; d_small := false; d_block := d_block t;
               d_size := d_size t; d_prolix_bits := d_prolix_bits t;
               d_dim := d_dim t;
               d_metadata := [nth pos (d_metadata t) (Chars EmptyString)] |}
  else Undefined.




End Terse.

(** ** Terse_hdf5.cpp *)

Module Terse_hdf5.
Import Terse.

(** The loop of [hdf5_buffer_to_terse] that cuts the buffer into chunks:
    [for (; pos + chunk_size < buffer.size(); pos += chunk_size)]. *)
Fixpoint chunk_loop (fuel chunk_size : nat) (buffer : list Z) (pos : nat)
  (chunks : list (list Z)) : list (list Z) * nat :=
  match fuel with
  | O => (chunks, pos)
  | S k =>
      if (pos + chunk_size <? length buffer)%nat
      then chunk_loop k chunk_size buffer (pos + chunk_size)
             (chunks ++ [span_of buffer pos (pos + chunk_size)])
      else (chunks, pos)
  end.

(** The spans pushed to [terse_chunks] and to [terse_rest]. *)
Definition hdf5_chunks (chunk_size : nat) (buffer : list Z)
  : list (list Z) * list (list Z) :=
  if Nat.eqb chunk_size 0 then ([buffer], [])
  else
    let '(chunks, pos) := chunk_loop (length buffer) chunk_size buffer 0 [] in
    (chunks, [span_of buffer pos (length buffer)]).

End Terse_hdf5.

Import Bitqueue Terse Terse_hdf5.

(** * Notions the statements are written with *)

(** Number of significant bits of a non-negative word. *)
Definition bit_length (s : Z) : Z := if s =? 0 then 0 else Z.log2 s + 1.

Definition list_max (l : list Z) : Z := fold_right Z.max 0 l.

(** The width a single signed value asks for in [f_most_significant_bit]:
    nothing for 0, one bit for -1, the bits of the magnitude and a sign bit
    otherwise. *)
Definition magnitude_width (v : Z) : Z :=
  if v =? 0 then 0 else if v =? -1 then 1 else Z.log2 (Z.abs v) + 2.

(** [v] is representable in two's complement of width [w]; width 0 holds
    the value 0 only. *)
Definition fits_twos_complement (w v : Z) : Prop :=
  (w = 0 /\ v = 0) \/ (0 < w /\ - 2 ^ (w - 1) <= v < 2 ^ (w - 1)).

(** [w] is the least width in which every value of the block fits. *)
Definition minimal_width (values : list Z) (w : Z) : Prop :=
  0 <= w /\ Forall (fits_twos_complement w) values /\
  forall w', 0 <= w' -> Forall (fits_twos_complement w') values -> w <= w'.

(** The signed element types the Python module dispatches on. *)
Definition supported_signed (T : int_type) : Prop :=
  tsigned T = true /\ (tbits T = 8 \/ tbits T = 16 \/ tbits T = 32 \/ tbits T = 64).

(** A value of [T] on which [std::abs] is defined: the most negative value
    of a type that is not promoted has no absolute value. *)
Definition abs_defined (T : int_type) (v : Z) : Prop :=
  in_range T v /\ (32 <= tbits T -> v <> numeric_min T).

(** The new block maximum that [f_get_max] leaves in [max]. *)
Definition new_max (r : outcome (Bitqueue_pop * Z * Z)) : outcome Z :=
  '(_, max, _) <- r ;; Done max.

(** * Scenarios *)

(** Compress one frame into a container of block size [block], then
    decompress it into a buffer of the same element type. *)
Definition roundtrip (ndebug : bool) (T : int_type) (block : nat) (mode : Terse_mode)
  (data : list Z) : outcome (list Z) :=
  t <- block_size Terse_empty block ;;
  t <- push_back_frame ndebug T t data mode ;;
  prolix ndebug T t 0.

Definition compressed (ndebug : bool) (T : int_type) (block : nat) (mode : Terse_mode)
  (data : list Z) : outcome (list (list Z)) :=
  t <- block_size Terse_empty block ;;
  t <- push_back_frame ndebug T t data mode ;;
  Done (d_terse_frames t).

Definition frame_sizes (t : Terse) : list nat := map (@length Z) (d_terse_frames t).

(** Write a container and construct a new one from the stream. *)
Definition reread (ndebug : bool) (t : Terse) : outcome Terse :=
  '(t', _) <- Terse_read ndebug (write t []) ;; Done t'.

(** A signed frame whose first block has width 4 and starts with four times
    -1: its header and payload open with the 18 bits of the [Unsigned]
    prefix. The second block holds a value of full width. *)
Definition colliding_frame : list Z :=
  [-1; -1; -1; -1; 4; 0; 0; 0; 0; 0; 0; 16384; 0; 0; 0].

(** The same for the default block size 12. *)
Definition colliding_frame_12 : list Z :=
  [-1; -1; -1; -1; 4; 0; 0; 0; 0; 0; 0; 0; 16384; 0; 0; 0].

(** A frame of 7 values for block size 6: the last block has one value, and
    its maximum 2 selects radix 3. *)
Definition partial_block_frame : list Z := [8; 0; 0; 0; 0; 0; 2].

(** Two frames of 11 values whose compressed forms take 8 bytes each. *)
Definition walk_frame_a : list Z := 15 :: repeat 0 10%nat.
Definition walk_frame_b : list Z := repeat 0 10%nat ++ [-9].

Definition two_frames (ndebug : bool) : outcome Terse :=
  t <- block_size Terse_empty 11 ;;
  t <- push_back_frame ndebug int16_t t walk_frame_a Signed ;;
  push_back_frame ndebug int16_t t walk_frame_b Signed.

Definition put_attribute (name value : string) (os : list Z) : list Z :=
  put quote (put value (put quote (put "=" (put name (put " " os))))).

(** The file of a container as an older writer leaves it: the header has no
    [memory_sizes_of_frames], the frames follow each other. *)
Definition write_without_frame_sizes (t : Terse) : list Z :=
  let os := put "<Terse" [] in
  let os := put_attribute "prolix_bits" (decimal (Z.to_nat (d_prolix_bits t))) os in
  let os := put_attribute "signed" (if d_signed t then "1" else "0") os in
  let os := put_attribute "block" (decimal (d_block t)) os in
  let os := put_attribute "number_of_values" (decimal (size t)) os in
  let os := put_attribute "number_of_frames" (decimal (number_of_frames t)) os in
  let os := put_attribute "memory_size" (decimal (terse_size t)) os in
  fold_left (fun os frame => os ++ frame) (d_terse_frames t) (put "/>" os).

(** An unsigned 16-bit frame whose first block holds the overload value
    [2^16 - 1]. *)
Definition overload_frame : list Z :=
  [65535; 2; 0; 0; 0; 0; 0; 0; 0; 0; 0] ++ repeat 0 11%nat.

(** The container [overload_frame] is compressed into, and the states of the
    queue while its first block is decoded. *)
Definition overload_terse : Terse :=
  {| d_terse_frames := [[248; 255; 251; 6; 113; 85; 85; 0]]; d_signed := false;
     d_small := false; d_block := 11; d_size := 22; d_prolix_bits := 16;
     d_dim := []; d_metadata := [Chars EmptyString] |}.

Definition overload_queue (buffer buffered_bits : Z) : Bitqueue_pop :=
  {| pp_mem := [248; 255; 251; 6; 113; 85; 85; 0]; pp_data := 0;
     pp_buffer := buffer; pp_buffered_bits := buffered_bits |}.

(** Queues on a word whose first two bits are 1, 0 and 0, 1. *)
Definition delta_queue (first_byte buffer buffered_bits : Z) : Bitqueue_pop :=
  {| pp_mem := [first_byte; 0; 0; 0; 0; 0; 0; 0]; pp_data := 0;
     pp_buffer := buffer; pp_buffered_bits := buffered_bits |}.

(** Scenario S5: two frames of shape (4,4) filled with the frame index, with
    the metadata strings "first" and "second-meta". *)
Definition S5 (ndebug : bool) (T : int_type) : outcome Terse :=
  let t := dim Terse_empty [4; 4]%nat in
  t <- push_back_frame ndebug T t (repeat 0 16%nat) Default ;;
  t <- push_back_frame ndebug T t (repeat 1 16%nat) Default ;;
  t <- set_metadata ndebug t 0 "first" ;;
  set_metadata ndebug t 1 "second-meta".

(** A container that holds one compressed frame. *)
Definition one_frame : Terse :=
  {| d_terse_frames := [[1]]; d_signed := true; d_small := false; d_block := 12;
     d_size := 12; d_prolix_bits := 16; d_dim := []; d_metadata := [Chars EmptyString] |}.

(** * The bit stream and the container, as the proofs see them *)

(** Every frame has its metadata string. *)
Definition aligned (t : Terse) : Prop :=
  length (d_metadata t) = number_of_frames t.


(** Two containers whose decoders see the same settings. *)
Definition same_settings (t1 t2 : Terse) : Prop :=
  d_size t1 = d_size t2 /\ d_block t1 = d_block t2 /\
  d_prolix_bits t1 = d_prolix_bits t2 /\ d_signed t1 = d_signed t2.


(** The place of frame [i] after an insertion or before an erasure at
    [pos]. *)
Definition shifted (pos i : nat) : nat := if (i <? pos)%nat then i else S i.

Definition is_byte (b : Z) : Prop := 0 <= b < 256.

(** The number of bits a push queue has taken, and the bits themselves as
    one number: bit [i] of the stream is bit [i] of the number. *)
Definition pushed_bits (q : Bitqueue_push_back) : Z :=
  8 * Z.of_nat (length (pb_mem q)) + pb_buffered_bits q.

Definition pushed_value (q : Bitqueue_push_back) : Z :=
  bytes_word (pb_mem q) + pb_buffer q * 2 ^ (8 * Z.of_nat (length (pb_mem q))).

(** The state between two calls of [push_back]: whole words behind, fewer
    than 64 bits in the scratch word and nothing above them. *)
Definition push_wf (q : Bitqueue_push_back) : Prop :=
  Forall is_byte (pb_mem q) /\ (length (pb_mem q) mod 8 = 0)%nat /\
  0 <= pb_buffered_bits q < 64 /\ 0 <= pb_buffer q < 2 ^ pb_buffered_bits q.

(** [q'] is [q] after [w] more bits of value [x]. *)
Definition appended (q q' : Bitqueue_push_back) (w x : Z) : Prop :=
  push_wf q' /\ pushed_bits q' = pushed_bits q + w /\
  pushed_value q' = pushed_value q + x * 2 ^ pushed_bits q.

(** [q'] holds the bits of [q] and possibly more behind them. *)
Definition extends (q q' : Bitqueue_push_back) : Prop :=
  push_wf q' /\ pushed_bits q <= pushed_bits q' /\
  pushed_value q' mod 2 ^ pushed_bits q = pushed_value q.

(** The value of type [T] that [B] bits of the stream stand for: two's
    complement of width [B] for a signed [T]. *)
Definition bits_value (T : int_type) (B x : Z) : Z :=
  if tsigned T then wrap_signed B x else x.

(** A value of [T] that [B] bits can carry. *)
Definition fits (T : int_type) (B v : Z) : Prop :=
  if tsigned T then - 2 ^ (B - 1) <= v < 2 ^ (B - 1) else 0 <= v < 2 ^ B.

(** The bits a pop queue has not handed out yet, as one number, and how
    many of them lie inside the container. *)
Definition unread (q : Bitqueue_pop) : Z :=
  bytes_word (skipn (pp_data q) (pp_mem q)) / 2 ^ (64 - pp_buffered_bits q).

Definition unread_bits (q : Bitqueue_pop) : Z :=
  8 * (Z.of_nat (length (pp_mem q)) - Z.of_nat (pp_data q)) - (64 - pp_buffered_bits q).

(** The state between two calls of [pop]: the scratch word holds what is
    left of the word at [d_data]. *)
Definition pop_wf (q : Bitqueue_pop) : Prop :=
  Forall is_byte (pp_mem q) /\ (length (pp_mem q) mod 8 = 0)%nat /\
  (pp_data q mod 8 = 0)%nat /\ (pp_data q + 8 <= length (pp_mem q))%nat /\
  0 <= pp_buffered_bits q <= 64 /\
  pp_buffer q =
    bytes_word (firstn 8 (skipn (pp_data q) (pp_mem q))) / 2 ^ (64 - pp_buffered_bits q).

(** Fields of [B] bits laid one after the other, the first in the lowest
    bits. *)
Definition packed (B : Z) (xs : list Z) : Z :=
  fold_right (fun x acc => x + 2 ^ B * acc) 0 xs.

(** The header [PUSH_BITS] writes: its width and its bits. *)
Definition header_bits (prevbits bits : Z) : Z :=
  if prevbits =? bits then 1 else if bits <? 7 then 4 else if bits <? 10 then 6 else 12.

Definition header_value (prevbits bits : Z) : Z :=
  if prevbits =? bits then 1
  else if bits <? 7 then 2 * bits
  else if bits <? 10 then 14 + 16 * (bits - 7)
  else 62 + 64 * (bits - 10).

(** The header [f_compress_weak_block] writes: its width and its bits. *)
Definition weak_header_bits (T : int_type) (prevmax maxval : Z) : Z :=
  if (prevmax =? 0) && (maxval =? 0) then 1
  else if prevmax =? maxval then 2
  else if cast (promote T) (prevmax + 1) =? maxval then 2
  else if negb (maxval =? 6) && (cast (promote T) (prevmax - 1) =? maxval) then 2
  else if (prevmax =? 6) && (maxval =? 4) then 2
  else 5.

Definition weak_header_value (T : int_type) (prevmax maxval : Z) : Z :=
  if (prevmax =? 0) && (maxval =? 0) then 1
  else if prevmax =? maxval then 3
  else if cast (promote T) (prevmax + 1) =? maxval then 2
  else if negb (maxval =? 6) && (cast (promote T) (prevmax - 1) =? maxval) then 1
  else if (prevmax =? 6) && (maxval =? 4) then 2
  else 4 * maxval.

(** The header [f_compress_strong_block] writes. *)
Definition strong_header_bits (prevbits bits : Z) : Z :=
  if prevbits =? bits then 2
  else if to_size_t (prevbits + 1) =? bits then 2
  else if to_size_t (prevbits - 1) =? bits then 2
  else if bits <? 10 then 8 else if bits <? 17 then 11 else 17.

Definition strong_header_value (prevbits bits : Z) : Z :=
  if prevbits =? bits then 3
  else if to_size_t (prevbits + 1) =? bits then 2
  else if to_size_t (prevbits - 1) =? bits then 1
  else if bits <? 10 then 28 + 32 * (bits - 3)
  else if bits <? 17 then 252 + 256 * (bits - 10)
  else 2044 + 2048 * (bits - 17).

(** The decoder of the strong path follows the encoder: its width is the
    encoder's, and its maximum has moved with the width since the last
    literal header. *)
Definition strong_synced (T : int_type) (prevbits dmax dbits : Z) : Prop :=
  dbits = prevbits /\ 3 <= dbits < tbits T /\
  numeric_max T / 2 - tbits T < dmax - dbits <= numeric_max T / 2 - 3.

(** The values of a weak block as [f_compress_weak_block] writes them: none
    for the maximum 0, one or two bits each for the maxima 1 and 3, and one
    radix-packed number otherwise. *)
Definition weak_payload_bits (maxval : Z) (bl : list Z) : Z :=
  if maxval =? 0 then 0
  else if maxval =? 1 then 1 * Z.of_nat (length bl)
  else if maxval =? 3 then 2 * Z.of_nat (length bl)
  else weak_radix_bits maxval bl.

Definition weak_payload_value (maxval : Z) (bl : list Z) : Z :=
  if maxval =? 0 then 0
  else if maxval =? 1 then packed 1 bl
  else if maxval =? 3 then packed 2 bl
  else snd (radix_pack maxval bl).

(** The decoder of mode [Small_unsigned] follows the encoder: after a weak
    block it holds the encoder's maximum, after a strong block its width. *)
Definition small_synced (T : int_type) (s : small_state) (dmax dbits : Z) : Prop :=
  ((ss_prevbits s = 0 \/ ss_prevbits s = 65) /\ dmax = ss_prevmax s /\ 0 <= dmax < 7)
  \/ (strong_synced T (ss_prevbits s) dmax dbits /\ ss_prevmax s = numeric_max T / 2).

(** The first 18 bits of a frame are one of the two mode prefixes. *)
Definition opens_with_prefix (frame : list Z) : bool :=
  (bytes_word frame mod 2 ^ 18 =? 262136) || (bytes_word frame mod 2 ^ 18 =? 262140).



(** The empty container with block size 11, and the container that holds
    [walk_frame_a] compressed. *)
Definition walk_empty : Terse :=
  {| d_terse_frames := []; d_signed := false; d_small := false; d_block := 11;
     d_size := 0; d_prolix_bits := 0; d_dim := []; d_metadata := [] |}.

Definition walk_terse : Terse :=
  {| d_terse_frames := [[250; 0; 0; 0; 0; 0; 0; 0]]; d_signed := true; d_small := false;
     d_block := 11; d_size := 11; d_prolix_bits := 16; d_dim := [];
     d_metadata := [Chars EmptyString] |}.

(** [walk_terse] with itself inserted behind its frame. *)
Definition walk_twice : Terse :=
  {| d_terse_frames := [[250; 0; 0; 0; 0; 0; 0; 0]; [250; 0; 0; 0; 0; 0; 0; 0]];
     d_signed := true; d_small := false; d_block := 11; d_size := 11;
     d_prolix_bits := 16; d_dim := [];
     d_metadata := [Chars EmptyString; Chars EmptyString] |}.

(** A frame of two blocks of 11 values: a weak block of maximum 1 and a
    strong block of 8 bits. *)
Definition small_frame : list Z :=
  [1; 0; 0; 1; 1; 0; 0; 0; 1; 0; 1] ++ [200; 0; 17; 0; 0; 3; 0; 0; 128; 0; 0].

(** Extensionality along the bindings of a loop body: [lem] is the
    extensionality lemma of [obind], [IH] the induction hypothesis. *)
Ltac ext_step lem IH :=
  repeat first
    [ reflexivity
    | apply IH
    | apply lem; intros
    | match goal with
      | |- context [match ?x with _ => _ end] => destruct x
      end ].

(** One step of a proof along the bindings of a computation: [lem] is the
    inversion lemma of [obind]. *)
Ltac bind_inv lem H :=
  let a := fresh "a" in
  let Ha := fresh "Hc" in
  apply lem in H; destruct H as [a [Ha H]].

(** One pop of a header field: [lem] is the lemma of the pop, [x] the field
    and [rest'] what follows it. *)
Ltac pop_step lem ndebug B q x rest' Hq HU Hav q1 :=
  let Hp := fresh "Hp" in
  let Hwf := fresh "Hwf" in
  let Hun := fresh "Hun" in
  let Hb := fresh "Hb" in
  let Hm := fresh "Hm" in
  destruct (lem ndebug uint8_t B q x rest' Hq
              ltac:(cbn [tbits uint8_t]; lia) ltac:(cbn [tbits uint8_t]; lia)
              ltac:(lia) ltac:(lia) ltac:(rewrite HU; lia))
    as (q1 & Hp & Hwf & Hun & Hb & Hm);
  rewrite Hp; cbn [obind]; unfold bits_value; cbn [tsigned uint8_t].

Ltac conj := repeat match goal with |- _ /\ _ => split end.
Ltac evaluate := conj; vm_compute; reflexivity.

(** * Arithmetic of widths *)

Lemma bit_length_nonneg s : 0 <= bit_length s.
Proof.
  unfold bit_length. destruct (s =? 0); [lia|].
  pose proof (Z.log2_nonneg s). lia.
Qed.

Lemma log2_half s : 2 <= s -> Z.log2 s = Z.log2 (s / 2) + 1.
Proof.
  intros Hs.
  assert (H1 : 0 < s / 2) by (apply Z.div_str_pos; lia).
  pose proof (Z.log2_spec (s / 2) H1) as [Hlo Hhi].
  pose proof (Z.log2_nonneg (s / 2)) as Hn.
  apply Z.log2_unique; [lia|].
  replace (Z.succ (Z.log2 (s / 2) + 1)) with (Z.succ (Z.succ (Z.log2 (s / 2)))) by lia.
  rewrite Z.pow_succ_r in Hhi by lia.
  rewrite !Z.pow_succ_r by lia. rewrite Z.pow_add_r by lia. change (2 ^ 1) with 2.
  pose proof (Z.div_mod s 2 ltac:(lia)). pose proof (Z.mod_pos_bound s 2 ltac:(lia)).
  lia.
Qed.

(** The counting loop returns the bit length of the word. *)
Lemma msb_loop_spec fuel : forall s r,
  0 <= s < 2 ^ Z.of_nat fuel -> msb_loop fuel s r = r + bit_length s.
Proof.
  induction fuel as [|k IH]; intros s r Hs.
  - simpl in *. assert (s = 0) by lia. subst. unfold bit_length. simpl. lia.
  - cbn [msb_loop]. unfold bit_length. destruct (Z.eqb_spec s 0) as [->|Hne]; [lia|].
    rewrite Z.shiftr_div_pow2 by lia. change (2 ^ 1) with 2.
    rewrite Nat2Z.inj_succ, Z.pow_succ_r in Hs by lia.
    rewrite IH by (split; [apply Z.div_pos; lia | apply Z.div_lt_upper_bound; lia]).
    unfold bit_length. destruct (Z.eqb_spec (s / 2) 0) as [H0|H0].
    + assert (s = 1)
        by (pose proof (Z.div_mod s 2); pose proof (Z.mod_pos_bound s 2); lia).
      subst. change (Z.log2 1) with 0. lia.
    + assert (2 <= s).
      { destruct (Z.eq_dec s 1) as [->|]; [exfalso; apply H0; reflexivity | lia]. }
      rewrite (log2_half s) by lia. lia.
Qed.

Lemma bit_length_lor a b : 0 <= a -> 0 <= b ->
  bit_length (Z.lor a b) = Z.max (bit_length a) (bit_length b).
Proof.
  intros Ha Hb. unfold bit_length.
  destruct (Z.eqb_spec a 0) as [->|Hna].
  { rewrite Z.lor_0_l. destruct (Z.eqb_spec b 0); [lia|].
    pose proof (Z.log2_nonneg b). lia. }
  destruct (Z.eqb_spec b 0) as [->|Hnb].
  { rewrite Z.lor_0_r. destruct (Z.eqb_spec a 0); [lia|].
    pose proof (Z.log2_nonneg a). lia. }
  destruct (Z.eqb_spec (Z.lor a b) 0) as [H0|H0].
  { apply Z.lor_eq_0_iff in H0. lia. }
  rewrite Z.log2_lor by lia. lia.
Qed.

Lemma lor_bound a b n :
  0 <= n -> 0 <= a < 2 ^ n -> 0 <= b < 2 ^ n -> 0 <= Z.lor a b < 2 ^ n.
Proof.
  intros Hn Ha Hb. split; [apply Z.lor_nonneg; lia|].
  destruct (Z.eq_dec (Z.lor a b) 0) as [->|Hne]; [lia|].
  apply Z.log2_lt_pow2; [pose proof (Z.lor_nonneg a b); lia|].
  rewrite Z.log2_lor by lia.
  destruct (Z.eq_dec a 0) as [->|]; destruct (Z.eq_dec b 0) as [->|];
    try (rewrite ?Z.lor_0_l, ?Z.lor_0_r in Hne; lia).
  - simpl. rewrite Z.max_r by apply Z.log2_nonneg. apply Z.log2_lt_pow2; lia.
  - change (Z.log2 0) with 0. rewrite Z.max_l by apply Z.log2_nonneg.
    apply Z.log2_lt_pow2; lia.
  - apply Z.max_lub_lt; apply Z.log2_lt_pow2; lia.
Qed.

Lemma bit_length_double a : 0 < a -> bit_length (2 * a) = Z.log2 a + 2.
Proof.
  intros Ha. unfold bit_length. destruct (Z.eqb_spec (2 * a) 0); [lia|].
  rewrite Z.log2_double by lia. lia.
Qed.

Lemma bit_length_top x : 2 ^ 63 <= x < 2 ^ 64 -> bit_length x = 64.
Proof.
  intros Hx. unfold bit_length. destruct (Z.eqb_spec x 0); [lia|].
  rewrite (Z.log2_unique x 63); lia.
Qed.

Lemma wrap_signed_small w x :
  0 < w -> - 2 ^ (w - 1) <= x < 2 ^ (w - 1) -> wrap_signed w x = x.
Proof.
  intros Hw Hx. unfold wrap_signed.
  assert (2 ^ w = 2 * 2 ^ (w - 1)) by (rewrite <- Z.pow_succ_r by lia; f_equal; lia).
  rewrite Z.mod_small by lia. lia.
Qed.

Lemma wrap_signed_high w x :
  0 < w -> 2 ^ (w - 1) <= x < 2 ^ w -> wrap_signed w x = x - 2 ^ w.
Proof.
  intros Hw Hx. unfold wrap_signed.
  assert (E : 2 ^ w = 2 * 2 ^ (w - 1))
    by (rewrite <- Z.pow_succ_r by lia; f_equal; lia).
  replace (x + 2 ^ (w - 1)) with ((x - 2 ^ (w - 1)) + 1 * 2 ^ w) by lia.
  rewrite Z.mod_add by lia. rewrite Z.mod_small by lia. lia.
Qed.

Lemma cast_in_range T x : 0 < tbits T -> in_range T x -> cast T x = x.
Proof.
  unfold in_range, numeric_min, numeric_max, cast. intros Hw Hx.
  destruct (tsigned T).
  - apply wrap_signed_small; lia.
  - unfold wrap_unsigned. apply Z.mod_small. lia.
Qed.

Lemma list_max_nonneg l : 0 <= list_max l.
Proof.
  induction l as [|y r IH]; cbn [list_max fold_right]; [lia|].
  fold (list_max r). lia.
Qed.

Lemma list_max_ge l x : In x l -> x <= list_max l.
Proof.
  induction l as [|y r IH]; cbn [In list_max fold_right]; [tauto|].
  fold (list_max r). intros [->|H]; [lia|]. specialize (IH H). lia.
Qed.

Lemma list_max_le l b : 0 <= b -> (forall x, In x l -> x <= b) -> list_max l <= b.
Proof.
  intros Hb. induction l as [|y r IH]; cbn [In list_max fold_right]; intros H; [lia|].
  fold (list_max r). apply Z.max_lub; [apply H; auto | apply IH; intros; apply H; auto].
Qed.

Lemma min_list_max P l : 0 <= P ->
  Z.min (list_max l) P = list_max (map (fun x => Z.min x P) l).
Proof.
  intros HP. induction l as [|x r IH]; cbn [list_max fold_right map]; [lia|].
  fold (list_max r). fold (list_max (map (fun x0 => Z.min x0 P) r)). lia.
Qed.

Lemma magnitude_width_zero v : magnitude_width v <= 0 -> v = 0.
Proof.
  unfold magnitude_width. destruct (Z.eqb_spec v 0); [auto|].
  destruct (Z.eqb_spec v (-1)); [lia|]. pose proof (Z.log2_nonneg (Z.abs v)). lia.
Qed.

Lemma magnitude_width_fits v w :
  0 < w -> magnitude_width v <= w -> - 2 ^ (w - 1) <= v < 2 ^ (w - 1).
Proof.
  intros Hw. unfold magnitude_width.
  assert (Hp : 1 <= 2 ^ (w - 1)) by (apply (Z.pow_le_mono_r 2 0 (w - 1)); lia).
  destruct (Z.eqb_spec v 0); [lia|]. destruct (Z.eqb_spec v (-1)); [lia|].
  intros Hl. assert (Ha : 0 < Z.abs v) by lia.
  pose proof (Z.log2_spec (Z.abs v) Ha) as [_ Hhi].
  assert (2 ^ Z.succ (Z.log2 (Z.abs v)) <= 2 ^ (w - 1)) by (apply Z.pow_le_mono_r; lia).
  lia.
Qed.

Lemma fits_magnitude_width v w :
  fits_twos_complement w v -> magnitude_width v <= w + 1.
Proof.
  unfold fits_twos_complement, magnitude_width.
  intros [[-> ->] | [Hw Hv]]; [cbn; lia|].
  destruct (Z.eqb_spec v 0); [lia|]. destruct (Z.eqb_spec v (-1)); [lia|].
  assert (Ha : 0 < Z.abs v) by lia.
  assert (2 ^ w = 2 * 2 ^ (w - 1)) by (rewrite <- Z.pow_succ_r by lia; f_equal; lia).
  assert (Hlt : Z.abs v < 2 ^ w) by lia.
  apply Z.log2_lt_pow2 in Hlt; lia.
Qed.

(** * [f_most_significant_bit] on signed blocks *)

(** What one value contributes to [setbits]: capped at the width of [T], its
    bit length is the magnitude width of the value. *)
Lemma setbits_of_width T v :
  supported_signed T -> abs_defined T v ->
  0 <= setbits_of T v < 2 ^ 64 /\
  Z.min (bit_length (setbits_of T v)) (tbits T) = Z.min (magnitude_width v) (tbits T).
Proof.
  intros [Hs Hw] [Hr Hm]. destruct T as [w sg]. cbn [tbits tsigned] in *. subst sg.
  unfold setbits_of, signed_setbits, magnitude_width. cbn [tsigned tbits].
  unfold in_range, numeric_min, numeric_max in *. cbn [tsigned tbits] in *.
  destruct (Z.eqb_spec v (-1)) as [->|Hv1].
  { cbn. split; [lia|]. reflexivity. }
  destruct (Z.eqb_spec v 0) as [->|Hv0].
  { cbn [Z.abs]. unfold promote, cast. cbn [tbits tsigned].
    destruct (w <? 32); cbn [tbits tsigned]; rewrite ?Z.shiftl_0_l;
    destruct Hw as [-> | [-> | [-> | ->]]]; cbn; split; try lia; reflexivity. }
  assert (Ha : 0 < Z.abs v) by lia.
  rewrite Z.shiftl_mul_pow2 by lia. change (2 ^ 1) with 2.
  unfold to_size_t, wrap_unsigned.
  destruct Hw as [-> | [-> | [-> | ->]]]; unfold promote, cast;
    cbn [tbits tsigned Z.ltb Z.compare Pos.compare Pos.compare_cont int_ int32_t].
  - change (2 ^ (8 - 1)) with 128 in Hr.
    rewrite (wrap_signed_small 32 (Z.abs v))
      by (change (2 ^ (32 - 1)) with 2147483648; lia).
    rewrite (wrap_signed_small 32) by (change (2 ^ (32 - 1)) with 2147483648; lia).
    rewrite Z.mod_small by lia.
    rewrite Z.mul_comm, bit_length_double by lia. split; [lia | reflexivity].
  - change (2 ^ (16 - 1)) with 32768 in Hr.
    rewrite (wrap_signed_small 32 (Z.abs v))
      by (change (2 ^ (32 - 1)) with 2147483648; lia).
    rewrite (wrap_signed_small 32) by (change (2 ^ (32 - 1)) with 2147483648; lia).
    rewrite Z.mod_small by lia.
    rewrite Z.mul_comm, bit_length_double by lia. split; [lia | reflexivity].
  - specialize (Hm ltac:(lia)). change (2 ^ (32 - 1)) with 2147483648 in *.
    rewrite (wrap_signed_small 32 (Z.abs v))
      by (change (2 ^ (32 - 1)) with 2147483648; lia).
    destruct (Z.lt_ge_cases (Z.abs v * 2) 2147483648) as [Hlt|Hge].
    + rewrite (wrap_signed_small 32) by (change (2 ^ (32 - 1)) with 2147483648; lia).
      rewrite Z.mod_small by lia.
      rewrite Z.mul_comm, bit_length_double by lia. split; [lia | reflexivity].
    + rewrite (wrap_signed_high 32)
        by (change (2 ^ (32 - 1)) with 2147483648; change (2 ^ 32) with 4294967296; lia).
      change (2 ^ 32) with 4294967296.
      replace (Z.abs v * 2 - 4294967296)
        with ((Z.abs v * 2 - 4294967296 + 2 ^ 64) + (-1) * 2 ^ 64) by lia.
      rewrite Z.mod_add by lia. rewrite Z.mod_small by lia.
      split; [lia|].
      rewrite bit_length_top by lia.
      assert (30 <= Z.log2 (Z.abs v)) by (apply Z.log2_le_pow2; lia). lia.
  - specialize (Hm ltac:(lia)). change (2 ^ (64 - 1)) with 9223372036854775808 in *.
    rewrite (wrap_signed_small 64 (Z.abs v))
      by (change (2 ^ (64 - 1)) with 9223372036854775808; lia).
    destruct (Z.lt_ge_cases (Z.abs v * 2) 9223372036854775808) as [Hlt|Hge].
    + rewrite (wrap_signed_small 64)
        by (change (2 ^ (64 - 1)) with 9223372036854775808; lia).
      rewrite Z.mod_small by lia.
      rewrite Z.mul_comm, bit_length_double by lia. split; [lia | reflexivity].
    + rewrite (wrap_signed_high 64)
        by (change (2 ^ (64 - 1)) with 9223372036854775808; lia).
      replace (Z.abs v * 2 - 2 ^ 64) with (Z.abs v * 2 + (-1) * 2 ^ 64) by lia.
      rewrite Z.mod_add by lia. rewrite Z.mod_small by lia.
      rewrite Z.mul_comm, bit_length_double by lia. split; [lia | reflexivity].
Qed.

(** The or-loop keeps the word below [2^64] and its bit length is the
    largest bit length met. *)
Lemma fold_lor_bit_length T values : forall acc,
  0 <= acc < 2 ^ 64 ->
  Forall (fun v => 0 <= setbits_of T v < 2 ^ 64) values ->
  let s := fold_left (fun acc val => Z.lor acc (setbits_of T val)) values acc in
  0 <= s < 2 ^ 64 /\
  bit_length s =
    Z.max (bit_length acc) (list_max (map (fun v => bit_length (setbits_of T v)) values)).
Proof.
  induction values as [|v r IH]; intros acc Hacc Hall;
    cbn [fold_left map list_max fold_right].
  - split; [assumption|]. pose proof (bit_length_nonneg acc). lia.
  - inversion Hall as [|? ? Hv Hr]; subst.
    destruct (IH (Z.lor acc (setbits_of T v)) (lor_bound _ _ 64 ltac:(lia) Hacc Hv) Hr)
      as [Hb He].
    split; [exact Hb|]. rewrite He, bit_length_lor by lia.
    fold (list_max (map (fun v0 => bit_length (setbits_of T v0)) r)). lia.
Qed.

Lemma f_most_significant_bit_signed T values :
  supported_signed T -> Forall (abs_defined T) values ->
  f_most_significant_bit T values =
    Z.min (list_max (map magnitude_width values)) (tbits T).
Proof.
  intros HT Hall. unfold f_most_significant_bit.
  assert (HP : 0 <= tbits T) by (destruct HT as [_ [-> | [-> | [-> | ->]]]]; lia).
  assert (Hs : Forall (fun v => 0 <= setbits_of T v < 2 ^ 64) values).
  { eapply Forall_impl; [|exact Hall]. intros v Hv. apply (setbits_of_width T v HT Hv). }
  destruct (fold_lor_bit_length T values 0 ltac:(lia) Hs) as [Hb He].
  rewrite msb_loop_spec by exact Hb. rewrite Z.add_0_l, He.
  change (bit_length 0) with 0.
  rewrite Z.max_r by apply list_max_nonneg.
  rewrite !min_list_max by exact HP. rewrite !map_map. f_equal.
  apply map_ext_in. intros v Hv. rewrite Forall_forall in Hall.
  apply (setbits_of_width T v HT (Hall v Hv)).
Qed.

(** * The claims *)

(** C1 (round trip; the code departs from it). A signed 16-bit frame is
    compressed in mode [Signed] with block size 11. Its first block has
    width 4 and starts with four values -1, so the frame opens with the 18
    bits that [f_prolix] takes for the [Unsigned] prefix, and the frame is
    handed to [f_prolix_unsigned]. With assertions compiled in, the prefix
    is popped and all 15 values come back as 0; with [NDEBUG] the second
    block, whose width is the bit depth, is decoded as a masked block and
    comes back as four times -1. Neither build returns the input. With the
    default block size 12 the [NDEBUG] build fails in the same way, and the
    build with assertions stops in the constructor of [Bitqueue_push_back],
    whose container has 26 bytes. *)
Theorem signed_frame_mistaken_for_unsigned :
  compressed false int16_t 11 Signed colliding_frame =
    Done [[248; 255; 79; 0; 0; 0; 190; 1; 0; 4; 0; 0; 0; 0; 0; 0]] /\
  compressed true int16_t 11 Signed colliding_frame =
    Done [[248; 255; 79; 0; 0; 0; 190; 1; 0; 4; 0; 0; 0; 0; 0; 0]] /\
  (q <- pop_ctor false [248; 255; 79; 0; 0; 0; 190; 1; 0; 4; 0; 0; 0; 0; 0; 0] ;;
   '(flag, _) <- pop false size_t 18 q ;; Done flag) = Done 262136 /\
  roundtrip false int16_t 11 Signed colliding_frame = Done (repeat 0 15%nat) /\
  roundtrip true int16_t 11 Signed colliding_frame =
    Done [-1; -1; -1; -1; 4; 0; 0; 0; 0; 0; 0; -1; -1; -1; -1] /\
  roundtrip true int16_t 12 Signed colliding_frame_12 =
    Done [-1; -1; -1; -1; 4; 0; 0; 0; 0; 0; 0; 0; -1; -1; -1; -1] /\
  roundtrip false int16_t 12 Signed colliding_frame_12 = AssertFail.
Proof. evaluate. Qed.

(** C2 (padding; the code departs from it). In each of the three modes a
    frame of 11 zeros is compressed to a vector whose length is the number
    of bits written rounded up to whole bytes, 1 or 3 bytes, not to a
    multiple of 8: the final [resize] takes
    [d_data + (d_buffered_bits + 7) / 8]. [Bitqueue_pop], which reads the
    frame back, asserts that its size is a multiple of 8. *)
Theorem compressed_length_not_padded ndebug :
  compressed ndebug int16_t 11 Signed (repeat 0 11%nat) = Done [[1]] /\
  compressed ndebug uint16_t 11 Unsigned (repeat 0 11%nat) = Done [[248; 255; 7]] /\
  compressed ndebug uint16_t 11 Small_unsigned (repeat 0 11%nat) = Done [[252; 255; 7]] /\
  (length [1] mod 8 = 1)%nat /\ (length [248; 255; 7] mod 8 = 3)%nat.
Proof. destruct ndebug; evaluate. Qed.

(** C3 (header walk; the code departs from it). A container holds two
    frames of 8 compressed bytes each. [write] records the lengths 8 and 8,
    and reading that stream back finds them. From the same container written
    without [memory_sizes_of_frames], [f_fill_terse_frames] recovers the
    lengths 1 and 0: [skip] leaves the byte pointer in place,
    [operator-] counts the bits left in the scratch word, and every frame
    is walked from the start of the blob. *)
Theorem header_walk_loses_frames ndebug :
  (t <- two_frames ndebug ;; t' <- reread ndebug t ;;
   Done (frame_sizes t, frame_sizes t')) = Done ([8; 8]%nat, [8; 8]%nat) /\
  (t <- two_frames ndebug ;;
   '(t', _) <- Terse_read ndebug (write_without_frame_sizes t) ;;
   Done (frame_sizes t')) = Done [1; 0]%nat.
Proof. destruct ndebug; evaluate. Qed.

(** C4 (amended). In [f_prolix_unsigned], a block whose header width is
    [d_prolix_bits] is followed by a second header, the payload is popped
    with that width, and each value [v] is stored as [v - 1] in the element
    type of the output. The subtraction wraps: the payload 0, which is what
    [2^P - 1] was shifted to, comes back as [2^P - 1] in an unsigned type of
    [P] bits and as -1 in a signed type. *)
Theorem unsigned_masked_block_wraps
  k ndebug T t from sb mb q out sb' q1 mb' q2 values q3 :
  (from < d_size t)%nat ->
  BITS ndebug sb q = Done (sb', q1) ->
  sb' = d_prolix_bits t ->
  BITS ndebug mb q1 = Done (mb', q2) ->
  POP ndebug T mb' (Nat.min (d_size t) (from + d_block t) - from) q2
    = Done (values, q3) ->
  prolix_unsigned_loop (S k) ndebug T t from sb mb q out =
    prolix_unsigned_loop k ndebug T t (from + d_block t) sb' mb' q3
      (out ++ map (fun v => cast T (v - 1)) values) /\
  (tsigned T = false -> cast T (0 - 1) = 2 ^ tbits T - 1) /\
  (tsigned T = true -> 0 < tbits T -> cast T (0 - 1) = -1).
Proof.
  intros Hfrom H1 Hsb H2 H3. split; [|split].
  - cbn [prolix_unsigned_loop]. apply Nat.ltb_lt in Hfrom. rewrite Hfrom.
    rewrite H1. cbn [obind]. subst sb'. rewrite Z.eqb_refl. cbn [negb].
    rewrite H2. cbn [obind]. rewrite H3. cbn [obind]. reflexivity.
  - intros Hs. unfold cast, wrap_unsigned. rewrite Hs.
    destruct (Z.le_gt_cases 0 (tbits T)) as [Hw|Hw].
    + assert (0 < 2 ^ tbits T) by (apply Z.pow_pos_nonneg; lia).
      replace (0 - 1) with ((2 ^ tbits T - 1) + (-1) * 2 ^ tbits T) by lia.
      rewrite Z.mod_add by lia. apply Z.mod_small. lia.
    + rewrite Z.pow_neg_r by lia. rewrite Z.mod_0_r. lia.
  - intros Hs Hw. unfold cast. rewrite Hs. unfold wrap_signed.
    assert (0 < 2 ^ (tbits T - 1)) by (apply Z.pow_pos_nonneg; lia).
    assert (2 ^ tbits T = 2 * 2 ^ (tbits T - 1))
      by (rewrite <- Z.pow_succ_r by lia; f_equal; lia).
    rewrite Z.mod_small by lia. lia.
Qed.

(** The first block of [overload_frame]: header 16, masked header 2, payload
    0, 3, 1, ..., 1, stored as 65535, 2, 0, ..., 0. *)
Lemma unsigned_masked_block_wraps_witness :
  prolix_unsigned_loop 22 false uint16_t overload_terse 0 0 0
    (overload_queue 91626422718 46) [] =
  prolix_unsigned_loop 21 false uint16_t overload_terse 11 16 2 (overload_queue 0 8)
    [65535; 2; 0; 0; 0; 0; 0; 0; 0; 0; 0].
Proof.
  apply (unsigned_masked_block_wraps 21 false uint16_t overload_terse 0 0 0
           (overload_queue 91626422718 46) [] 16 (overload_queue 22369732 34)
           2 (overload_queue 1398108 30) [0; 3; 1; 1; 1; 1; 1; 1; 1; 1; 1]
           (overload_queue 0 8));
    try reflexivity.
  cbn. lia.
Defined.

(** C4 as stated fails: the pixel 65535 of [overload_frame] is compressed as
    part of a masked block and decompressed as 65535, not as 0. *)
Lemma overload_pixel_is_restored :
  compressed false uint16_t 11 Unsigned overload_frame
    = Done (d_terse_frames overload_terse) /\
  roundtrip false uint16_t 11 Unsigned overload_frame = Done overload_frame /\
  nth 0 overload_frame 0 = 2 ^ 16 - 1 /\
  (r <- roundtrip false uint16_t 11 Unsigned overload_frame ;; Done (nth 0 r 0))
    <> Done 0.
Proof.
  split; [vm_compute; reflexivity|]. split; [vm_compute; reflexivity|].
  split; [reflexivity|]. vm_compute. intros H. discriminate H.
Qed.

(** C5 (partial last block; the code departs from it). For the last block
    of [partial_block_frame], one value with maximum 2, the encoder writes
    the radix-3 integer with the width of [3^1 - 1], 2 bits, and the decoder
    pops it with the width of [3^6 - 1], 10 bits, computed from the block
    size. The frame has 57 bits in 8 bytes, and the pop runs past its end. *)
Theorem radix_width_of_last_block :
  weak_radix_bits 2 [2] = 2 /\
  prolix_radix_bits 2 6 = Done 10 /\
  compressed false uint8_t 6 Small_unsigned partial_block_frame =
    Done [[252; 255; 243; 32; 0; 0; 32; 1]] /\
  roundtrip false uint8_t 6 Small_unsigned partial_block_frame = Undefined.
Proof. evaluate. Qed.

(** C6 (amended). For a block of a signed element type of 8, 16, 32 or 64
    bits in which the most negative value of a 32- or 64-bit type does not
    occur ([std::abs] is not defined on it), the width chosen by
    [f_most_significant_bit] is the largest magnitude width of its values,
    capped at the bit depth: 0 for the value 0, 1 for -1, and the bits of
    [|v|] plus a sign bit for every other value. Every value of the block
    fits in two's complement of that width, the width is 0 exactly when the
    block is all zeros, and it exceeds no width in which the block fits by
    more than one bit. (It is not always the least one.) *)
Theorem signed_width_characterisation T values :
  supported_signed T -> Forall (abs_defined T) values ->
  let w := f_most_significant_bit T values in
  w = Z.min (list_max (map magnitude_width values)) (tbits T) /\
  Forall (fits_twos_complement w) values /\
  (w = 0 <-> Forall (fun v => v = 0) values) /\
  (forall w', 0 <= w' -> Forall (fits_twos_complement w') values -> w <= w' + 1).
Proof.
  intros HT Hall w. subst w. rewrite (f_most_significant_bit_signed T values HT Hall).
  assert (HP : 8 <= tbits T) by (destruct HT as [_ [-> | [-> | [-> | ->]]]]; lia).
  set (M := list_max (map magnitude_width values)).
  assert (HM : forall v, In v values -> magnitude_width v <= M).
  { intros v Hv. apply list_max_ge, in_map, Hv. }
  assert (HM0 : 0 <= M) by apply list_max_nonneg.
  split; [reflexivity|]. split; [|split].
  - rewrite Forall_forall in *. intros v Hv. specialize (HM v Hv).
    destruct (Hall v Hv) as [Hr _]. unfold fits_twos_complement.
    destruct (Z.eq_dec (Z.min M (tbits T)) 0) as [E|E].
    + left. split; [exact E|]. apply magnitude_width_zero. lia.
    + right. split; [lia|].
      destruct (Z.le_gt_cases (tbits T) M) as [Hc|Hc].
      * rewrite Z.min_r by lia. unfold in_range, numeric_min, numeric_max in Hr.
        destruct HT as [Hsg _]. rewrite Hsg in Hr. lia.
      * rewrite Z.min_l by lia. apply magnitude_width_fits; lia.
  - split.
    + intros E. rewrite Forall_forall. intros v Hv. apply magnitude_width_zero.
      specialize (HM v Hv). lia.
    + intros Hz. assert (M <= 0); [|lia].
      apply list_max_le; [lia|]. intros x Hx. apply in_map_iff in Hx.
      destruct Hx as [v [<- Hv]]. rewrite Forall_forall in Hz. rewrite (Hz v Hv).
      cbn. lia.
  - intros w' Hw' Hfit. assert (M <= w' + 1); [|lia].
    apply list_max_le; [lia|]. intros x Hx. apply in_map_iff in Hx.
    destruct Hx as [v [<- Hv]]. rewrite Forall_forall in Hfit.
    apply fits_magnitude_width, Hfit, Hv.
Qed.

(** The block -3, 4, 2 of the header comment of Terse.hpp takes 4 bits. *)
Lemma signed_width_characterisation_witness :
  supported_signed int16_t /\ Forall (abs_defined int16_t) [-3; 4; 2] /\
  f_most_significant_bit int16_t [-3; 4; 2] = 4 /\
  Forall (fits_twos_complement 4) [-3; 4; 2].
Proof.
  assert (HT : supported_signed int16_t)
    by (split; [reflexivity | right; left; reflexivity]).
  assert (Hall : Forall (abs_defined int16_t) [-3; 4; 2]).
  { repeat constructor; cbn; try lia; intros H; discriminate H. }
  pose proof (signed_width_characterisation int16_t [-3; 4; 2] HT Hall) as [Hw [Hf _]].
  split; [exact HT|]. split; [exact Hall|]. split; [reflexivity | exact Hf].
Defined.

(** The value left out: on the most negative value of a 32-bit type the
    magnitude wraps, and the block is given no bit at all. *)
Lemma most_negative_value_gets_no_width :
  f_most_significant_bit int32_t [-2147483648] = 0.
Proof. reflexivity. Qed.

(** C6 as stated fails: the block -2 gets width 3, where two's complement
    of width 2 holds -2 and the formula of the claim gives 2. *)
Lemma signed_width_not_minimal :
  f_most_significant_bit int16_t [-2] = 3 /\
  Z.log2_up (Z.max (Z.abs (-2)) (Z.abs (-2 + 1))) + 1 = 2 /\
  ~ minimal_width [-2] (f_most_significant_bit int16_t [-2]).
Proof.
  split; [reflexivity|]. split; [reflexivity|].
  intros [_ [_ Hmin]].
  assert (Hfit : Forall (fits_twos_complement 2) [-2]).
  { constructor; [|constructor]. right. cbn. lia. }
  specialize (Hmin 2 ltac:(lia) Hfit).
  change (f_most_significant_bit int16_t [-2]) with 3 in Hmin. lia.
Qed.

(** C7 (amended). [f_get_max] on a previous maximum other than 0: when the
    two header bits are 1 then 0 in the order of the stream, the new maximum
    is [prev_max - 1] for every [prev_max], 5 for 6; when they are 0 then 1,
    the new maximum is [prev_max + 1], except that 6 gives 4. The special
    case belongs to the second header. *)
Theorem get_max_two_bit_delta ndebug T q q1 q2 b1 b2 max bits :
  0 < tbits T -> 0 < max <= numeric_max T ->
  pop ndebug uint8_t 1 q = Done (b1, q1) ->
  pop ndebug uint8_t 1 q1 = Done (b2, q2) ->
  (b1 = 1 -> b2 = 0 ->
   f_get_max ndebug T q max bits = Done (q2, max - 1, cast uint8_t (bits - 1))) /\
  (b1 = 0 -> b2 = 1 ->
   f_get_max ndebug T q max bits =
     Done (q2, (if max =? 6 then 4 else cast T (max + 1)), cast uint8_t (bits + 1))).
Proof.
  intros Hw Hmax H1 H2.
  assert (Hne : (max =? 0) = false) by (apply Z.eqb_neq; lia).
  split; intros -> ->; unfold f_get_max; rewrite H1; cbn [obind];
    rewrite ?Hne, ?andb_false_r; cbn [andb Z.eqb]; rewrite H2; cbn.
  - rewrite cast_in_range; [reflexivity | exact Hw |].
    unfold in_range, numeric_min. destruct (tsigned T); [|lia].
    assert (0 < 2 ^ (tbits T - 1)) by (apply Z.pow_pos_nonneg; lia). lia.
  - destruct (Z.eqb_spec max 6) as [->|Hn]; [|reflexivity].
    rewrite cast_in_range; [reflexivity | exact Hw |].
    unfold in_range, numeric_min. change (6 - 2) with 4. destruct (tsigned T); [|lia].
    assert (0 < 2 ^ (tbits T - 1)) by (apply Z.pow_pos_nonneg; lia). lia.
Qed.

(** Both headers at the previous maximum 6. *)
Lemma get_max_two_bit_delta_witness :
  f_get_max false uint8_t (delta_queue 1 1 64) 6 3 = Done (delta_queue 1 0 62, 5, 2) /\
  f_get_max false uint8_t (delta_queue 2 2 64) 6 3 = Done (delta_queue 2 0 62, 4, 4).
Proof.
  split.
  - apply (proj1 (get_max_two_bit_delta false uint8_t (delta_queue 1 1 64)
                    (delta_queue 1 0 63) (delta_queue 1 0 62) 1 0 6 3
                    ltac:(reflexivity) ltac:(cbn; lia) eq_refl eq_refl));
      reflexivity.
  - apply (proj2 (get_max_two_bit_delta false uint8_t (delta_queue 2 2 64)
                    (delta_queue 2 1 63) (delta_queue 2 0 62) 0 1 6 3
                    ltac:(reflexivity) ltac:(cbn; lia) eq_refl eq_refl));
      reflexivity.
Defined.

(** C7 as stated fails: after the bits 1, 0 the previous maximum 6 becomes
    5, not 4; the header that turns 6 into 4 is 0, 1, and that header turns
    3 into 4, not into 2. *)
Lemma two_bit_delta_special_case_misplaced :
  new_max (q <- pop_ctor false [1; 0; 0; 0; 0; 0; 0; 0] ;;
           f_get_max false uint8_t q 6 3) = Done 5 /\
  new_max (q <- pop_ctor false [2; 0; 0; 0; 0; 0; 0; 0] ;;
           f_get_max false uint8_t q 6 3) = Done 4 /\
  new_max (q <- pop_ctor false [2; 0; 0; 0; 0; 0; 0; 0] ;;
           f_get_max false uint8_t q 3 2) = Done 4.
Proof. evaluate. Qed.

(** C8 (metadata read back; the code departs from it). Scenario S5 on
    unsigned 16-bit frames. With [NDEBUG] the container is written and read
    back with 2 frames, but the constructor reads each metadata string onto
    the [std::string] object instead of into its characters: the strings
    "first" and "second-meta" are not the values of [metadata(0)] and
    [metadata(1)]. With assertions compiled in, the first [push_back] stops
    at the assertion of [Bitqueue_push_back] on the size of the vector. *)
Theorem metadata_not_read_back :
  S5 false uint16_t = AssertFail /\
  exists t t',
    S5 true uint16_t = Done t /\ reread true t = Done t' /\
    metadata t 0 = Chars "first" /\ metadata t 1 = Chars "second-meta" /\
    number_of_frames t' = 2%nat /\
    d_terse_frames t' = d_terse_frames t /\
    metadata t' 0 = Clobbered (bytes_of_string "first") /\
    metadata t' 1 = Clobbered (bytes_of_string "second-meta").
Proof.
  split; [vm_compute; reflexivity|].
  eexists. eexists. split; [vm_compute; reflexivity|]. split; [vm_compute; reflexivity|].
  evaluate.
Qed.

(** C9 (amended). [block_size(b)] never fails. On a container that holds a
    frame it returns normally and leaves the container as it was, block
    size included; the error is raised by [set_block_size] of the Python
    module only. On an empty container it sets the block size to [b] and
    changes nothing else. *)
Theorem block_size_never_fails t b :
  (number_of_frames t <> 0%nat ->
   block_size t b = Done t /\ set_block_size t b = Throw value_error) /\
  (number_of_frames t = 0%nat ->
   exists t', block_size t b = Done t' /\ d_block t' = b /\
              d_terse_frames t' = d_terse_frames t /\ d_metadata t' = d_metadata t /\
              d_size t' = d_size t /\ d_prolix_bits t' = d_prolix_bits t).
Proof.
  split; intros Hn.
  - unfold set_block_size, block_size.
    destruct (Nat.eqb_spec (number_of_frames t) 0) as [E|E]; [contradiction|].
    destruct (Nat.ltb_spec 0 (number_of_frames t)) as [L|L]; [|lia].
    split; [|reflexivity]. destruct t; reflexivity.
  - unfold block_size. rewrite Hn. cbn [Nat.eqb]. eexists. split; [reflexivity|].
    cbn. conj; reflexivity.
Qed.

Lemma block_size_never_fails_witness :
  block_size one_frame 24 = Done one_frame /\
  set_block_size one_frame 24 = Throw value_error /\
  exists t', block_size Terse_empty 24 = Done t' /\ d_block t' = 24%nat.
Proof.
  destruct (block_size_never_fails one_frame 24) as [Hfull _].
  destruct (block_size_never_fails Terse_empty 24) as [_ Hempty].
  destruct (Hfull ltac:(cbn; lia)) as [H1 H2].
  destruct (Hempty ltac:(reflexivity)) as [t' [H3 [H4 _]]].
  split; [exact H1|]. split; [exact H2|]. exists t'. split; assumption.
Defined.

(** C9 as stated fails: on a container with one frame, [block_size(24)]
    returns normally; it raises nothing and trips no assertion. *)
Lemma block_size_on_frames_is_no_error :
  number_of_frames one_frame = 1%nat /\
  block_size one_frame 24 = Done one_frame /\
  block_size one_frame 24 <> Throw value_error /\
  block_size one_frame 24 <> Throw invalid_argument /\
  block_size one_frame 24 <> AssertFail.
Proof. conj; try reflexivity; intros H; discriminate H. Qed.

(** C10. On a container without frames [write] leaves the stream as it was,
    no header and no byte added, and [file_size] is 0. *)
Theorem empty_container_writes_nothing t os :
  number_of_frames t = 0%nat -> write t os = os /\ file_size t = 0%nat.
Proof.
  intros Hn. unfold write, file_size. rewrite Hn. split; reflexivity.
Qed.

Lemma empty_container_writes_nothing_witness :
  number_of_frames Terse_empty = 0%nat /\
  write Terse_empty [] = [] /\ file_size Terse_empty = 0%nat.
Proof.
  split; [reflexivity|].
  apply (empty_container_writes_nothing Terse_empty []). reflexivity.
Defined.
(** * Outcomes *)

Lemma obind_done {A B} (c : outcome A) (k : A -> outcome B) b :
  obind c k = Done b -> exists a, c = Done a /\ k a = Done b.
Proof. destruct c; cbn; intros H; try discriminate H. eauto. Qed.

Lemma obind_ext {A B} (c : outcome A) (k1 k2 : A -> outcome B) :
  (forall a, k1 a = k2 a) -> obind c k1 = obind c k2.
Proof. intros H. destruct c; cbn; auto. Qed.

Lemma assert_true ndebug : assert_ ndebug true = Done tt.
Proof. destruct ndebug; reflexivity. Qed.

(** * The container: frames and their metadata *)

Lemma vector_insert_length {A} pos (x : A) l :
  length (vector_insert pos x l) = S (length l).
Proof.
  unfold vector_insert. rewrite length_app. cbn [length].
  rewrite length_firstn, length_skipn. lia.
Qed.

Lemma vector_insert_nth {A} pos (x : A) l d :
  (pos <= length l)%nat -> nth pos (vector_insert pos x l) d = x.
Proof.
  intros Hp. unfold vector_insert.
  rewrite app_nth2; rewrite length_firstn, Nat.min_l by lia; [|lia].
  rewrite Nat.sub_diag. reflexivity.
Qed.

Lemma vector_erase_insert {A} pos (x : A) l :
  (pos <= length l)%nat -> vector_erase pos (vector_insert pos x l) = l.
Proof.
  unfold vector_erase, vector_insert. revert l.
  induction pos as [|k IH]; intros [|y r] Hp; cbn in *; try reflexivity; try lia.
  f_equal. apply IH. lia.
Qed.


Lemma vector_set_nth_same {A} (l : list A) : forall pos x d,
  (pos < length l)%nat -> nth pos (vector_set pos x l) d = x.
Proof.
  induction l as [|y r IH]; intros [|k] x d H; cbn in *; try lia; auto.
  apply IH. lia.
Qed.

Lemma vector_set_nth_other {A} (l : list A) : forall pos i x d,
  i <> pos -> nth i (vector_set pos x l) d = nth i l d.
Proof.
  induction l as [|y r IH]; intros [|k] [|j] x d H; cbn; try reflexivity; try congruence.
  apply IH. congruence.
Qed.

Lemma vector_erase_length {A} i (l : list A) :
  (i < length l)%nat -> length (vector_erase i l) = pred (length l).
Proof.
  intros Hi. unfold vector_erase. rewrite length_app, firstn_length_le, length_skipn by lia.
  lia.
Qed.



(** What [insert] does to the two vectors. *)
Lemma insert_frames ndebug T t pos data mode t' :
  insert ndebug T t pos data mode = Done t' ->
  exists frame,
    d_terse_frames t' = vector_insert pos frame (d_terse_frames t) /\
    d_metadata t' = vector_insert pos (Chars EmptyString) (d_metadata t) /\
    d_block t' = d_block t.
Proof.
  unfold insert. intros H.
  apply obind_done in H. destruct H as [t1 [Hv H]].
  apply obind_done in H. destruct H as [frame [Hc H]].
  inversion H; subst t'; clear H. exists frame.
  unfold f_validate_insert in Hv.
  apply obind_done in Hv. destruct Hv as [_ [_ Hv]].
  apply obind_done in Hv. destruct Hv as [t2 [Hv2 Hv]].
  apply obind_done in Hv. destruct Hv as [_ [_ Hv]].
  inversion Hv; subst t2; clear Hv.
  destruct (Nat.eqb (number_of_frames t) 0).
  - inversion Hv2; subst t1. cbn. auto.
  - apply obind_done in Hv2. destruct Hv2 as [_ [_ Hv2]].
    apply obind_done in Hv2. destruct Hv2 as [_ [_ Hv2]].
    inversion Hv2; subst t1. cbn. auto.
Qed.



(** X2 (insert, then erase). In a container in which every frame has its
    metadata string, a frame inserted at [pos] gets the empty string as its
    metadata, and erasing the frame at [pos] afterwards gives back the
    frames and the metadata the container had. *)
Theorem erase_undoes_insert ndebug T t pos data mode t' :
  aligned t -> (pos <= number_of_frames t)%nat ->
  insert ndebug T t pos data mode = Done t' ->
  metadata t' pos = Chars EmptyString /\
  exists t'', erase t' pos = Done t'' /\
              d_terse_frames t'' = d_terse_frames t /\
              d_metadata t'' = d_metadata t /\ d_block t'' = d_block t.
Proof.
  unfold aligned, number_of_frames. intros Ha Hp H.
  destruct (insert_frames _ _ _ _ _ _ _ H) as [frame [Hf [Hm Hb]]].
  split.
  - unfold metadata. rewrite Hm. apply vector_insert_nth. lia.
  - unfold erase, number_of_frames. rewrite Hf, Hm, !vector_insert_length.
    destruct (Nat.ltb_spec pos (S (length (d_metadata t)))) as [L1|L1]; [|lia].
    destruct (Nat.ltb_spec pos (S (length (d_terse_frames t)))) as [L2|L2]; [|lia].
    cbn [andb]. eexists. split; [reflexivity|]. cbn.
    rewrite !vector_erase_insert by lia. auto.
Qed.

Lemma erase_undoes_insert_witness :
  metadata walk_terse 0 = Chars EmptyString /\
  exists t'', erase walk_terse 0 = Done t'' /\
              d_terse_frames t'' = d_terse_frames walk_empty /\
              d_metadata t'' = d_metadata walk_empty /\ d_block t'' = d_block walk_empty.
Proof.
  apply (erase_undoes_insert false int16_t walk_empty 0 walk_frame_a Signed walk_terse).
  - reflexivity.
  - cbn. lia.
  - vm_compute. reflexivity.
Defined.

(** X3 (set, then get). For a frame that exists and has a metadata string,
    the string set for it is the one read for it; the frames and the
    strings of the other frames stay. *)
Theorem metadata_set_then_get ndebug t pos s :
  (pos < number_of_frames t)%nat -> (pos < length (d_metadata t))%nat ->
  exists t',
    set_metadata ndebug t pos s = Done t' /\
    metadata t' pos = Chars s /\
    d_terse_frames t' = d_terse_frames t /\
    forall i, i <> pos -> metadata t' i = metadata t i.
Proof.
  intros Hp Hm. unfold set_metadata.
  replace ((pos <? number_of_frames t)%nat) with true by (symmetry; apply Nat.ltb_lt; exact Hp).
  rewrite assert_true. cbn [obind]. eexists. split; [reflexivity|].
  unfold metadata. cbn [set_frames d_metadata d_terse_frames].
  split; [apply vector_set_nth_same; exact Hm|]. split; [reflexivity|].
  intros i Hi. apply vector_set_nth_other. exact Hi.
Qed.

Lemma metadata_set_then_get_witness :
  exists t',
    set_metadata false walk_terse 0 "note" = Done t' /\
    metadata t' 0 = Chars "note" /\
    d_terse_frames t' = d_terse_frames walk_terse /\
    forall i, i <> 0%nat -> metadata t' i = metadata walk_terse i.
Proof. apply (metadata_set_then_get false walk_terse 0 "note"); cbn; lia. Defined.

(** * One frame of a container *)

Lemma prolix_signed_loop_ext t1 t2 ndebug T fuel : same_settings t1 t2 ->
  forall from sb q out,
    prolix_signed_loop fuel ndebug T t1 from sb q out =
    prolix_signed_loop fuel ndebug T t2 from sb q out.
Proof.
  intros (Hs & Hb & Hp & Hg). induction fuel as [|k IH]; intros; cbn [prolix_signed_loop].
  - reflexivity.
  - rewrite Hs, Hb. ext_step (@obind_ext) IH.
Qed.

Lemma prolix_unsigned_loop_ext t1 t2 ndebug T fuel : same_settings t1 t2 ->
  forall from sb mb q out,
    prolix_unsigned_loop fuel ndebug T t1 from sb mb q out =
    prolix_unsigned_loop fuel ndebug T t2 from sb mb q out.
Proof.
  intros (Hs & Hb & Hp & Hg). induction fuel as [|k IH]; intros; cbn [prolix_unsigned_loop].
  - reflexivity.
  - rewrite Hs, Hb, Hp. ext_step (@obind_ext) IH.
Qed.

Lemma prolix_masked_loop_ext t1 t2 ndebug T fuel : same_settings t1 t2 ->
  forall from s,
    prolix_masked_loop fuel ndebug T t1 from s =
    prolix_masked_loop fuel ndebug T t2 from s.
Proof.
  intros (Hs & Hb & Hp & Hg). induction fuel as [|k IH]; intros; cbn [prolix_masked_loop].
  - reflexivity.
  - unfold small_block. rewrite Hs, Hb. ext_step (@obind_ext) IH.
Qed.

Lemma prolix_small_loop_ext t1 t2 ndebug T fuel : same_settings t1 t2 ->
  forall from s,
    prolix_small_loop fuel ndebug T t1 from s =
    prolix_small_loop fuel ndebug T t2 from s.
Proof.
  intros Hsame. pose proof Hsame as (Hs & Hb & Hp & Hg).
  induction fuel as [|k IH]; intros; cbn [prolix_small_loop].
  - reflexivity.
  - unfold f_prolix_small_unsigned_masked, small_block.
    rewrite Hs, Hb, Hp.
    repeat first
      [ reflexivity
      | apply IH
      | rewrite (prolix_masked_loop_ext t1 t2 ndebug T (d_size t2) Hsame)
      | apply obind_ext; intros
      | match goal with
        | |- context [match ?x with _ => _ end] => destruct x
        end ].
Qed.

Lemma f_prolix_ext t1 t2 f1 f2 ndebug T : same_settings t1 t2 ->
  nth f1 (d_terse_frames t1) [] = nth f2 (d_terse_frames t2) [] ->
  (f1 <? number_of_frames t1)%nat = (f2 <? number_of_frames t2)%nat ->
  f_prolix ndebug T t1 f1 = f_prolix ndebug T t2 f2.
Proof.
  intros Hsame Hf Hn. pose proof Hsame as (Hs & Hb & Hp & Hg).
  unfold f_prolix, f_prolix_small_unsigned, f_prolix_unsigned, f_prolix_signed.
  rewrite Hf, Hn, Hs, Hg.
  apply obind_ext; intros q. apply obind_ext; intros [flag q'].
  destruct (flag =? 262140).
  - repeat (apply obind_ext; intros).
    apply prolix_small_loop_ext; exact Hsame.
  - destruct (flag =? 262136).
    + repeat (apply obind_ext; intros).
      apply prolix_unsigned_loop_ext; exact Hsame.
    + repeat (apply obind_ext; intros).
      apply prolix_signed_loop_ext; exact Hsame.
Qed.

(** X4 ([at], then [prolix]). A frame [pos] that exists and has a metadata
    string is decompressed from the one-frame container that [at(pos)]
    returns to the same values, or with the same failure, as from the
    container itself. *)
Theorem at_decodes_like_the_frame ndebug T t pos :
  (pos < number_of_frames t)%nat -> (pos < length (d_metadata t))%nat ->
  (t' <- at_frame ndebug t pos ;; prolix ndebug T t' 0) = prolix ndebug T t pos.
Proof.
  intros Hp Hm. unfold at_frame, prolix.
  apply Nat.ltb_lt in Hp, Hm. rewrite Hp, Hm. cbn [andb].
  destruct ndebug; cbn [assert_ obind]; cbn [number_of_frames d_terse_frames length Nat.ltb Nat.leb obind].
  - apply f_prolix_ext; [repeat split | reflexivity | ]; cbn; auto.
  - change ((0 <? 1)%nat) with true. cbn [obind].
    apply f_prolix_ext; [repeat split | reflexivity | ]; cbn; auto.
Qed.

Lemma at_decodes_like_the_frame_witness :
  (t' <- at_frame false walk_terse 0 ;; prolix false int16_t t' 0)
  = prolix false int16_t walk_terse 0.
Proof. apply at_decodes_like_the_frame; cbn; lia. Defined.




(** * Writing and reading a container *)

Lemma put_app s a b : put s (a ++ b) = a ++ put s b.
Proof. unfold put. rewrite app_assoc. reflexivity. Qed.

Lemma put_list_app l : forall a b, put_list l (a ++ b) = a ++ put_list l b.
Proof.
  induction l as [|x r IH]; intros a b.
  - reflexivity.
  - destruct r as [|y r'].
    + cbn. apply put_app.
    + change (put_list (x :: y :: r') (a ++ b))
        with (put_list (y :: r') (put " " (put (decimal x) (a ++ b)))).
      rewrite !put_app. rewrite IH. reflexivity.
Qed.

Lemma fold_app_app {A} (f : A -> list Z) l : forall a b,
  fold_left (fun os x => os ++ f x) l (a ++ b) =
  a ++ fold_left (fun os x => os ++ f x) l b.
Proof.
  induction l as [|x r IH]; intros a b; cbn.
  - reflexivity.
  - rewrite <- app_assoc. apply IH.
Qed.

Lemma f_write_metadata_app t a b :
  f_write_metadata t (a ++ b) = a ++ f_write_metadata t b.
Proof.
  unfold f_write_metadata.
  destruct (d_dim t); destruct (d_metadata t);
    rewrite ?put_app, ?put_list_app, ?put_app, ?put_list_app, ?put_app;
    repeat (rewrite ?put_app, ?put_list_app);
    apply (fold_app_app string_data).
Qed.

Lemma fold_app_length (frames : list (list Z)) : forall os,
  length (fold_left (fun os frame => os ++ frame) frames os) =
  fold_left (fun memsize frame => (memsize + length frame)%nat) frames (length os).
Proof.
  induction frames as [|f r IH]; intros os; cbn.
  - reflexivity.
  - rewrite (IH (os ++ f)), length_app. reflexivity.
Qed.

Lemma terse_fold_shift (frames : list (list Z)) : forall a b : nat,
  fold_left (fun memsize frame => (memsize + length frame)%nat) frames (a + b)%nat =
  (a + fold_left (fun memsize frame => (memsize + length frame)%nat) frames b)%nat.
Proof.
  induction frames as [|f r IH]; intros a b; cbn.
  - reflexivity.
  - rewrite <- Nat.add_assoc. apply IH.
Qed.

(** X6 ([file_size] and [write]). [write] puts exactly [file_size()] bytes
    on the stream, whatever the stream held before. *)
Theorem file_size_is_length_written t os :
  length (write t os) = (length os + file_size t)%nat.
Proof.
  unfold write, file_size. destruct (Nat.eqb (number_of_frames t) 0).
  - lia.
  - rewrite <- (app_nil_r os) at 1. rewrite f_write_metadata_app.
    rewrite (fold_app_app (fun x : list Z => x)).
    rewrite length_app. f_equal.
    rewrite fold_app_length. unfold terse_size.
    rewrite <- (Nat.add_0_r (length (f_write_metadata t []))) at 1.
    apply terse_fold_shift.
Qed.



















(** * The chunks of the HDF5 filter *)

Lemma span_of_length data from to :
  (to <= length data)%nat -> length (span_of data from to) = (to - from)%nat.
Proof. intros H. unfold span_of. rewrite length_firstn, length_skipn. lia. Qed.

Lemma firstn_span data from to :
  (from <= to)%nat -> firstn from data ++ span_of data from to = firstn to data.
Proof.
  intros H. unfold span_of.
  rewrite <- (firstn_skipn from (firstn to data)).
  rewrite firstn_firstn, Nat.min_l by lia. f_equal.
  rewrite skipn_firstn_comm. reflexivity.
Qed.

Lemma chunk_loop_spec chunk_size buffer fuel : forall pos chunks,
  (0 < chunk_size)%nat ->
  concat chunks = firstn pos buffer ->
  Forall (fun c => length c = chunk_size) chunks ->
  (pos < length buffer \/ pos = 0)%nat ->
  (length buffer <= pos + fuel * chunk_size)%nat ->
  let r := chunk_loop fuel chunk_size buffer pos chunks in
  concat (fst r) = firstn (snd r) buffer /\
  Forall (fun c => length c = chunk_size) (fst r) /\
  (length buffer <= snd r + chunk_size)%nat /\
  (snd r < length buffer \/ snd r = 0)%nat.
Proof.
  induction fuel as [|k IH]; intros pos chunks Hc Hcat Hall Hpos Hfuel; cbn [chunk_loop].
  - cbn [fst snd]. repeat split; try assumption; lia.
  - destruct (Nat.ltb_spec (pos + chunk_size) (length buffer)) as [Hlt|Hge].
    + apply IH; try assumption; try lia.
      * rewrite concat_app, Hcat. cbn [concat]. rewrite app_nil_r.
        apply firstn_span. lia.
      * apply Forall_app. split; [assumption|]. constructor; [|constructor].
        rewrite span_of_length by lia. lia.
    + cbn [fst snd]. repeat split; try assumption; lia.
Qed.

(** X8 (chunks of the HDF5 filter). For a chunk size other than 0,
    [hdf5_buffer_to_terse] cuts the buffer into chunks of exactly
    [chunk_size] values and one rest of at most [chunk_size] values, which is
    not empty unless the buffer is; chunks and rest put together are the
    buffer. *)
Theorem hdf5_chunks_partition chunk_size buffer :
  (0 < chunk_size)%nat ->
  let r := hdf5_chunks chunk_size buffer in
  concat (fst r) ++ concat (snd r) = buffer /\
  Forall (fun c => length c = chunk_size) (fst r) /\
  Forall (fun c => (length c <= chunk_size)%nat /\
                   ((0 < length buffer)%nat -> (0 < length c)%nat)) (snd r) /\
  length (snd r) = 1%nat.
Proof.
  intros Hc. unfold hdf5_chunks.
  destruct (Nat.eqb_spec chunk_size 0) as [E|_]; [lia|].
  pose proof (chunk_loop_spec chunk_size buffer (length buffer) 0 [] Hc eq_refl
                (Forall_nil _) ltac:(lia) ltac:(nia)) as H.
  cbn zeta in H.
  destruct (chunk_loop (length buffer) chunk_size buffer 0 []) as [chunks pos].
  cbn [fst snd] in *. destruct H as (Hcat & Hall & Hrest & Hpos).
  split; [|split; [exact Hall | split; [|reflexivity]]].
  - cbn [concat]. rewrite app_nil_r, Hcat.
    rewrite firstn_span by lia. apply firstn_all.
  - constructor; [|constructor]. rewrite span_of_length by lia. lia.
Qed.

Lemma hdf5_chunks_partition_witness :
  let r := hdf5_chunks 3 [1; 2; 3; 4; 5; 6; 7] in
  concat (fst r) ++ concat (snd r) = [1; 2; 3; 4; 5; 6; 7] /\
  Forall (fun c => length c = 3%nat) (fst r) /\
  Forall (fun c => (length c <= 3)%nat /\
                   ((0 < length [1; 2; 3; 4; 5; 6; 7])%nat -> (0 < length c)%nat)) (snd r) /\
  length (snd r) = 1%nat.
Proof. apply (hdf5_chunks_partition 3 [1; 2; 3; 4; 5; 6; 7]). lia. Defined.

(** * The size of the output of [prolix] *)

Lemma pop_loop_length ndebug T B num : forall q l q',
  pop_loop ndebug T B num q = Done (l, q') -> length l = num.
Proof.
  induction num as [|k IH]; intros q l q' H; cbn [pop_loop] in H.
  - inversion H. reflexivity.
  - bind_inv (@obind_done) H. destruct a as [p q1]. bind_inv (@obind_done) H. destruct a as [r q2].
    inversion H; subst. cbn. f_equal. eapply IH; eauto.
Qed.

Lemma POP_length ndebug T B num q l q' :
  POP ndebug T B num q = Done (l, q') -> length l = num.
Proof.
  unfold POP, pop_span. destruct (B =? 0).
  - intros H; inversion H. apply repeat_length.
  - apply pop_loop_length.
Qed.

Lemma radix_digits_length num : forall base val, length (radix_digits num base val) = num.
Proof. induction num; intros; cbn; auto. Qed.

Lemma prolix_radix_length ndebug T max block num q l q' :
  prolix_radix ndebug T max block num q = Done (l, q') -> length l = num.
Proof.
  unfold prolix_radix. intros H. bind_inv (@obind_done) H. bind_inv (@obind_done) H. destruct a0 as [v q1].
  inversion H; subst. rewrite length_map. apply radix_digits_length.
Qed.

Lemma decrement_all_length T l : length (decrement_all T l) = length l.
Proof. apply length_map. Qed.

Section Lengths.
Variables (ndebug : bool) (T : int_type) (t : Terse).
Hypothesis Hblock : (0 < d_block t)%nat.

Lemma block_fill (from n : nat) :
  (from < d_size t)%nat -> (0 < n)%nat ->
  (Nat.min from (d_size t) + (Nat.min (d_size t) (from + n) - from)
   = Nat.min (from + n) (d_size t))%nat.
Proof. lia. Qed.

Lemma prolix_signed_loop_length fuel : forall from sb q out r,
  (d_size t <= from + fuel * d_block t)%nat ->
  length out = Nat.min from (d_size t) ->
  prolix_signed_loop fuel ndebug T t from sb q out = Done r ->
  length r = d_size t.
Proof.
  induction fuel as [|k IH]; intros from sb q out r Hf Hl H; cbn [prolix_signed_loop] in H.
  - inversion H; subst. lia.
  - destruct (Nat.ltb_spec from (d_size t)) as [Hlt|Hge].
    + bind_inv (@obind_done) H. destruct a as [sb1 q1]. bind_inv (@obind_done) H. destruct a as [vs q2].
      apply POP_length in Hc0.
      eapply IH; [| |exact H]; [lia|].
      rewrite length_app, Hl, Hc0. apply block_fill; assumption.
    + inversion H; subst. lia.
Qed.

Lemma prolix_unsigned_loop_length fuel : forall from sb mb q out r,
  (d_size t <= from + fuel * d_block t)%nat ->
  length out = Nat.min from (d_size t) ->
  prolix_unsigned_loop fuel ndebug T t from sb mb q out = Done r ->
  length r = d_size t.
Proof.
  induction fuel as [|k IH]; intros from sb mb q out r Hf Hl H;
    cbn [prolix_unsigned_loop] in H.
  - inversion H; subst. lia.
  - destruct (Nat.ltb_spec from (d_size t)) as [Hlt|Hge].
    + bind_inv (@obind_done) H. destruct a as [sb1 q1].
      destruct (negb (sb1 =? d_prolix_bits t)).
      * bind_inv (@obind_done) H. destruct a as [vs q2]. apply POP_length in Hc0.
        eapply IH; [| |exact H]; [lia|].
        rewrite length_app, Hl, Hc0. apply block_fill; assumption.
      * bind_inv (@obind_done) H. destruct a as [mb1 q2]. bind_inv (@obind_done) H. destruct a as [vs q3].
        apply POP_length in Hc1.
        eapply IH; [| |exact H]; [lia|].
        rewrite length_app, decrement_all_length, Hl, Hc1. apply block_fill; assumption.
    + inversion H; subst. lia.
Qed.

Lemma small_block_pos : (0 < small_block t)%nat.
Proof. unfold small_block. lia. Qed.

Lemma prolix_masked_loop_length fuel : forall from s s' from',
  (d_size t <= from + fuel * small_block t)%nat ->
  length (ps_out s) = Nat.min from (d_size t) ->
  prolix_masked_loop fuel ndebug T t from s = Done (s', from') ->
  (from <= from')%nat /\
  length (ps_out s') = Nat.min (from' + small_block t) (d_size t).
Proof.
  pose proof small_block_pos as Hsb.
  induction fuel as [|k IH]; intros from s s' from' Hf Hl H;
    cbn [prolix_masked_loop] in H.
  - inversion H; subst. lia.
  - destruct (Nat.ltb_spec from (d_size t)) as [Hlt|Hge].
    + bind_inv (@obind_done) H. destruct a as [[q1 max1] bits1].
      bind_inv (@obind_done) H. destruct a as [[vs q2] max2].
      bind_inv (@obind_done) H. destruct a as [masked q3].
      assert (Hvs : length vs = (Nat.min (d_size t) (from + small_block t) - from)%nat).
      { destruct (7 <=? max1).
        - bind_inv (@obind_done) Hc0. destruct a as [vs0 q0]. inversion Hc0; subst.
          rewrite decrement_all_length. eapply POP_length; eauto.
        - bind_inv (@obind_done) Hc0. destruct a as [vs0 q0]. inversion Hc0; subst.
          rewrite decrement_all_length. eapply prolix_radix_length; eauto. }
      destruct (masked =? 0).
      * inversion H; subst. cbn [ps_out]. split; [lia|].
        rewrite length_app, Hl, Hvs. apply block_fill; assumption.
      * apply IH in H; [lia | lia |]. cbn [ps_out].
        rewrite length_app, Hl, Hvs. apply block_fill; assumption.
    + inversion H; subst. lia.
Qed.

Lemma prolix_small_loop_length fuel : forall from s r,
  (d_size t <= from + fuel * small_block t)%nat ->
  length (ps_out s) = Nat.min from (d_size t) ->
  prolix_small_loop fuel ndebug T t from s = Done r ->
  length r = d_size t.
Proof.
  pose proof small_block_pos as Hsb.
  induction fuel as [|k IH]; intros from s r Hf Hl H; cbn [prolix_small_loop] in H.
  - inversion H; subst. lia.
  - destruct (Nat.ltb_spec from (d_size t)) as [Hlt|Hge].
    + bind_inv (@obind_done) H. destruct a as [[q1 max1] bits1].
      assert (Hplain : forall width,
        ('(values, q) <- POP ndebug T width
             (Nat.min (d_size t) (from + small_block t) - from) q1 ;;
         prolix_small_loop k ndebug T t (from + small_block t)
           {| ps_queue := q; ps_max := max1; ps_bits := bits1;
              ps_out := ps_out s ++ values |}) = Done r -> length r = d_size t).
      { intros width H'. bind_inv (@obind_done) H'. destruct a as [vs q2]. apply POP_length in Hc0.
        eapply IH; [| |exact H']; [lia|]. cbn [ps_out].
        rewrite length_app, Hl, Hc0. apply block_fill; assumption. }
      assert (Hradix :
        ('(values, q) <- prolix_radix ndebug T max1 (small_block t)
             (Nat.min (d_size t) (from + small_block t) - from) q1 ;;
         prolix_small_loop k ndebug T t (from + small_block t)
           {| ps_queue := q; ps_max := max1; ps_bits := bits1;
              ps_out := ps_out s ++ values |}) = Done r -> length r = d_size t).
      { intros H'. bind_inv (@obind_done) H'. destruct a as [vs q2]. apply prolix_radix_length in Hc0.
        eapply IH; [| |exact H']; [lia|]. cbn [ps_out].
        rewrite length_app, Hl, Hc0. apply block_fill; assumption. }
      destruct (max1 =? 0); [eapply Hplain; exact H|].
      destruct (max1 =? 1); [eapply Hplain; exact H|].
      destruct (max1 =? 2); [eapply Hradix; exact H|].
      destruct (max1 =? 3); [eapply Hplain; exact H|].
      destruct (max1 =? 7); [eapply Hplain; exact H|].
      destruct (max1 <? 7); [eapply Hradix; exact H|].
      destruct (bits1 =? d_prolix_bits t); [|eapply Hplain; exact H].
      bind_inv (@obind_done) H. destruct a as [s1 from1].
      unfold f_prolix_small_unsigned_masked in Hc0.
      apply prolix_masked_loop_length in Hc0; [| nia | cbn [ps_out]; exact Hl].
      destruct Hc0 as [Hle Hout].
      eapply IH; [| |exact H]; [lia | exact Hout].
    + inversion H; subst. lia.
Qed.

End Lengths.

(** X9 (size of the output). For a block size other than 0, whenever
    [prolix] returns, it has written exactly [size()] values, in every mode
    and in both builds. *)
Theorem prolix_fills_the_frame ndebug T t frame out :
  (0 < d_block t)%nat ->
  prolix ndebug T t frame = Done out -> length out = d_size t.
Proof.
  intros Hblock H.
  pose proof (small_block_pos t Hblock) as Hsb.
  unfold prolix, f_prolix.
  bind_inv (@obind_done) H. bind_inv (@obind_done) H. bind_inv (@obind_done) H. destruct a1 as [flag q1].
  destruct (flag =? 262140).
  - unfold f_prolix_small_unsigned in H. bind_inv (@obind_done) H. bind_inv (@obind_done) H. bind_inv (@obind_done) H.
    eapply (prolix_small_loop_length ndebug T t Hblock); [| |exact H]; [nia | reflexivity].
  - destruct (flag =? 262136).
    + unfold f_prolix_unsigned in H. bind_inv (@obind_done) H. bind_inv (@obind_done) H. bind_inv (@obind_done) H. bind_inv (@obind_done) H.
      eapply (prolix_unsigned_loop_length ndebug T t Hblock); [| |exact H]; [nia | reflexivity].
    + unfold f_prolix_signed in H. bind_inv (@obind_done) H. bind_inv (@obind_done) H. bind_inv (@obind_done) H.
      eapply (prolix_signed_loop_length ndebug T t Hblock); [| |exact H]; [nia | reflexivity].
Qed.

Lemma prolix_fills_the_frame_witness :
  length overload_frame = d_size overload_terse.
Proof.
  apply (prolix_fills_the_frame false uint16_t overload_terse 0 overload_frame).
  - cbn; lia.
  - vm_compute. reflexivity.
Defined.

(** * The bit stream of [Bitqueue_push_back] *)

Lemma lor_disjoint a x n :
  0 <= n -> 0 <= a < 2 ^ n -> Z.lor a (Z.shiftl x n) = a + x * 2 ^ n.
Proof.
  intros Hn Ha. rewrite Z.shiftl_mul_pow2 by lia.
  rewrite <- Z.lxor_lor, <- Z.add_nocarry_lxor; try reflexivity.
  all: apply Z.bits_inj'; intros k Hk; rewrite Z.land_spec, Z.bits_0.
  all: destruct (Z.lt_ge_cases k n) as [Hlt|Hge].
  all: try (rewrite (Z.mul_pow2_bits_low x n k) by lia; apply andb_false_r).
  all: destruct (Z.eq_dec a 0) as [->|Hne]; [rewrite Z.bits_0; reflexivity|].
  all: rewrite (Z.bits_above_log2 a k); [reflexivity | lia |].
  all: apply Z.lt_le_trans with n; [apply Z.log2_lt_pow2; lia | lia].
Qed.

Lemma bytes_word_bound l :
  Forall is_byte l -> 0 <= bytes_word l < 2 ^ (8 * Z.of_nat (length l)).
Proof.
  induction 1 as [|b r Hb Hr IH]; cbn [bytes_word length].
  - cbn. lia.
  - rewrite (lor_disjoint b (bytes_word r) 8) by (unfold is_byte in Hb; cbn; lia).
    rewrite Nat2Z.inj_succ.
    replace (8 * Z.succ (Z.of_nat (length r))) with (8 + 8 * Z.of_nat (length r)) by lia.
    rewrite Z.pow_add_r by lia. change (2 ^ 8) with 256. unfold is_byte in Hb. nia.
Qed.

Lemma bytes_word_cons b r : is_byte b -> bytes_word (b :: r) = b + 256 * bytes_word r.
Proof.
  intros Hb. cbn [bytes_word]. rewrite (lor_disjoint b _ 8) by (unfold is_byte in Hb; cbn; lia).
  change (2 ^ 8) with 256. lia.
Qed.

Lemma bytes_word_app a b :
  Forall is_byte a ->
  bytes_word (a ++ b) = bytes_word a + 2 ^ (8 * Z.of_nat (length a)) * bytes_word b.
Proof.
  induction 1 as [|x r Hx Hr IH].
  - cbn [app length bytes_word]. change (2 ^ (8 * Z.of_nat 0)) with 1. lia.
  - cbn [app]. rewrite !bytes_word_cons by assumption. rewrite IH.
    cbn [length]. rewrite Nat2Z.inj_succ.
    replace (8 * Z.succ (Z.of_nat (length r))) with (8 + 8 * Z.of_nat (length r)) by lia.
    rewrite Z.pow_add_r by lia. change (2 ^ 8) with 256. lia.
Qed.

Lemma word_bytes_length n : forall w, length (word_bytes n w) = n.
Proof. induction n; intros; cbn; auto. Qed.

Lemma word_bytes_byte n : forall w, Forall is_byte (word_bytes n w).
Proof.
  induction n as [|k IH]; intros w; cbn [word_bytes]; constructor; [|apply IH].
  unfold is_byte. change 255 with (Z.ones 8). rewrite Z.land_ones by lia.
  change (2 ^ 8) with 256. apply Z.mod_pos_bound. lia.
Qed.

Lemma bytes_word_word_bytes n : forall w,
  bytes_word (word_bytes n w) = w mod 2 ^ (8 * Z.of_nat n).
Proof.
  induction n as [|k IH]; intros w.
  - cbn. rewrite Z.mod_1_r. reflexivity.
  - cbn [word_bytes]. rewrite bytes_word_cons.
    2:{ pose proof (word_bytes_byte 1 w) as H. inversion H; assumption. }
    rewrite IH. change 255 with (Z.ones 8). rewrite Z.land_ones by lia.
    rewrite Z.shiftr_div_pow2 by lia. change (2 ^ 8) with 256.
    rewrite Nat2Z.inj_succ.
    replace (8 * Z.succ (Z.of_nat k)) with (8 + 8 * Z.of_nat k) by lia.
    rewrite Z.pow_add_r by lia. change (2 ^ 8) with 256.
    rewrite Z.rem_mul_r by lia. reflexivity.
Qed.

Lemma pushed_value_bound q :
  push_wf q -> 0 <= pushed_value q < 2 ^ pushed_bits q.
Proof.
  intros (Hm & _ & Hb & Hv). unfold pushed_value, pushed_bits.
  pose proof (bytes_word_bound _ Hm) as Hw.
  rewrite Z.pow_add_r by lia.
  set (M := 2 ^ (8 * Z.of_nat (length (pb_mem q)))) in *.
  assert (0 < M) by (apply Z.pow_pos_nonneg; lia).
  nia.
Qed.

Lemma push_init_wf : push_wf push_init.
Proof. unfold push_wf, push_init; cbn. repeat split; try lia. constructor. Qed.

(** One push appends the operand to the stream. *)
Lemma push_value_spec T B q val :
  push_wf q -> 0 < B < 64 -> 0 <= push_operand T B val < 2 ^ B ->
  let q' := push_value T B q val in
  push_wf q' /\
  pushed_bits q' = pushed_bits q + B /\
  pushed_value q' = pushed_value q + push_operand T B val * 2 ^ pushed_bits q.
Proof.
  destruct q as [mem bb buf]. unfold push_wf, push_value, pushed_bits, pushed_value.
  cbn [pb_mem pb_buffered_bits pb_buffer].
  intros (Hm & Hl & Hb & Hv) HB Hx.
  generalize dependent (push_operand T B val). intros x Hx.
  rewrite (lor_disjoint buf x bb) by lia.
  assert (Hpb : 0 < 2 ^ bb) by (apply Z.pow_pos_nonneg; lia).
  assert (Hsum : 0 <= buf + x * 2 ^ bb < 2 ^ (bb + B)).
  { rewrite Z.pow_add_r by lia. nia. }
  unfold to_size_t, wrap_unsigned.
  set (L := 8 * Z.of_nat (length mem)).
  assert (HL : 0 <= L) by (unfold L; lia).
  destruct (Z.leb_spec 64 (bb + B)) as [Hge|Hlt];
    cbn [pb_mem pb_buffered_bits pb_buffer].
  - rewrite length_app, word_bytes_length.
    replace (B - (bb + B - 64)) with (64 - bb) by lia.
    rewrite Z.shiftr_div_pow2 by lia.
    assert (Hp64 : 2 ^ 64 = 2 ^ (64 - bb) * 2 ^ bb)
      by (rewrite <- Z.pow_add_r by lia; f_equal; lia).
    assert (Hq : (buf + x * 2 ^ bb) / 2 ^ 64 = x / 2 ^ (64 - bb)).
    { rewrite Hp64, (Z.mul_comm (2 ^ (64 - bb))).
      rewrite <- Z.div_div by (try apply Z.pow_pos_nonneg; lia).
      rewrite Z.div_add by lia. rewrite (Z.div_small buf) by lia. reflexivity. }
    assert (Hxd : 0 <= x / 2 ^ (64 - bb) < 2 ^ (bb + B - 64)).
    { split; [apply Z.div_pos; [lia | apply Z.pow_pos_nonneg; lia]|].
      apply Z.div_lt_upper_bound; [apply Z.pow_pos_nonneg; lia|].
      rewrite <- Z.pow_add_r by lia. replace (64 - bb + (bb + B - 64)) with B by lia.
      apply Hx. }
    rewrite Nat2Z.inj_add. change (Z.of_nat 8) with 8.
    replace (8 * (Z.of_nat (length mem) + 8)) with (L + 64) by (unfold L; lia).
    split; [|split].
    + split; [apply Forall_app; split; [assumption | apply word_bytes_byte]|].
      split; [rewrite Nat.Div0.add_mod, Hl by lia; reflexivity|].
      split; [lia | exact Hxd].
    + unfold L. lia.
    + rewrite bytes_word_app by assumption. rewrite bytes_word_word_bytes.
      change (8 * Z.of_nat 8) with 64. fold L.
      rewrite !Z.pow_add_r by lia.
      rewrite <- Hq.
      pose proof (Z.div_mod (buf + x * 2 ^ bb) (2 ^ 64) ltac:(lia)) as Hdm.
      rewrite Z.mod_mod by lia.
      remember ((buf + x * 2 ^ bb) / 2 ^ 64) as D.
      remember ((buf + x * 2 ^ bb) mod 2 ^ 64) as R.
      transitivity (bytes_word mem + 2 ^ L * (buf + x * 2 ^ bb)); [|ring].
      rewrite Hdm. ring.
  - assert (2 ^ (bb + B) <= 2 ^ 64) by (apply Z.pow_le_mono_r; lia).
    rewrite Z.mod_small by lia.
    split; [|split].
    + split; [assumption|]. split; [assumption|]. split; [lia | exact Hsum].
    + lia.
    + fold L. rewrite Z.pow_add_r by lia. ring.
Qed.

(** * The bit stream of [Bitqueue_pop] *)

Lemma pow2_pos n : 0 <= n -> 0 < 2 ^ n.
Proof. intros. apply Z.pow_pos_nonneg; lia. Qed.

Lemma pow2_split a b : 0 <= a <= b -> 2 ^ b = 2 ^ a * 2 ^ (b - a).
Proof. intros H. rewrite <- Z.pow_add_r by lia. f_equal. lia. Qed.

Lemma mod_mod_pow2 x a b : 0 <= a <= b -> (x mod 2 ^ b) mod 2 ^ a = x mod 2 ^ a.
Proof.
  intros H. rewrite (pow2_split a b H).
  rewrite Z.rem_mul_r by (pose proof (pow2_pos a); pose proof (pow2_pos (b - a)); lia).
  rewrite Z.mul_comm, Z.mod_add by (pose proof (pow2_pos a); lia).
  apply Z.mod_mod. pose proof (pow2_pos a). lia.
Qed.

Lemma wrap_signed_mod w x : 0 < w -> (wrap_signed w x) mod 2 ^ w = x mod 2 ^ w.
Proof.
  intros Hw. unfold wrap_signed. pose proof (pow2_pos w ltac:(lia)).
  rewrite Zminus_mod_idemp_l. f_equal. lia.
Qed.

Lemma cast_mod T y B : 0 < B <= tbits T -> (cast T y) mod 2 ^ B = y mod 2 ^ B.
Proof.
  intros HB. rewrite <- (mod_mod_pow2 (cast T y) B (tbits T)) by lia.
  rewrite <- (mod_mod_pow2 y B (tbits T)) by lia. f_equal.
  unfold cast. destruct (tsigned T).
  - apply wrap_signed_mod. lia.
  - unfold wrap_unsigned. apply Z.mod_mod. pose proof (pow2_pos (tbits T)). lia.
Qed.

Lemma land_pow2 p k : 0 <= k -> Z.land p (2 ^ k) = if Z.testbit p k then 2 ^ k else 0.
Proof.
  intros Hk. apply Z.bits_inj'. intros n Hn. rewrite Z.land_spec.
  rewrite Z.pow2_bits_eqb by lia.
  destruct (Z.eqb_spec k n) as [->|Hne].
  - rewrite andb_true_r. destruct (Z.testbit p n) eqn:E.
    + symmetry. apply Z.pow2_bits_true. lia.
    + symmetry. apply Z.bits_0.
  - rewrite andb_false_r. destruct (Z.testbit p k).
    + symmetry. apply Z.pow2_bits_false. lia.
    + symmetry. apply Z.bits_0.
Qed.

Lemma testbit_top p B : 0 < B ->
  Z.testbit p (B - 1) = (2 ^ (B - 1) <=? p mod 2 ^ B).
Proof.
  intros HB. rewrite <- (Z.mod_pow2_bits_low p B (B - 1)) by lia.
  pose proof (pow2_pos B ltac:(lia)). pose proof (pow2_pos (B - 1) ltac:(lia)).
  pose proof (Z.mod_pos_bound p (2 ^ B) ltac:(lia)) as Hx.
  set (x := p mod 2 ^ B) in *. clearbody x.
  assert (E : 2 ^ B = 2 * 2 ^ (B - 1))
    by (rewrite <- Z.pow_succ_r by lia; f_equal; lia).
  rewrite Z.testbit_eqb by lia.
  destruct (Z.leb_spec (2 ^ (B - 1)) x) as [Hge|Hlt].
  - replace (x / 2 ^ (B - 1)) with 1; [reflexivity|].
    apply Z.div_unique with (x - 2 ^ (B - 1)); lia.
  - rewrite Z.div_small by lia. reflexivity.
Qed.

Lemma lor_lnot_ones p B : 0 <= B ->
  Z.lor p (Z.lnot (Z.ones B)) = p mod 2 ^ B - 2 ^ B.
Proof.
  intros HB. pose proof (Z.add_lor_land p (Z.lnot (Z.ones B))) as H.
  rewrite <- Z.ldiff_land, Z.ldiff_ones_r in H by lia.
  rewrite Z.shiftl_mul_pow2, Z.shiftr_div_pow2 in H by lia.
  assert (Hn : Z.lnot (Z.ones B) = - 2 ^ B).
  { unfold Z.lnot. rewrite Z.ones_equiv. lia. }
  rewrite Hn in *. pose proof (pow2_pos B HB).
  pose proof (Z.div_mod p (2 ^ B) ltac:(lia)). lia.
Qed.

Lemma sign_extend_spec T B y :
  0 < B <= tbits T ->
  sign_extend T B (cast T y) = bits_value T B (y mod 2 ^ B).
Proof.
  intros HB. unfold sign_extend, bits_value.
  pose proof (pow2_pos B ltac:(lia)) as HpB.
  pose proof (pow2_pos (B - 1) ltac:(lia)) as HpB1.
  assert (E : 2 ^ B = 2 * 2 ^ (B - 1))
    by (rewrite <- Z.pow_succ_r by lia; f_equal; lia).
  destruct (Z.eqb_spec B (tbits T)) as [->|Hne].
  - unfold cast. destruct (tsigned T).
    + unfold wrap_signed. rewrite Zplus_mod_idemp_l. reflexivity.
    + reflexivity.
  - pose proof (cast_mod T y B HB) as Hp.
    pose proof (Z.mod_pos_bound y (2 ^ B) ltac:(lia)) as Hx.
    set (p := cast T y) in *. set (x := y mod 2 ^ B) in *. clearbody p x.
    assert (Hle : 2 ^ B <= 2 ^ (tbits T - 1)) by (apply Z.pow_le_mono_r; lia).
    assert (Et : 2 ^ tbits T = 2 * 2 ^ (tbits T - 1))
      by (rewrite <- Z.pow_succ_r by lia; f_equal; lia).
    assert (Hmask : cast T (Z.ones B) = Z.ones B).
    { apply cast_in_range; [lia|]. rewrite Z.ones_equiv.
      unfold in_range, numeric_min, numeric_max. destruct (tsigned T); lia. }
    rewrite Hmask. rewrite Z.land_ones by lia. rewrite Hp.
    assert (Hcx : cast T x = x).
    { apply cast_in_range; [lia|].
      unfold in_range, numeric_min, numeric_max. destruct (tsigned T); lia. }
    destruct (tsigned T) eqn:Hs.
    + rewrite Z.shiftl_1_l.
      assert (Hneg : cast T (2 ^ (B - 1)) = 2 ^ (B - 1)).
      { apply cast_in_range; [lia|].
        unfold in_range, numeric_min, numeric_max. rewrite Hs. lia. }
      rewrite Hneg, land_pow2 by lia. rewrite testbit_top by lia. rewrite Hp.
      destruct (Z.leb_spec (2 ^ (B - 1)) x) as [Hge|Hlt].
      * destruct (Z.eqb_spec (2 ^ (B - 1)) 0); [lia|].
        rewrite lor_lnot_ones by lia. rewrite Hp.
        rewrite wrap_signed_high by lia.
        apply cast_in_range; [lia|].
        unfold in_range, numeric_min, numeric_max. rewrite Hs. lia.
      * cbn [Z.eqb]. rewrite Hcx. symmetry. apply wrap_signed_small; lia.
    + rewrite Z.land_0_r. cbn [Z.eqb]. exact Hcx.
Qed.

Lemma Forall_firstn {A} (P : A -> Prop) n l : Forall P l -> Forall P (firstn n l).
Proof.
  intros H. revert n. induction H; intros [|n]; cbn; constructor; auto.
Qed.

Lemma Forall_skipn {A} (P : A -> Prop) n l : Forall P l -> Forall P (skipn n l).
Proof.
  intros H. revert n. induction H; intros [|n]; cbn; auto.
Qed.

Lemma skipn_word mem d :
  Forall is_byte mem -> (d + 8 <= length mem)%nat ->
  bytes_word (skipn d mem) =
    bytes_word (firstn 8 (skipn d mem)) + 2 ^ 64 * bytes_word (skipn (d + 8) mem) /\
  0 <= bytes_word (firstn 8 (skipn d mem)) < 2 ^ 64 /\
  0 <= bytes_word (skipn (d + 8) mem).
Proof.
  intros Hm Hd.
  assert (Hl : length (firstn 8 (skipn d mem)) = 8%nat)
    by (rewrite length_firstn, length_skipn; lia).
  assert (Hf : Forall is_byte (firstn 8 (skipn d mem)))
    by (apply Forall_firstn, Forall_skipn, Hm).
  split; [|split].
  - rewrite <- (firstn_skipn 8 (skipn d mem)) at 1.
    rewrite bytes_word_app by exact Hf. rewrite Hl.
    rewrite skipn_skipn. rewrite (Nat.add_comm 8 d). reflexivity.
  - pose proof (bytes_word_bound _ Hf) as H. rewrite Hl in H. exact H.
  - apply (bytes_word_bound (skipn (d + 8) mem)). apply Forall_skipn, Hm.
Qed.

Lemma div_pow2_add a r n m :
  0 <= n <= m -> 0 <= a < 2 ^ m ->
  (a + 2 ^ m * r) / 2 ^ n = a / 2 ^ n + 2 ^ (m - n) * r.
Proof.
  intros Hn Ha. rewrite (pow2_split n m Hn).
  replace (a + 2 ^ n * 2 ^ (m - n) * r) with (a + (2 ^ (m - n) * r) * 2 ^ n) by ring.
  apply Z.div_add. pose proof (pow2_pos n). lia.
Qed.

(** One pop hands out the next [B] bits of the stream. *)
Lemma pop_value_spec ndebug T B q :
  pop_wf q -> 0 < B <= tbits T -> tbits T <= 64 -> B <= unread_bits q ->
  exists q',
    pop_value ndebug T B q = Done (bits_value T B (unread q mod 2 ^ B), q') /\
    pop_wf q' /\ unread q' = unread q / 2 ^ B /\
    unread_bits q' = unread_bits q - B /\ pp_mem q' = pp_mem q.
Proof.
  destruct q as [mem d buf bb]. unfold pop_wf, unread, unread_bits, pop_value.
  cbn [pp_mem pp_data pp_buffer pp_buffered_bits].
  intros (Hm & Hl & Hd & Hin & Hbb & Hbuf) HB HT Hav.
  destruct (skipn_word mem d Hm Hin) as (Hw & HW0 & HR).
  remember (bytes_word (firstn 8 (skipn d mem))) as W0 eqn:EW0.
  remember (bytes_word (skipn (d + 8) mem)) as R eqn:ER.
  rewrite Hw.
  assert (HU : (W0 + 2 ^ 64 * R) / 2 ^ (64 - bb) = buf + 2 ^ bb * R).
  { rewrite div_pow2_add by lia. rewrite Hbuf.
    replace (64 - (64 - bb)) with bb by lia. reflexivity. }
  rewrite HU.
  assert (Hbufb : 0 <= buf < 2 ^ bb).
  { subst buf. pose proof (pow2_pos (64 - bb) ltac:(lia)). split.
    - apply Z.div_pos; lia.
    - apply Z.div_lt_upper_bound; [lia|]. rewrite <- Z.pow_add_r by lia.
      replace (64 - bb + bb) with 64 by lia. lia. }
  replace (B <=? tbits T) with true by (symmetry; apply Z.leb_le; lia).
  rewrite assert_true. cbn [obind].
  replace (tbits T <? B) with false by (symmetry; apply Z.ltb_ge; lia).
  pose proof (pow2_pos B ltac:(lia)) as HpB.
  pose proof (pow2_pos bb ltac:(lia)) as Hpbb.
  destruct (Z.leb_spec B bb) as [Hle|Hgt].
  - (* the bits are in the scratch word *)
    assert (Hval : (buf + 2 ^ bb * R) mod 2 ^ B = buf mod 2 ^ B).
    { rewrite (pow2_split B bb) by lia.
      replace (buf + 2 ^ B * 2 ^ (bb - B) * R) with (buf + (2 ^ (bb - B) * R) * 2 ^ B) by ring.
      apply Z.mod_add. lia. }
    rewrite Hval, sign_extend_spec by lia.
    assert (Hdiv : (buf + 2 ^ bb * R) / 2 ^ B = buf / 2 ^ B + 2 ^ (bb - B) * R)
      by (apply div_pow2_add; lia).
    destruct (Z.eqb_spec B 64) as [HB64|HB64].
    + assert (bb = 64) by lia. subst bb B.
      eexists. split; [reflexivity|].
      cbn [pp_mem pp_data pp_buffer pp_buffered_bits].
      split; [|split; [|split; [lia | reflexivity]]].
      * repeat (split; [assumption || lia|]).
        change (64 - 0) with 64. symmetry. apply Z.div_small. lia.
      * change (64 - 0) with 64. rewrite Hdiv, Hw.
        rewrite div_pow2_add by lia. rewrite (Z.div_small buf) by lia.
        rewrite (Z.div_small W0) by lia. reflexivity.
    + eexists. split; [reflexivity|].
      cbn [pp_mem pp_data pp_buffer pp_buffered_bits].
      split; [|split; [|split; [lia | reflexivity]]].
      * repeat (split; [assumption || lia|]).
        rewrite Z.shiftr_div_pow2 by lia. rewrite Hbuf.
        rewrite Z.div_div by (try apply pow2_pos; lia).
        rewrite <- Z.pow_add_r by lia. rewrite <- EW0.
        replace (64 - (bb - B)) with (64 - bb + B) by lia. reflexivity.
      * rewrite Hdiv, Hw. rewrite div_pow2_add by lia.
        rewrite Hbuf. rewrite Z.div_div by (try apply pow2_pos; lia).
        rewrite <- Z.pow_add_r by lia.
        replace (64 - (bb - B)) with (64 - bb + B) by lia.
        replace (64 - (64 - bb + B)) with (bb - B) by lia. reflexivity.
  - (* the bits straddle the next word *)
    assert (Hin2 : (d + 8 + 8 <= length mem)%nat).
    { apply Nat.Div0.div_exact in Hl, Hd. lia. }
    unfold load_word.
    replace ((d + 8 + 8 <=? length mem)%nat) with true
      by (symmetry; apply Nat.leb_le; lia).
    cbn [obind].
    destruct (skipn_word mem (d + 8) Hm Hin2) as (Hw1 & HW1 & HR1).
    remember (bytes_word (firstn 8 (skipn (d + 8) mem))) as W1 eqn:EW1.
    remember (bytes_word (skipn (d + 8 + 8) mem)) as R1 eqn:ER1.
    rewrite Hw1 in ER. subst R.
    assert (Hval : (buf + 2 ^ bb * (W1 + 2 ^ 64 * R1)) mod 2 ^ B
                   = (buf + 2 ^ bb * W1) mod 2 ^ B).
    { replace (buf + 2 ^ bb * (W1 + 2 ^ 64 * R1))
        with (buf + 2 ^ bb * W1 + R1 * 2 ^ (bb + 64)) by (rewrite Z.pow_add_r by lia; ring).
      rewrite (pow2_split B (bb + 64)) by lia.
      replace (buf + 2 ^ bb * W1 + R1 * (2 ^ B * 2 ^ (bb + 64 - B)))
        with (buf + 2 ^ bb * W1 + (R1 * 2 ^ (bb + 64 - B)) * 2 ^ B) by ring.
      apply Z.mod_add. lia. }
    rewrite Hval, sign_extend_spec by lia.
    assert (Hor : Z.lor (cast T buf) (cast T (to_size_t (Z.shiftl W1 bb))) mod 2 ^ B
                  = (buf + 2 ^ bb * W1) mod 2 ^ B).
    { rewrite <- !Z.land_ones by lia. rewrite Z.land_lor_distr_l.
      rewrite !Z.land_ones by lia. rewrite !cast_mod by lia.
      unfold to_size_t, wrap_unsigned. rewrite mod_mod_pow2 by lia.
      rewrite Z.shiftl_mul_pow2 by lia.
      assert (H2 : 2 ^ bb <= 2 ^ B) by (apply Z.pow_le_mono_r; lia).
      rewrite (Z.mod_small buf) by lia.
      pose proof (pow2_pos (B - bb) ltac:(lia)) as Hpd.
      pose proof (Z.mod_pos_bound W1 (2 ^ (B - bb)) ltac:(lia)) as Hm1.
      pose proof (Z.div_mod W1 (2 ^ (B - bb)) ltac:(lia)) as Hdm.
      pose proof (pow2_split bb B ltac:(lia)) as EB.
      assert (E1 : (W1 * 2 ^ bb) mod 2 ^ B = Z.shiftl (W1 mod 2 ^ (B - bb)) bb).
      { rewrite EB, (Z.mul_comm W1), Z.mul_mod_distr_l by lia.
        rewrite Z.shiftl_mul_pow2 by lia. ring. }
      rewrite E1, lor_disjoint by lia.
      symmetry. rewrite Hdm at 1.
      replace (buf + 2 ^ bb * (2 ^ (B - bb) * (W1 / 2 ^ (B - bb)) + W1 mod 2 ^ (B - bb)))
        with (buf + W1 mod 2 ^ (B - bb) * 2 ^ bb + (W1 / 2 ^ (B - bb)) * 2 ^ B)
        by (rewrite EB; ring).
      rewrite Z.mod_add by lia. apply Z.mod_small.
      rewrite EB. nia. }
    rewrite Hor.
    symmetry in Hval.
    eexists. split; [reflexivity|].
    cbn [pp_mem pp_data pp_buffer pp_buffered_bits].
    split; [|split; [|split; [lia | reflexivity]]].
    + split; [assumption|]. split; [assumption|].
      split; [rewrite Nat.Div0.add_mod, Hd by lia; reflexivity|].
      split; [lia|]. split; [lia|].
      rewrite Z.shiftr_div_pow2 by lia. rewrite <- EW1.
      replace (64 - (64 + bb - B)) with (B - bb) by lia. reflexivity.
    + destruct (skipn_word mem (d + 8) Hm Hin2) as (Hw1' & _ & _).
      rewrite Hw1', <- EW1, <- ER1.
      replace (64 - (64 + bb - B)) with (B - bb) by lia.
      rewrite (pow2_split bb B) by lia.
      rewrite <- Z.div_div by (try apply pow2_pos; lia).
      rewrite (Z.mul_comm (2 ^ bb)), Z.div_add by lia.
      rewrite (Z.div_small buf) by lia. reflexivity.
Qed.

Lemma pushed_bits_nonneg q : push_wf q -> 0 <= pushed_bits q.
Proof. intros (_ & _ & Hb & _). unfold pushed_bits. lia. Qed.

Lemma packed_bound B xs :
  0 <= B -> Forall (fun x => 0 <= x < 2 ^ B) xs ->
  0 <= packed B xs < 2 ^ (B * Z.of_nat (length xs)).
Proof.
  intros HB. induction 1 as [|x r Hx Hr IH]; cbn [packed fold_right length].
  - rewrite Z.mul_0_r. cbn. lia.
  - fold (packed B r). rewrite Nat2Z.inj_succ. cbn beta in Hx.
    replace (B * Z.succ (Z.of_nat (length r))) with (B + B * Z.of_nat (length r)) by lia.
    rewrite Z.pow_add_r by lia. pose proof (pow2_pos B HB).
    assert (0 <= 2 ^ B * packed B r) by (apply Z.mul_nonneg_nonneg; lia).
    assert (2 ^ B * packed B r <= 2 ^ B * (2 ^ (B * Z.of_nat (length r)) - 1))
      by (apply Z.mul_le_mono_nonneg_l; lia).
    lia.
Qed.

Lemma appended_refl q : push_wf q -> appended q q 0 0.
Proof. intros H. unfold appended. split; [assumption|]. split; [lia | ring]. Qed.

Lemma appended_trans q q1 q2 w1 x1 w2 x2 :
  push_wf q -> 0 <= w1 ->
  appended q q1 w1 x1 -> appended q1 q2 w2 x2 ->
  appended q q2 (w1 + w2) (x1 + 2 ^ w1 * x2).
Proof.
  intros Hq Hw (Hwf1 & Hb1 & Hv1) (Hwf2 & Hb2 & Hv2).
  pose proof (pushed_bits_nonneg q Hq).
  split; [assumption|]. split; [lia|].
  rewrite Hv2, Hv1, Hb1. rewrite Z.pow_add_r by lia. ring.
Qed.

Lemma push_value_appended T B q val :
  push_wf q -> 0 < B < 64 -> 0 <= push_operand T B val < 2 ^ B ->
  appended q (push_value T B q val) B (push_operand T B val).
Proof. intros. apply push_value_spec; assumption. Qed.

Lemma push_back_span_appended T B values : forall q,
  push_wf q -> 0 <= B < 64 ->
  Forall (fun v => 0 <= push_operand T B v < 2 ^ B) values ->
  appended q (push_back_span T B values q)
    (B * Z.of_nat (length values)) (packed B (map (push_operand T B) values)).
Proof.
  intros q Hq HB Hall. unfold push_back_span.
  destruct (Z.eqb_spec B 0) as [->|HB0].
  - rewrite Z.mul_0_l.
    replace (packed 0 (map (push_operand T 0) values)) with 0.
    + apply appended_refl, Hq.
    + induction Hall as [|v r Hv Hr IH]; [reflexivity|].
      cbn [map packed fold_right]. fold (packed 0 (map (push_operand T 0) r)).
      rewrite <- IH. change (2 ^ 0) with 1 in Hv. lia.
  - revert q Hq. induction Hall as [|v r Hv Hr IH]; intros q Hq.
    + cbn. rewrite Z.mul_0_r. apply appended_refl, Hq.
    + cbn [fold_left map packed fold_right length].
      fold (packed B (map (push_operand T B) r)).
      pose proof (push_value_appended T B q v Hq ltac:(lia) Hv) as H1.
      pose proof (IH (push_value T B q v) (proj1 H1)) as H2.
      rewrite Nat2Z.inj_succ.
      replace (B * Z.succ (Z.of_nat (length r))) with (B + B * Z.of_nat (length r)) by lia.
      eapply appended_trans; eauto. lia.
Qed.

Lemma push_back_appended T B q val :
  push_wf q -> 0 < B < 64 -> 0 <= push_operand T B val < 2 ^ B ->
  appended q (push_back T B val q) B (push_operand T B val).
Proof.
  intros Hq HB Hx. unfold push_back, push_back_span.
  destruct (Z.eqb_spec B 0); [lia|]. cbn [fold_left].
  apply push_value_appended; assumption.
Qed.

Lemma PUSH_BITS_appended prevbits bits q :
  push_wf q -> 0 <= bits <= 64 ->
  snd (PUSH_BITS prevbits bits q) = bits /\
  appended q (fst (PUSH_BITS prevbits bits q))
    (header_bits prevbits bits) (header_value prevbits bits).
Proof.
  intros Hq Hb. unfold PUSH_BITS, header_bits, header_value. cbn [fst snd].
  split; [reflexivity|].
  destruct (prevbits =? bits).
  { apply (push_back_appended int_ 1 q 1 Hq); [lia | cbn; lia]. }
  destruct (Z.ltb_spec bits 7).
  { replace (2 * bits) with (push_operand size_t 4 (Z.shiftl bits 1))
      by (unfold push_operand; cbn [tsigned size_t uint64_t];
          rewrite Z.shiftl_mul_pow2 by lia; change (2 ^ 1) with 2; lia).
    apply (push_back_appended size_t 4 q _ Hq); [lia|].
    unfold push_operand. cbn [tsigned size_t uint64_t].
    rewrite Z.shiftl_mul_pow2 by lia. change (2 ^ 1) with 2. change (2 ^ 4) with 16. lia. }
  destruct (Z.ltb_spec bits 10).
  { replace (14 + 16 * (bits - 7))
      with (push_operand size_t 6 (14 + Z.shiftl (bits - 7) 4))
      by (unfold push_operand; cbn [tsigned size_t uint64_t];
          rewrite Z.shiftl_mul_pow2 by lia; change (2 ^ 4) with 16; lia).
    apply (push_back_appended size_t 6 q _ Hq); [lia|].
    unfold push_operand. cbn [tsigned size_t uint64_t].
    rewrite Z.shiftl_mul_pow2 by lia. change (2 ^ 4) with 16. change (2 ^ 6) with 64. lia. }
  replace (62 + 64 * (bits - 10))
    with (push_operand size_t 12 (62 + Z.shiftl (bits - 10) 6))
    by (unfold push_operand; cbn [tsigned size_t uint64_t];
        rewrite Z.shiftl_mul_pow2 by lia; change (2 ^ 6) with 64; lia).
  apply (push_back_appended size_t 12 q _ Hq); [lia|].
  unfold push_operand. cbn [tsigned size_t uint64_t].
  rewrite Z.shiftl_mul_pow2 by lia. change (2 ^ 6) with 64. change (2 ^ 12) with 4096. lia.
Qed.

Lemma header_bits_range prevbits bits : 1 <= header_bits prevbits bits <= 12.
Proof.
  unfold header_bits. destruct (prevbits =? bits); [lia|].
  destruct (bits <? 7); [lia|]. destruct (bits <? 10); lia.
Qed.

Lemma header_value_range prevbits bits :
  0 <= bits <= 64 -> 0 <= header_value prevbits bits < 2 ^ header_bits prevbits bits.
Proof.
  intros Hb. unfold header_bits, header_value. destruct (prevbits =? bits); [cbn; lia|].
  destruct (Z.ltb_spec bits 7); [change (2 ^ 4) with 16; lia|].
  destruct (Z.ltb_spec bits 10); [change (2 ^ 6) with 64; lia|].
  change (2 ^ 12) with 4096. lia.
Qed.

Lemma split_low U B x rest :
  0 <= B -> 0 <= x < 2 ^ B -> U = x + 2 ^ B * rest ->
  U mod 2 ^ B = x /\ U / 2 ^ B = rest.
Proof.
  intros HB Hx ->. pose proof (pow2_pos B HB).
  rewrite (Z.mul_comm (2 ^ B)). rewrite Z.mod_add, Z.div_add by lia.
  rewrite Z.mod_small, Z.div_small by lia. split; lia.
Qed.

(** A pop of [B] bits when the stream opens with the field [x]. *)
Lemma pop_field ndebug T B q x rest :
  pop_wf q -> 0 < B <= tbits T -> tbits T <= 64 -> B <= unread_bits q ->
  0 <= x < 2 ^ B -> unread q = x + 2 ^ B * rest ->
  exists q',
    pop ndebug T B q = Done (bits_value T B x, q') /\
    pop_wf q' /\ unread q' = rest /\
    unread_bits q' = unread_bits q - B /\ pp_mem q' = pp_mem q.
Proof.
  intros Hq HB HT Hav Hx HU.
  destruct (pop_value_spec ndebug T B q Hq HB HT Hav) as (q' & Hp & Hwf & Hun & Hbits & Hmem).
  destruct (split_low _ B x rest ltac:(lia) Hx HU) as [Hm Hd].
  exists q'. unfold pop. destruct (Z.eqb_spec B 0); [lia|].
  rewrite Hp, Hm. split; [reflexivity|]. split; [assumption|].
  split; [congruence|]. split; assumption.
Qed.

Lemma pop_loop_packed ndebug T B xs : forall q rest,
  pop_wf q -> 0 < B <= tbits T -> tbits T <= 64 ->
  B * Z.of_nat (length xs) <= unread_bits q ->
  Forall (fun x => 0 <= x < 2 ^ B) xs ->
  unread q = packed B xs + 2 ^ (B * Z.of_nat (length xs)) * rest ->
  exists q',
    pop_loop ndebug T B (length xs) q = Done (map (bits_value T B) xs, q') /\
    pop_wf q' /\ unread q' = rest /\
    unread_bits q' = unread_bits q - B * Z.of_nat (length xs) /\ pp_mem q' = pp_mem q.
Proof.
  induction xs as [|x r IH]; intros q rest Hq HB HT Hav Hall HU.
  - exists q. cbn [length pop_loop map]. change (Z.of_nat 0) with 0 in *.
    rewrite Z.mul_0_r in *. cbn [packed fold_right] in HU. change (2 ^ 0) with 1 in HU.
    split; [reflexivity|]. split; [assumption|]. split; [lia|]. split; [lia | reflexivity].
  - inversion Hall as [|? ? Hx Hr]; subst.
    cbn [length] in *. rewrite Nat2Z.inj_succ in *.
    replace (B * Z.succ (Z.of_nat (length r))) with (B + B * Z.of_nat (length r)) in * by lia.
    cbn [packed fold_right] in HU. fold (packed B r) in HU.
    rewrite Z.pow_add_r in HU by lia.
    assert (HU' : unread q = x + 2 ^ B * (packed B r + 2 ^ (B * Z.of_nat (length r)) * rest))
      by (rewrite HU; ring).
    destruct (pop_field ndebug T B q x _ Hq HB HT ltac:(lia) Hx HU')
      as (q1 & Hp & Hwf1 & Hun1 & Hb1 & Hm1).
    destruct (IH q1 rest Hwf1 HB HT ltac:(lia) Hr Hun1) as (q2 & Hp2 & Hwf2 & Hun2 & Hb2 & Hm2).
    exists q2. cbn [pop_loop map].
    unfold pop in Hp. destruct (Z.eqb_spec B 0); [lia|].
    rewrite Hp. cbn [obind]. rewrite Hp2. cbn [obind].
    split; [reflexivity|]. split; [assumption|]. split; [assumption|].
    split; [lia | congruence].
Qed.

Lemma cast_uint8_small x : 0 <= x < 256 -> cast uint8_t x = x.
Proof.
  intros H. unfold cast, wrap_unsigned. cbn [tsigned tbits uint8_t].
  change (2 ^ 8) with 256. apply Z.mod_small. lia.
Qed.

(** [BITS] reads back the header that [PUSH_BITS] wrote. *)
Lemma BITS_header ndebug prevbits bits q rest :
  pop_wf q -> 0 <= bits <= 64 ->
  header_bits prevbits bits <= unread_bits q ->
  unread q = header_value prevbits bits + 2 ^ header_bits prevbits bits * rest ->
  exists q',
    BITS ndebug prevbits q = Done (bits, q') /\
    pop_wf q' /\ unread q' = rest /\
    unread_bits q' = unread_bits q - header_bits prevbits bits /\
    pp_mem q' = pp_mem q.
Proof.
  intros Hq Hb. unfold header_bits, header_value, BITS.
  destruct (Z.eqb_spec prevbits bits) as [->|Hne].
  { intros Hav HU. change (2 ^ 1) with 2 in HU.
    pop_step pop_field ndebug 1 q 1 rest Hq HU Hav q1.
    exists q1. cbn [Z.eqb]. split; [reflexivity|].
    split; [assumption|]. split; [assumption|]. split; [lia | assumption]. }
  destruct (Z.ltb_spec bits 7) as [H7|H7].
  { intros Hav HU. change (2 ^ 4) with 16 in HU.
    pop_step pop_field ndebug 1 q 0 (bits + 2 ^ 3 * rest) Hq HU Hav q1.
    cbn [Z.eqb].
    pop_step pop_field ndebug 3 q1 bits rest Hwf Hun Hav q2.
    exists q2. destruct (Z.eqb_spec bits 7); [lia|].
    split; [reflexivity|]. split; [assumption|]. split; [assumption|].
    split; [lia | congruence]. }
  destruct (Z.ltb_spec bits 10) as [H10|H10].
  { intros Hav HU. change (2 ^ 6) with 64 in HU.
    pop_step pop_field ndebug 1 q 0 (7 + 2 ^ 3 * ((bits - 7) + 2 ^ 2 * rest)) Hq HU Hav q1.
    cbn [Z.eqb].
    pop_step pop_field ndebug 3 q1 7 ((bits - 7) + 2 ^ 2 * rest) Hwf Hun Hav q2.
    cbn [Z.eqb Pos.eqb].
    pop_step pop_field ndebug 2 q2 (bits - 7) rest Hwf0 Hun0 Hav q3.
    replace (7 + (bits - 7)) with bits by lia.
    rewrite cast_uint8_small by lia.
    exists q3. destruct (Z.eqb_spec bits 10); [lia|].
    split; [reflexivity|]. split; [assumption|]. split; [assumption|].
    split; [lia | congruence]. }
  intros Hav HU. change (2 ^ 12) with 4096 in HU.
  pop_step pop_field ndebug 1 q 0 (7 + 2 ^ 3 * (3 + 2 ^ 2 * ((bits - 10) + 2 ^ 6 * rest))) Hq HU Hav q1.
  cbn [Z.eqb].
  pop_step pop_field ndebug 3 q1 7 (3 + 2 ^ 2 * ((bits - 10) + 2 ^ 6 * rest)) Hwf Hun Hav q2.
  cbn [Z.eqb Pos.eqb].
  pop_step pop_field ndebug 2 q2 3 ((bits - 10) + 2 ^ 6 * rest) Hwf0 Hun0 Hav q3.
  change (cast uint8_t (7 + 3)) with 10. cbn [Z.eqb Pos.eqb].
  pop_step pop_field ndebug 6 q3 (bits - 10) rest Hwf1 Hun1 Hav q4.
  replace (10 + (bits - 10)) with bits by lia.
  rewrite cast_uint8_small by lia.
  exists q4. split; [reflexivity|]. split; [assumption|]. split; [assumption|].
  split; [lia | congruence].
Qed.

Lemma firstn_word_bytes n : forall k w,
  firstn k (word_bytes n w) = word_bytes (Nat.min k n) w.
Proof.
  induction n as [|m IH]; intros [|k] w; cbn [word_bytes firstn Nat.min]; try reflexivity.
  f_equal. apply IH.
Qed.

Lemma operand_fits T B v :
  0 < B <= tbits T -> fits T B v ->
  0 <= push_operand T B v < 2 ^ B /\ bits_value T B (push_operand T B v) = v.
Proof.
  intros HB. unfold fits, push_operand, bits_value. destruct (tsigned T).
  - intros Hv. rewrite Z.land_ones by lia. unfold to_unsigned, wrap_unsigned.
    rewrite mod_mod_pow2 by lia. pose proof (pow2_pos B ltac:(lia)).
    split; [apply Z.mod_pos_bound; lia|].
    unfold wrap_signed. rewrite Zplus_mod_idemp_l.
    apply (wrap_signed_small B v); lia.
  - intros Hv. split; [exact Hv | reflexivity].
Qed.

Lemma signed_operand_range T B v :
  tsigned T = true -> 0 <= B -> 0 <= push_operand T B v < 2 ^ B.
Proof.
  intros Hs HB. unfold push_operand. rewrite Hs, Z.land_ones by lia.
  apply Z.mod_pos_bound. apply pow2_pos. lia.
Qed.

(** What the container holds once the queue is destroyed, cut at any byte
    behind the last bit. *)
Lemma flushed_prefix q k :
  push_wf q -> pb_buffered_bits q <= 8 * Z.of_nat k ->
  let c := firstn (length (pb_mem q) + k) (flush_buffer q) in
  bytes_word c = pushed_value q /\ Forall is_byte c /\
  length c = (length (pb_mem q) + Nat.min k 8)%nat.
Proof.
  intros (Hm & Hl & Hb & Hv) Hk. unfold flush_buffer, pushed_value. cbn zeta.
  rewrite firstn_app, firstn_all2 by lia.
  replace (length (pb_mem q) + k - length (pb_mem q))%nat with k by lia.
  rewrite firstn_word_bytes.
  split; [|split].
  - rewrite bytes_word_app by assumption. rewrite bytes_word_word_bytes.
    rewrite Z.mod_small; [ring|].
    split; [lia|]. apply Z.lt_le_trans with (2 ^ pb_buffered_bits q); [lia|].
    apply Z.pow_le_mono_r; lia.
  - apply Forall_app. split; [assumption | apply word_bytes_byte].
  - rewrite length_app, word_bytes_length. reflexivity.
Qed.

Lemma pop_ctor_spec ndebug c :
  Forall is_byte c -> (length c mod 8 = 0)%nat -> (8 <= length c)%nat ->
  exists q,
    pop_ctor ndebug c = Done q /\ pop_wf q /\ unread q = bytes_word c /\
    unread_bits q = 8 * Z.of_nat (length c) /\ pp_mem q = c.
Proof.
  intros Hc Hl H8. unfold pop_ctor, load_word.
  rewrite Hl. cbn [Nat.eqb]. rewrite assert_true. cbn [obind].
  replace ((0 + 8 <=? length c)%nat) with true by (symmetry; apply Nat.leb_le; lia).
  cbn [obind]. eexists. split; [reflexivity|].
  unfold pop_wf, unread, unread_bits. cbn [pp_mem pp_data pp_buffer pp_buffered_bits skipn].
  change (64 - 64) with 0. change (2 ^ 0) with 1. rewrite !Z.div_1_r.
  split; [|split; [reflexivity | split; [lia | reflexivity]]].
  split; [assumption|]. split; [assumption|]. split; [reflexivity|].
  split; [lia|]. split; [lia | reflexivity].
Qed.

Lemma pop_span_packed ndebug T B xs q rest :
  pop_wf q -> 0 <= B <= tbits T -> tbits T <= 64 ->
  B * Z.of_nat (length xs) <= unread_bits q ->
  Forall (fun x => 0 <= x < 2 ^ B) xs ->
  unread q = packed B xs + 2 ^ (B * Z.of_nat (length xs)) * rest ->
  exists q',
    pop_span ndebug T B (length xs) q = Done (map (bits_value T B) xs, q') /\
    pop_wf q' /\ unread q' = rest /\
    unread_bits q' = unread_bits q - B * Z.of_nat (length xs) /\ pp_mem q' = pp_mem q.
Proof.
  intros Hq HB HT Hav Hall HU. unfold pop_span.
  destruct (Z.eqb_spec B 0) as [->|HB0].
  - exists q. rewrite Z.mul_0_l in *. change (2 ^ 0) with 1 in *.
    assert (Hz : xs = repeat 0 (length xs) /\ packed 0 xs = 0).
    { clear HU. induction Hall as [|x r Hx Hr IH]; [split; reflexivity|].
      destruct IH as [IH1 IH2]. cbn [length repeat packed fold_right].
      fold (packed 0 r). rewrite IH2. change (2 ^ 0) with 1.
      assert (x = 0) by lia. subst x. split; [f_equal; exact IH1 | reflexivity]. }
    destruct Hz as [Hz1 Hz2]. rewrite Hz2 in HU.
    split.
    + f_equal. f_equal. rewrite Hz1 at 2. rewrite map_repeat.
      unfold bits_value. destruct (tsigned T); reflexivity.
    + split; [assumption|]. split; [lia|]. split; [lia | reflexivity].
  - apply pop_loop_packed; try assumption. lia.
Qed.

(** X10 (push, then pop). Values pushed with a width of fewer than 64 bits
    that carries each of them are popped unchanged, in the same order, from
    the container the push queue leaves behind, whatever follows its last
    word. *)
Theorem pop_returns_what_was_pushed ndebug T B values tail :
  0 < B <= tbits T -> tbits T <= 64 -> B < 64 ->
  Forall (fits T B) values ->
  Forall is_byte tail -> (length tail mod 8 = 0)%nat ->
  (q <- pop_ctor ndebug (flush_buffer (push_back_span T B values push_init) ++ tail) ;;
   '(l, _) <- pop_span ndebug T B (length values) q ;;
   Done l) = Done values.
Proof.
  intros HB HT H64 Hfit Htail Hlt.
  assert (Hops : Forall (fun v => 0 <= push_operand T B v < 2 ^ B) values).
  { eapply Forall_impl; [|exact Hfit]. intros v Hv. apply operand_fits; assumption. }
  pose proof (push_back_span_appended T B values push_init push_init_wf ltac:(lia) Hops)
    as (Hwf & Hbits & Hval).
  set (q := push_back_span T B values push_init) in *.
  change (pushed_bits push_init) with 0 in *. change (pushed_value push_init) with 0 in *.
  change (2 ^ 0) with 1 in Hval. rewrite Z.add_0_l, Z.mul_1_r in Hval.
  rewrite Z.add_0_l in Hbits.
  pose proof (flushed_prefix q 8 Hwf) as Hfl.
  destruct Hwf as (Hm & Hl & Hb & Hv).
  specialize (Hfl ltac:(lia)). cbn zeta in Hfl.
  assert (Hlen : length (flush_buffer q) = (length (pb_mem q) + 8)%nat)
    by (unfold flush_buffer; rewrite length_app, word_bytes_length; reflexivity).
  rewrite firstn_all2 in Hfl by lia. destruct Hfl as (Hfv & Hfb & _).
  destruct (pop_ctor_spec ndebug (flush_buffer q ++ tail)) as (p & Hp & Hpw & Hun & Hub & Hpm).
  { apply Forall_app; split; assumption. }
  { rewrite length_app, Hlen.
    rewrite Nat.Div0.add_mod, (Nat.Div0.add_mod _ 8), Hl, Hlt by lia. reflexivity. }
  { rewrite length_app, Hlen. lia. }
  rewrite Hp. cbn [obind].
  rewrite bytes_word_app, Hfv, Hval, Hlen in Hun by assumption.
  destruct (pop_span_packed ndebug T B (map (push_operand T B) values) p
              (2 ^ (8 * Z.of_nat (length (pb_mem q) + 8)
                    - B * Z.of_nat (length values)) * bytes_word tail))
    as (p' & Hpop & _).
  - assumption.
  - lia.
  - assumption.
  - rewrite length_map, Hub, length_app, Hlen. unfold pushed_bits in Hbits. lia.
  - rewrite Forall_map. exact Hops.
  - rewrite Hun, length_map. f_equal. rewrite Z.mul_assoc. f_equal.
    rewrite <- Z.pow_add_r; [f_equal; lia | lia |].
    unfold pushed_bits in Hbits. lia.
  - rewrite length_map in Hpop. rewrite Hpop. cbn [obind]. f_equal.
    rewrite map_map. rewrite <- (map_id values) at 2.
    apply map_ext_in. intros v Hv'. rewrite Forall_forall in Hfit.
    apply operand_fits; auto.
Qed.

Lemma pop_returns_what_was_pushed_witness :
  (q <- pop_ctor false (flush_buffer (push_back_span int16_t 5 [-3; 7; -16] push_init) ++ []) ;;
   '(l, _) <- pop_span false int16_t 5 (length [-3; 7; -16]) q ;;
   Done l) = Done [-3; 7; -16].
Proof.
  apply (pop_returns_what_was_pushed false int16_t 5 [-3; 7; -16] []).
  - cbn. lia.
  - cbn. lia.
  - lia.
  - repeat constructor; vm_compute; intuition discriminate.
  - constructor.
  - reflexivity.
Defined.

(** X11 (header of a block). For every width from 0 to 64 and every
    previous width, [BITS] reads back from the stream the width that
    [PUSH_BITS] wrote. *)
Theorem bits_reads_push_bits ndebug prevbits bits :
  0 <= bits <= 64 ->
  (q <- pop_ctor ndebug (flush_buffer (fst (PUSH_BITS prevbits bits push_init))) ;;
   '(b, _) <- BITS ndebug prevbits q ;;
   Done b) = Done bits.
Proof.
  intros Hb.
  destruct (PUSH_BITS_appended prevbits bits push_init push_init_wf Hb) as [_ Happ].
  set (q := fst (PUSH_BITS prevbits bits push_init)) in *.
  destruct Happ as (Hwf & Hbits & Hval).
  change (pushed_bits push_init) with 0 in *. change (pushed_value push_init) with 0 in *.
  change (2 ^ 0) with 1 in Hval. rewrite Z.add_0_l, Z.mul_1_r in Hval.
  rewrite Z.add_0_l in Hbits.
  pose proof (header_bits_range prevbits bits) as Hhb.
  pose proof (flushed_prefix q 8 Hwf) as Hfl.
  pose proof Hwf as (Hm & Hl & Hbb & Hv).
  specialize (Hfl ltac:(lia)). cbn zeta in Hfl.
  assert (Hlen : length (flush_buffer q) = (length (pb_mem q) + 8)%nat)
    by (unfold flush_buffer; rewrite length_app, word_bytes_length; reflexivity).
  rewrite firstn_all2 in Hfl by lia. destruct Hfl as (Hfv & Hfb & _).
  destruct (pop_ctor_spec ndebug (flush_buffer q) Hfb) as (p & Hp & Hpw & Hun & Hub & _).
  { rewrite Hlen, Nat.Div0.add_mod, Hl by lia. reflexivity. }
  { lia. }
  rewrite Hp. cbn [obind].
  destruct (BITS_header ndebug prevbits bits p 0 Hpw Hb) as (p' & HB & _).
  - rewrite Hub, Hlen. unfold pushed_bits in Hbits. lia.
  - rewrite Hun, Hfv, Hval. ring.
  - rewrite HB. reflexivity.
Qed.

Lemma bits_reads_push_bits_witness :
  (q <- pop_ctor false (flush_buffer (fst (PUSH_BITS 3 12 push_init))) ;;
   '(b, _) <- BITS false 3 q ;;
   Done b) = Done 12.
Proof. apply (bits_reads_push_bits false 3 12). lia. Defined.

(** X12 ([skip] and the scratch word). [skip] leaves the scratch word as
    it is: when the [B] bits skipped and the [B'] bits of the next pop are
    all in the scratch word, that pop hands out the bits that were at the
    front before the call, not the ones behind the skipped bits. *)
Theorem skip_keeps_the_scratch_word ndebug T B B' q :
  0 <= B -> 0 < B' -> B + B' <= pp_buffered_bits q ->
  (r <- pop ndebug T B' (skip B q) ;; Done (fst r)) =
  (r <- pop ndebug T B' q ;; Done (fst r)).
Proof.
  intros HB HB' Hsum. unfold skip.
  destruct (Z.leb_spec B (pp_buffered_bits q)) as [_|Hgt]; [|lia].
  unfold pop. destruct (Z.eqb_spec B' 0); [lia|].
  unfold pop_value. cbn [pp_mem pp_data pp_buffer pp_buffered_bits].
  destruct (assert_ ndebug (B' <=? tbits T)); cbn [obind]; try reflexivity.
  destruct (tbits T <? B'); [reflexivity|].
  destruct (Z.leb_spec B' (pp_buffered_bits q - B)) as [_|Hgt]; [|lia].
  destruct (Z.leb_spec B' (pp_buffered_bits q)) as [_|Hgt]; [|lia].
  destruct (B' =? 64); reflexivity.
Qed.

Lemma skip_keeps_the_scratch_word_witness :
  (r <- pop false uint8_t 3 (skip 4 (overload_queue 173 64)) ;; Done (fst r)) =
  (r <- pop false uint8_t 3 (overload_queue 173 64) ;; Done (fst r)).
Proof. apply (skip_keeps_the_scratch_word false uint8_t 4 3); cbn; lia. Defined.

(** * Mode [Signed]: the decoder reads what the encoder wrote *)

Lemma extends_refl q : push_wf q -> extends q q.
Proof.
  intros H. split; [assumption|]. split; [lia|].
  apply Z.mod_small. apply pushed_value_bound. exact H.
Qed.

Lemma appended_extends q q' w x :
  push_wf q -> 0 <= w -> appended q q' w x -> extends q q'.
Proof.
  intros Hq Hw (Hwf & Hb & Hv). split; [assumption|]. split; [lia|].
  rewrite Hv. pose proof (pushed_bits_nonneg q Hq).
  rewrite Z.mod_add by (pose proof (pow2_pos (pushed_bits q)); lia).
  apply Z.mod_small. apply pushed_value_bound. exact Hq.
Qed.

Lemma extends_trans q q1 q2 :
  push_wf q -> extends q q1 -> extends q1 q2 -> extends q q2.
Proof.
  intros Hq (Hwf1 & Hb1 & Hv1) (Hwf2 & Hb2 & Hv2).
  pose proof (pushed_bits_nonneg q Hq).
  split; [assumption|]. split; [lia|].
  rewrite <- (mod_mod_pow2 _ (pushed_bits q) (pushed_bits q1)) by lia.
  rewrite Hv2. exact Hv1.
Qed.

(** What a queue that extends [q] by [w] bits [x] and then more looks like
    from the end of [q]. *)
Lemma extends_view q q1 qF w x :
  push_wf q -> 0 <= w -> 0 <= x < 2 ^ w ->
  appended q q1 w x -> extends q1 qF ->
  pushed_value qF / 2 ^ pushed_bits q =
    x + 2 ^ w * (pushed_value qF / 2 ^ pushed_bits q1).
Proof.
  intros Hq Hw Hx (Hwf1 & Hb1 & Hv1) (HwfF & HbF & HvF).
  pose proof (pushed_bits_nonneg q Hq) as Hn.
  pose proof (pushed_value_bound q Hq) as HV.
  pose proof (pow2_pos (pushed_bits q) Hn) as Hp.
  pose proof (pow2_pos (pushed_bits q1) ltac:(lia)) as Hp1.
  pose proof (Z.div_mod (pushed_value qF) (2 ^ pushed_bits q1) ltac:(lia)) as Hdm.
  rewrite HvF, Hv1 in Hdm.
  set (G := pushed_value qF / 2 ^ pushed_bits q1) in *.
  rewrite Hdm. rewrite Hb1. rewrite Z.pow_add_r by lia.
  replace (2 ^ pushed_bits q * 2 ^ w * G + (pushed_value q + x * 2 ^ pushed_bits q))
    with (pushed_value q + (x + 2 ^ w * G) * 2 ^ pushed_bits q) by ring.
  rewrite Z.div_add by lia. rewrite Z.div_small by lia. ring.
Qed.

(** The encoder returns a frame only when the bit stream has stayed inside
    the vector; the frame is then the bytes of the stream. *)
Lemma finish_done v q frame :
  finish v q = Done frame ->
  frame_bytes q = frame /\ tf_defined v = true /\
  (push_distance q <= tf_size v)%nat /\ (pb_data q + 8 <= tf_size v)%nat.
Proof.
  unfold finish. intros H.
  destruct (tf_defined v); [|discriminate H].
  destruct (Nat.leb_spec (push_distance q) (tf_size v)); [|discriminate H].
  destruct (Nat.leb_spec (pb_data q + 8) (tf_size v)); [|discriminate H].
  inversion H. repeat split; assumption.
Qed.

Section Signed.

Variable T : int_type.
Hypothesis Hsigned : tsigned T = true.
Hypothesis Hbits : tbits T = 8 \/ tbits T = 16 \/ tbits T = 32.

Lemma supported : supported_signed T.
Proof. split; [exact Hsigned | tauto]. Qed.

Lemma block_round bl :
  Forall (abs_defined T) bl ->
  let w := f_most_significant_bit T bl in
  0 <= w <= tbits T /\
  map (bits_value T w) (map (push_operand T w) bl) = bl.
Proof.
  intros Hbl. cbn zeta.
  rewrite (f_most_significant_bit_signed T bl supported Hbl).
  pose proof (list_max_nonneg (map magnitude_width bl)) as Hnn.
  assert (HP : 0 < tbits T) by (destruct Hbits as [-> | [-> | ->]]; lia).
  set (w := Z.min (list_max (map magnitude_width bl)) (tbits T)).
  split; [unfold w; lia|].
  rewrite map_map. rewrite <- (map_id bl) at 2. apply map_ext_in. intros v Hv.
  assert (Hmw : magnitude_width v <= list_max (map magnitude_width bl))
    by (apply list_max_ge, in_map, Hv).
  rewrite Forall_forall in Hbl. destruct (Hbl v Hv) as [Hr _].
  destruct (Z.eq_dec w 0) as [Hw0|Hw0].
  - assert (v = 0) by (apply magnitude_width_zero; unfold w in Hw0; lia).
    subst v. rewrite Hw0. unfold push_operand, bits_value. rewrite Hsigned.
    rewrite Z.land_0_r. reflexivity.
  - apply operand_fits; [unfold w; lia|].
    unfold fits. rewrite Hsigned.
    destruct (Z.le_gt_cases (list_max (map magnitude_width bl)) (tbits T)) as [Hle|Hgt].
    + apply magnitude_width_fits; unfold w in *; lia.
    + replace w with (tbits T) by (unfold w; lia).
      unfold in_range, numeric_min, numeric_max in Hr. rewrite Hsigned in Hr. lia.
Qed.

Variables (t : Terse) (data : list Z).
Hypothesis Hdata : Forall (abs_defined T) data.

Lemma span_abs_defined from to : Forall (abs_defined T) (span_of data from to).
Proof. unfold span_of. apply Forall_firstn, Forall_skipn, Hdata. Qed.

(** One block of the encoder: a header and the values of the block. *)
Lemma compress_block_appended from s :
  push_wf (cs_queue s) ->
  let bl := span_of data from (Nat.min (d_size t) (from + d_block t)) in
  let w := f_most_significant_bit T bl in
  let s1 := compress_block Signed T t data from s in
  cs_prevbits s1 = w /\
  appended (cs_queue s) (cs_queue s1)
    (header_bits (cs_prevbits s) w + w * Z.of_nat (length bl))
    (header_value (cs_prevbits s) w
     + 2 ^ header_bits (cs_prevbits s) w * packed w (map (push_operand T w) bl)).
Proof.
  intros Hq. cbn zeta. unfold compress_block.
  set (bl := span_of data from (Nat.min (d_size t) (from + d_block t))).
  set (w := f_most_significant_bit T bl).
  destruct (block_round bl (span_abs_defined _ _)) as [Hw _]. fold w in Hw.
  assert (Hw64 : 0 <= w <= 64) by (destruct Hbits as [E | [E | E]]; rewrite E in Hw; lia).
  destruct (PUSH_BITS_appended (cs_prevbits s) w (cs_queue s) Hq Hw64) as [Hsnd Happ].
  destruct (PUSH_BITS (cs_prevbits s) w (cs_queue s)) as [q1 prev1] eqn:E.
  cbn [fst snd] in *. subst prev1. cbn [cs_queue cs_prevbits].
  split; [reflexivity|].
  pose proof (header_bits_range (cs_prevbits s) w).
  eapply appended_trans; [exact Hq | lia | exact Happ |].
  apply push_back_span_appended; [exact (proj1 Happ) | |].
  - destruct Hbits as [E' | [E' | E']]; rewrite E' in Hw; lia.
  - apply Forall_forall. intros v _. apply signed_operand_range; [exact Hsigned | lia].
Qed.

Lemma compress_loop_extends fuel : forall from s,
  push_wf (cs_queue s) ->
  extends (cs_queue s) (cs_queue (compress_loop fuel Signed T t data from s)).
Proof.
  induction fuel as [|k IH]; intros from s Hq; cbn [compress_loop].
  - destruct (from <? d_size t)%nat; apply extends_refl, Hq.
  - destruct (from <? d_size t)%nat; [|apply extends_refl, Hq].
    destruct (compress_block_appended from s Hq) as [_ Happ].
    pose proof (header_bits_range (cs_prevbits s)
                  (f_most_significant_bit T
                     (span_of data from (Nat.min (d_size t) (from + d_block t))))).
    destruct (block_round _ (span_abs_defined from (Nat.min (d_size t) (from + d_block t))))
      as [Hw _].
    eapply extends_trans; [exact Hq | | apply IH; exact (proj1 Happ)].
    eapply appended_extends; [exact Hq | | exact Happ].
    apply Z.add_nonneg_nonneg; [lia | apply Z.mul_nonneg_nonneg; lia].
Qed.

Hypothesis Hsize : d_size t = length data.

Lemma span_step from :
  (from < d_size t)%nat ->
  let to := Nat.min (d_size t) (from + d_block t) in
  length (span_of data from to) = (to - from)%nat /\
  span_of data from to ++ skipn (from + d_block t) data = skipn from data.
Proof.
  intros Hlt. cbn zeta. unfold span_of. split.
  - rewrite length_firstn, length_skipn. lia.
  - destruct (Nat.le_gt_cases (from + d_block t) (d_size t)) as [Hle|Hgt].
    + rewrite Nat.min_r by lia.
      replace (from + d_block t - from)%nat with (d_block t) by lia.
      rewrite <- (firstn_skipn (d_block t) (skipn from data)) at 2.
      rewrite skipn_skipn. rewrite (Nat.add_comm (d_block t)). reflexivity.
    + rewrite Nat.min_l by lia.
      rewrite (@skipn_all2 _ (from + d_block t)%nat data) by lia. rewrite app_nil_r.
      apply firstn_all2. rewrite length_skipn. lia.
Qed.

Variables (ndebug : bool) (t' : Terse).
Hypothesis Hblock : (0 < d_block t)%nat.
Hypothesis Hsize' : d_size t' = d_size t.
Hypothesis Hblock' : d_block t' = d_block t.

(** The decoder, placed where the encoder stood, reads back what the
    encoder went on to write. *)
Lemma prolix_signed_loop_reads fuel : forall from s q out,
  push_wf (cs_queue s) -> pop_wf q ->
  let qF := cs_queue (compress_loop fuel Signed T t data from s) in
  unread q = pushed_value qF / 2 ^ pushed_bits (cs_queue s) ->
  pushed_bits qF - pushed_bits (cs_queue s) <= unread_bits q ->
  (d_size t <= from + fuel * d_block t)%nat ->
  prolix_signed_loop fuel ndebug T t' from (cs_prevbits s) q out
  = Done (out ++ skipn from data).
Proof.
  induction fuel as [|k IH]; intros from s q out Hq Hp; cbn zeta;
    cbn [compress_loop prolix_signed_loop]; intros Hsync Hav Hfuel.
  - rewrite skipn_all2 by lia. rewrite app_nil_r. reflexivity.
  - rewrite Hsize', Hblock'.
    destruct (Nat.ltb_spec from (d_size t)) as [Hlt|Hge].
    2:{ rewrite skipn_all2 by lia. rewrite app_nil_r. reflexivity. }
    set (to := Nat.min (d_size t) (from + d_block t)) in *.
    set (bl := span_of data from to) in *.
    set (w := f_most_significant_bit T bl) in *.
    destruct (compress_block_appended from s Hq) as [Hprev Happ].
    fold to bl w in Hprev, Happ.
    set (s1 := compress_block Signed T t data from s) in *.
    set (qF := cs_queue (compress_loop k Signed T t data (from + d_block t) s1)) in *.
    pose proof (compress_loop_extends k (from + d_block t) s1 (proj1 Happ)) as Hext.
    fold qF in Hext.
    destruct (block_round bl (span_abs_defined from to)) as [Hw Hround]. fold w in Hw, Hround.
    assert (Hw32 : 0 <= w <= 32) by (destruct Hbits as [E | [E | E]]; rewrite E in Hw; lia).
    pose proof (header_bits_range (cs_prevbits s) w) as Hhb.
    pose proof (header_value_range (cs_prevbits s) w ltac:(lia)) as Hhv.
    assert (Hnn : 0 <= w * Z.of_nat (length bl)) by (apply Z.mul_nonneg_nonneg; lia).
    assert (Hops : Forall (fun x => 0 <= x < 2 ^ w) (map (push_operand T w) bl)).
    { rewrite Forall_map. apply Forall_forall. intros v _.
      apply signed_operand_range; [exact Hsigned | lia]. }
    pose proof (packed_bound w _ ltac:(lia) Hops) as Hpk. rewrite length_map in Hpk.
    destruct (span_step from Hlt) as [Hlen Hcat]. fold to bl in Hlen, Hcat.
    set (hb := header_bits (cs_prevbits s) w) in *.
    set (hv := header_value (cs_prevbits s) w) in *.
    set (P := packed w (map (push_operand T w) bl)) in *.
    assert (Hx : 0 <= hv + 2 ^ hb * P < 2 ^ (hb + w * Z.of_nat (length bl))).
    { rewrite Z.pow_add_r by lia. pose proof (pow2_pos hb ltac:(lia)).
      assert (0 <= 2 ^ hb * P) by (apply Z.mul_nonneg_nonneg; lia).
      assert (2 ^ hb * P <= 2 ^ hb * (2 ^ (w * Z.of_nat (length bl)) - 1))
        by (apply Z.mul_le_mono_nonneg_l; lia).
      lia. }
    pose proof (extends_view (cs_queue s) (cs_queue s1) qF
                  (hb + w * Z.of_nat (length bl)) (hv + 2 ^ hb * P)
                  Hq ltac:(lia) Hx Happ Hext) as Hview.
    rewrite Hview in Hsync. rewrite Z.pow_add_r in Hsync by lia.
    set (G := pushed_value qF / 2 ^ pushed_bits (cs_queue s1)) in *.
    assert (Hsync1 : unread q = hv + 2 ^ hb * (P + 2 ^ (w * Z.of_nat (length bl)) * G))
      by (rewrite Hsync; ring).
    destruct Happ as (Hwf1 & Hb1 & _). destruct Hext as (_ & HbF & _).
    destruct (BITS_header ndebug (cs_prevbits s) w q _ Hp ltac:(lia) ltac:(fold hb; lia) Hsync1)
      as (q1 & HB & Hp1 & Hun1 & Hub1 & _).
    rewrite HB. cbn [obind].
    destruct (pop_span_packed ndebug T w (map (push_operand T w) bl) q1 G Hp1)
      as (q2 & HP & Hp2 & Hun2 & Hub2 & _).
    + lia.
    + destruct Hbits as [E | [E | E]]; rewrite E; lia.
    + rewrite length_map. fold hb in Hub1. lia.
    + exact Hops.
    + rewrite length_map. exact Hun1.
    + rewrite length_map, Hlen in HP. unfold POP. rewrite HP. cbn [obind].
      rewrite Hround. rewrite <- Hprev.
      rewrite (IH (from + d_block t)%nat s1 q2 (out ++ bl) Hwf1 Hp2).
      * rewrite <- app_assoc, Hcat. reflexivity.
      * exact Hun2.
      * rewrite length_map in Hub2. fold qF. fold hb in Hub1. lia.
      * lia.
Qed.

End Signed.

(** The frame a queue leaves: its bytes are the stream, and it is long
    enough for every bit pushed. *)
Lemma frame_bytes_spec q :
  push_wf q ->
  bytes_word (frame_bytes q) = pushed_value q /\ Forall is_byte (frame_bytes q) /\
  pushed_bits q <= 8 * Z.of_nat (length (frame_bytes q)).
Proof.
  intros Hq. unfold frame_bytes, push_distance, pb_data.
  pose proof Hq as (_ & _ & Hb & _).
  pose proof (Z.div_mod (pb_buffered_bits q + 7) 8 ltac:(lia)) as Hdm.
  pose proof (Z.mod_pos_bound (pb_buffered_bits q + 7) 8 ltac:(lia)) as Hmb.
  destruct (flushed_prefix q (Z.to_nat ((pb_buffered_bits q + 7) / 8)) Hq) as (Hv & Hf & Hl).
  { rewrite Z2Nat.id by (apply Z.div_pos; lia). lia. }
  split; [exact Hv|]. split; [exact Hf|].
  rewrite Hl. unfold pushed_bits.
  assert ((pb_buffered_bits q + 7) / 8 <= 8) by lia.
  rewrite Nat.min_l by lia. rewrite Nat2Z.inj_add, Z2Nat.id by (apply Z.div_pos; lia).
  lia.
Qed.

(** The vector grows with the frame: two blocks of 5 and nine values 3.
    The first word is copied into the 24 bytes the vector is created with,
    the vector gets 37 bytes at the head of the third block, and the frame
    of 16 bytes is returned and decompressed to the values. *)
Lemma enlarged_vector_round_trip :
  initial_size int16_t 31 11 = 24%nat /\
  grown_size 24 31 22 = Some 37%nat /\
  compressed false int16_t 11 Signed (repeat 5 22 ++ repeat 3 9)
  = Done [[88; 85; 85; 85; 85; 85; 171; 170; 170; 170; 170; 202; 182; 109; 219; 6]] /\
  roundtrip false int16_t 11 Signed (repeat 5 22 ++ repeat 3 9)
  = Done (repeat 5 22 ++ repeat 3 9).
Proof. repeat split; vm_compute; reflexivity. Qed.

(** The frame outgrows the vector: three blocks of three values in a vector
    of 8 bytes. The third block fills the first word, and the final
    [resize] takes the vector from 8 to 16 bytes while the bit queue keeps
    the pointer it had. *)
Lemma outgrown_vector_is_undefined :
  initial_size int16_t 9 3 = 8%nat /\
  compressed false int16_t 3 Signed [8192; 0; 0; 0; 0; 0; 16384; 0; 0] = Undefined.
Proof. split; vm_compute; reflexivity. Qed.

(** X13 (round trip, mode [Signed]). For the signed types of 8, 16 and 32
    bits and every block size other than 0: when the encoder returns a
    frame, which it does when its bit stream stays inside the output
    vector, and the frame is a whole number of 8-byte words long and does
    not open with one of the two 18-bit mode prefixes, [prolix] returns
    exactly the values the frame was compressed from, in both builds. *)
Theorem signed_round_trip ndebug T block data frame :
  tsigned T = true -> tbits T = 8 \/ tbits T = 16 \/ tbits T = 32 ->
  (0 < block)%nat -> Forall (abs_defined T) data ->
  compressed ndebug T block Signed data = Done [frame] ->
  (8 <= length frame)%nat -> (length frame mod 8 = 0)%nat ->
  opens_with_prefix frame = false ->
  roundtrip ndebug T block Signed data = Done data.
Proof.
  intros Hs Hb Hblock Hdata Hc H8 Hmod Hpre.
  unfold compressed, roundtrip, block_size, push_back_frame, insert,
    f_validate_insert in *.
  cbn [obind Terse_empty number_of_frames d_terse_frames length Nat.eqb Nat.leb
       d_signed d_small d_block d_size d_prolix_bits d_dim d_metadata] in *.
  rewrite Hs in *. cbn [implb] in *.
  change ((0 <=? 0)%nat) with true in *. rewrite !assert_true in *.
  cbn [obind d_signed implb] in *.
  set (t1 := {| d_terse_frames := []; d_signed := true; d_small := false;
                d_block := block; d_size := length data;
                d_prolix_bits := Z.max 0 (8 * Z.of_nat (sizeof T));
                d_dim := []; d_metadata := [] |}) in *.
  apply obind_done in Hc. destruct Hc as (tc & Hcomp & Hc).
  apply obind_done in Hcomp. destruct Hcomp as (fr & Hcomp & Htc).
  assert (Hfr : fr = frame).
  { inversion Htc; subst tc. cbn in Hc. inversion Hc. reflexivity. }
  subst fr. clear Hc Htc tc.
  rewrite Hcomp. cbn [obind].
  unfold f_compress in Hcomp. rewrite Hs in Hcomp. unfold f_compress_plain in Hcomp.
  cbn zeta in Hcomp.
  apply obind_done in Hcomp. destruct Hcomp as (q0 & Hctor & Hcomp).
  assert (q0 = push_init).
  { unfold push_ctor in Hctor. apply obind_done in Hctor.
    destruct Hctor as (_ & _ & Hctor). inversion Hctor. reflexivity. }
  subst q0.
  set (s0 := {| cs_vector := {| tf_size := initial_size T (d_size t1) (d_block t1);
                               tf_defined := true |};
                cs_queue := push_init; cs_prevbits := 0; cs_prevmasked_bits := 0;
                cs_buffer := repeat 0 (d_block t1) |}) in *.
  set (sF := compress_loop (d_size t1) Signed T t1 data 0 s0) in *.
  set (t2 := set_frames t1 (vector_insert 0 frame (d_terse_frames t1))
               (vector_insert 0 (Chars EmptyString) (d_metadata t1))).
  assert (Hext : extends push_init (cs_queue sF)).
  { apply compress_loop_extends; try assumption. exact push_init_wf. }
  destruct Hext as (HwfF & _ & _).
  destruct (frame_bytes_spec (cs_queue sF) HwfF) as (Hval & Hbytes & Hlen).
  assert (Hframe : frame_bytes (cs_queue sF) = frame) by (apply (finish_done _ _ _ Hcomp)).
  rewrite Hframe in Hval, Hbytes, Hlen.
  destruct (pop_ctor_spec ndebug frame Hbytes Hmod H8) as (p & Hp & Hpw & Hun & Hub & Hpm).
  unfold prolix, f_prolix.
  change (nth 0 (d_terse_frames t2) []) with frame.
  change ((0 <? number_of_frames t2)%nat) with true.
  rewrite assert_true. cbn [obind]. rewrite Hp. cbn [obind].
  destruct (pop_value_spec ndebug size_t 18 p Hpw) as (p1 & Hpop & _).
  { cbn [tbits size_t uint64_t]. lia. }
  { cbn [tbits size_t uint64_t]. lia. }
  { lia. }
  unfold pop. change (18 =? 0) with false. rewrite Hpop. cbn [obind].
  unfold bits_value. cbn [tsigned size_t uint64_t]. rewrite Hun.
  unfold opens_with_prefix in Hpre. apply orb_false_iff in Hpre.
  destruct Hpre as [Hp1 Hp2]. rewrite Hp1, Hp2.
  unfold f_prolix_signed.
  change (nth 0 (d_terse_frames t2) []) with frame.
  change ((0 <? number_of_frames t2)%nat) with true.
  change (d_signed t2) with true. rewrite Hs. cbn [implb].
  rewrite !assert_true. cbn [obind]. rewrite Hp. cbn [obind].
  change (prolix_signed_loop (d_size t2) ndebug T t2 0 0 p [])
    with (prolix_signed_loop (d_size t1) ndebug T t2 0 (cs_prevbits s0) p []).
  rewrite prolix_signed_loop_reads with (t := t1) (data := data); try assumption;
    try reflexivity.
  - exact push_init_wf.
  - cbn zeta. fold sF. rewrite Hun, Hval.
    change (pushed_bits (cs_queue s0)) with 0. change (2 ^ 0) with 1.
    rewrite Z.div_1_r. reflexivity.
  - cbn zeta. fold sF. change (pushed_bits (cs_queue s0)) with 0. lia.
  - change (d_block t1) with block. nia.
Qed.

Lemma signed_round_trip_witness :
  roundtrip false int16_t 11 Signed walk_frame_a = Done walk_frame_a.
Proof.
  apply (signed_round_trip false int16_t 11 walk_frame_a [250; 0; 0; 0; 0; 0; 0; 0]).
  - reflexivity.
  - right. left. reflexivity.
  - lia.
  - repeat constructor; vm_compute; intuition discriminate.
  - vm_compute. reflexivity.
  - cbn. lia.
  - reflexivity.
  - vm_compute. reflexivity.
Defined.

Lemma frame_bytes_length q :
  push_wf q -> 8 * Z.of_nat (length (frame_bytes q)) <= pushed_bits q + 7.
Proof.
  intros Hq. unfold frame_bytes, push_distance, pb_data.
  pose proof Hq as (_ & _ & Hb & _).
  pose proof (Z.div_mod (pb_buffered_bits q + 7) 8 ltac:(lia)) as Hdm.
  pose proof (Z.mod_pos_bound (pb_buffered_bits q + 7) 8 ltac:(lia)) as Hmb.
  destruct (flushed_prefix q (Z.to_nat ((pb_buffered_bits q + 7) / 8)) Hq) as (_ & _ & Hl).
  { rewrite Z2Nat.id by (apply Z.div_pos; lia). lia. }
  rewrite Hl. unfold pushed_bits.
  assert ((pb_buffered_bits q + 7) / 8 <= 8) by lia.
  rewrite Nat.min_l by lia. rewrite Nat2Z.inj_add, Z2Nat.id by (apply Z.div_pos; lia).
  lia.
Qed.

Lemma blocks_left_step (r b : nat) :
  (0 < r)%nat -> (0 < b)%nat ->
  (1 + (r - b + b - 1) / b <= (r + b - 1) / b)%nat.
Proof.
  intros Hr Hb. destruct (Nat.le_gt_cases b r) as [Hle|Hgt].
  - replace (r + b - 1)%nat with ((r - b + b - 1) + 1 * b)%nat by lia.
    rewrite Nat.div_add by lia. lia.
  - replace (r - b + b - 1)%nat with (b - 1)%nat by lia.
    rewrite (Nat.div_small (b - 1)) by lia.
    replace (r + b - 1)%nat with ((r - 1) + 1 * b)%nat by lia.
    rewrite Nat.div_add by lia. lia.
Qed.

Section SignedSize.

Variable T : int_type.
Hypothesis Hsigned : tsigned T = true.
Hypothesis Hbits : tbits T = 8 \/ tbits T = 16 \/ tbits T = 32.
Variables (t : Terse) (data : list Z).
Hypothesis Hdata : Forall (abs_defined T) data.
Hypothesis Hblock : (0 < d_block t)%nat.

Lemma compress_loop_signed_bits fuel : forall from s,
  push_wf (cs_queue s) ->
  pushed_bits (cs_queue (compress_loop fuel Signed T t data from s))
  <= pushed_bits (cs_queue s)
     + tbits T * Z.of_nat (d_size t - from)
     + 12 * Z.of_nat ((d_size t - from + d_block t - 1) / d_block t).
Proof.
  assert (HP : 0 < tbits T) by (destruct Hbits as [-> | [-> | ->]]; lia).
  induction fuel as [|k IH]; intros from s Hq; cbn [compress_loop].
  - assert (0 <= tbits T * Z.of_nat (d_size t - from)) by (apply Z.mul_nonneg_nonneg; lia).
    destruct (from <? d_size t)%nat; cbn [cs_unfinished cs_queue]; lia.
  - destruct (Nat.ltb_spec from (d_size t)) as [Hlt|Hge].
    2:{ assert (0 <= tbits T * Z.of_nat (d_size t - from))
          by (apply Z.mul_nonneg_nonneg; lia). lia. }
    destruct (compress_block_appended T Hsigned Hbits t data Hdata from s Hq)
      as [_ (Hwf1 & Hb1 & _)].
    set (bl := span_of data from (Nat.min (d_size t) (from + d_block t))) in *.
    set (w := f_most_significant_bit T bl) in *.
    assert (Hspan : Forall (abs_defined T) bl)
      by (unfold bl; apply span_abs_defined; exact Hdata).
    destruct (block_round T Hsigned Hbits bl Hspan) as [Hw _].
    fold w in Hw.
    pose proof (header_bits_range (cs_prevbits s) w) as Hhb.
    specialize (IH (from + d_block t)%nat _ Hwf1).
    assert (Hlen : (length bl <= Nat.min (d_size t) (from + d_block t) - from)%nat)
      by (unfold bl, span_of; rewrite length_firstn; lia).
    pose proof (blocks_left_step (d_size t - from) (d_block t) ltac:(lia) Hblock) as Hstep.
    replace (d_size t - from - d_block t)%nat with (d_size t - (from + d_block t))%nat
      in Hstep by lia.
    assert (Hwl : w * Z.of_nat (length bl)
                  <= tbits T * Z.of_nat (Nat.min (d_size t) (from + d_block t) - from)).
    { apply Z.mul_le_mono_nonneg; lia. }
    assert (Hsplit : Z.of_nat (Nat.min (d_size t) (from + d_block t) - from)
                     + Z.of_nat (d_size t - (from + d_block t)) = Z.of_nat (d_size t - from))
      by lia.
    rewrite <- Hsplit. rewrite Z.mul_add_distr_l. lia.
Qed.

End SignedSize.

(** X14 (size of a frame, mode [Signed]). A frame that the encoder returns
    in mode [Signed] is never longer than the bits of its values and 12
    bits of header for each block, rounded up to whole bytes. *)
Theorem signed_frame_size_bound ndebug T block data frame :
  tsigned T = true -> tbits T = 8 \/ tbits T = 16 \/ tbits T = 32 ->
  (0 < block)%nat -> Forall (abs_defined T) data ->
  compressed ndebug T block Signed data = Done [frame] ->
  8 * Z.of_nat (length frame)
  <= tbits T * Z.of_nat (length data)
     + 12 * Z.of_nat ((length data + block - 1) / block) + 7.
Proof.
  intros Hs Hb Hblock Hdata Hc.
  unfold compressed, block_size, push_back_frame, insert, f_validate_insert in Hc.
  cbn [obind Terse_empty number_of_frames d_terse_frames length Nat.eqb Nat.leb
       d_signed d_small d_block d_size d_prolix_bits d_dim d_metadata] in Hc.
  rewrite Hs in Hc. cbn [implb] in Hc.
  change ((0 <=? 0)%nat) with true in Hc. rewrite !assert_true in Hc.
  cbn [obind d_signed implb] in Hc.
  set (t1 := {| d_terse_frames := []; d_signed := true; d_small := false;
                d_block := block; d_size := length data;
                d_prolix_bits := Z.max 0 (8 * Z.of_nat (sizeof T));
                d_dim := []; d_metadata := [] |}) in *.
  apply obind_done in Hc. destruct Hc as (tc & Hcomp & Hc).
  apply obind_done in Hcomp. destruct Hcomp as (fr & Hcomp & Htc).
  assert (Hfr : fr = frame).
  { inversion Htc; subst tc. cbn in Hc. inversion Hc. reflexivity. }
  subst fr. clear Hc Htc tc.
  unfold f_compress in Hcomp. rewrite Hs in Hcomp. unfold f_compress_plain in Hcomp.
  cbn zeta in Hcomp.
  apply obind_done in Hcomp. destruct Hcomp as (q0 & Hctor & Hcomp).
  assert (q0 = push_init).
  { unfold push_ctor in Hctor. apply obind_done in Hctor.
    destruct Hctor as (_ & _ & Hctor). inversion Hctor. reflexivity. }
  subst q0.
  set (s0 := {| cs_vector := {| tf_size := initial_size T (d_size t1) (d_block t1);
                               tf_defined := true |};
                cs_queue := push_init; cs_prevbits := 0; cs_prevmasked_bits := 0;
                cs_buffer := repeat 0 (d_block t1) |}) in *.
  pose proof (compress_loop_signed_bits T Hs Hb t1 data Hdata Hblock (d_size t1) 0%nat s0
                push_init_wf) as Hbound.
  pose proof (compress_loop_extends T Hs Hb t1 data Hdata (d_size t1) 0%nat s0 push_init_wf)
    as (HwfF & _ & _).
  pose proof (frame_bytes_length _ HwfF) as Hlen.
  assert (Hframe : frame_bytes (cs_queue (compress_loop (d_size t1) Signed T t1 data 0 s0))
                   = frame)
    by (apply (finish_done _ _ _ Hcomp)).
  rewrite Hframe in Hlen.
  change (pushed_bits (cs_queue s0)) with 0 in Hbound.
  change (d_size t1) with (length data) in *.
  change (d_block t1) with block in *.
  rewrite Nat.sub_0_r in Hbound. lia.
Qed.

Lemma signed_frame_size_bound_witness :
  8 * Z.of_nat (length [250; 0; 0; 0; 0; 0; 0; 0])
  <= tbits int16_t * Z.of_nat (length walk_frame_a)
     + 12 * Z.of_nat ((length walk_frame_a + 11 - 1) / 11) + 7.
Proof.
  apply (signed_frame_size_bound false int16_t 11 walk_frame_a [250; 0; 0; 0; 0; 0; 0; 0]).
  - reflexivity.
  - right. left. reflexivity.
  - lia.
  - repeat constructor; vm_compute; intuition discriminate.
  - vm_compute. reflexivity.
Defined.

(** * [f_most_significant_bit] on unsigned blocks *)

Lemma bit_length_bound v : 0 <= v -> v < 2 ^ bit_length v.
Proof.
  intros Hv. unfold bit_length. destruct (Z.eqb_spec v 0) as [->|Hne]; [cbn; lia|].
  pose proof (Z.log2_spec v ltac:(lia)) as [_ H].
  replace (Z.log2 v + 1) with (Z.succ (Z.log2 v)) by lia. exact H.
Qed.

Lemma bit_length_le_width v w : 0 <= w -> 0 <= v < 2 ^ w -> bit_length v <= w.
Proof.
  intros Hw Hv. unfold bit_length. destruct (Z.eqb_spec v 0) as [->|Hne]; [lia|].
  assert (Z.log2 v < w) by (apply Z.log2_lt_pow2; lia). lia.
Qed.

Lemma bit_length_mono a b : 0 <= a <= b -> bit_length a <= bit_length b.
Proof.
  intros H. unfold bit_length.
  destruct (Z.eqb_spec a 0) as [->|Ha]; destruct (Z.eqb_spec b 0) as [->|Hb]; try lia.
  - pose proof (Z.log2_nonneg b). lia.
  - pose proof (Z.log2_le_mono a b ltac:(lia)). lia.
Qed.

Lemma bit_length_list_max l :
  Forall (fun v => 0 <= v) l ->
  list_max (map bit_length l) = bit_length (list_max l).
Proof.
  induction 1 as [|v r Hv Hr IH]; cbn [map list_max fold_right]; [reflexivity|].
  fold (list_max (map bit_length r)). fold (list_max r). rewrite IH.
  pose proof (list_max_nonneg r).
  destruct (Z.le_ge_cases v (list_max r)).
  - rewrite (Z.max_r v) by lia. pose proof (bit_length_mono v (list_max r)). lia.
  - rewrite (Z.max_l v) by lia. pose proof (bit_length_mono (list_max r) v). lia.
Qed.

Section UnsignedWidth.

Variable T : int_type.
Hypothesis Hunsigned : tsigned T = false.
Hypothesis Hbits : 0 < tbits T <= 64.

Lemma unsigned_range v : in_range T v -> 0 <= v < 2 ^ tbits T.
Proof.
  unfold in_range, numeric_min, numeric_max. rewrite Hunsigned. lia.
Qed.

Lemma unsigned_setbits v : in_range T v -> setbits_of T v = v.
Proof.
  intros Hv. apply unsigned_range in Hv.
  unfold setbits_of, to_size_t, wrap_unsigned. rewrite Hunsigned.
  apply Z.mod_small. assert (2 ^ tbits T <= 2 ^ 64) by (apply Z.pow_le_mono_r; lia). lia.
Qed.

(** On unsigned values the width is the bit length of the largest value. *)
Lemma f_most_significant_bit_unsigned values :
  Forall (in_range T) values ->
  f_most_significant_bit T values = bit_length (list_max values).
Proof.
  intros Hall. unfold f_most_significant_bit.
  assert (H64 : 2 ^ tbits T <= 2 ^ 64) by (apply Z.pow_le_mono_r; lia).
  assert (Hs : Forall (fun v => 0 <= setbits_of T v < 2 ^ 64) values).
  { eapply Forall_impl; [|exact Hall]. intros v Hv. rewrite unsigned_setbits by exact Hv.
    apply unsigned_range in Hv. lia. }
  destruct (fold_lor_bit_length T values 0 ltac:(lia) Hs) as [Hb He].
  rewrite msb_loop_spec by exact Hb. rewrite Z.add_0_l, He.
  change (bit_length 0) with 0. rewrite Z.max_r by apply list_max_nonneg.
  replace (map (fun v => bit_length (setbits_of T v)) values) with (map bit_length values).
  2:{ apply map_ext_in. intros v Hv. rewrite Forall_forall in Hall.
      rewrite unsigned_setbits by (apply Hall, Hv). reflexivity. }
  rewrite bit_length_list_max.
  2:{ eapply Forall_impl; [|exact Hall]. intros v Hv. apply unsigned_range in Hv. lia. }
  apply Z.min_l. apply bit_length_le_width; [lia|].
  split; [apply list_max_nonneg|].
  assert (list_max values <= 2 ^ tbits T - 1); [|lia].
  apply list_max_le; [lia|]. intros x Hx. rewrite Forall_forall in Hall.
  pose proof (unsigned_range x (Hall x Hx)). lia.
Qed.

Lemma unsigned_block_fits bl :
  Forall (in_range T) bl ->
  let w := f_most_significant_bit T bl in
  0 <= w <= tbits T /\ Forall (fun v => 0 <= push_operand T w v < 2 ^ w) bl /\
  map (bits_value T w) (map (push_operand T w) bl) = bl.
Proof.
  intros Hbl. cbn zeta. rewrite (f_most_significant_bit_unsigned bl Hbl).
  pose proof (list_max_nonneg bl) as Hnn.
  assert (Hmax : list_max bl < 2 ^ tbits T).
  { assert (list_max bl <= 2 ^ tbits T - 1); [|lia].
    apply list_max_le; [lia|]. intros x Hx. rewrite Forall_forall in Hbl.
    pose proof (unsigned_range x (Hbl x Hx)). lia. }
  split; [|split].
  - split; [apply bit_length_nonneg | apply bit_length_le_width; lia].
  - apply Forall_forall. intros v Hv. unfold push_operand. rewrite Hunsigned.
    rewrite Forall_forall in Hbl. pose proof (unsigned_range v (Hbl v Hv)).
    split; [lia|]. apply Z.le_lt_trans with (list_max bl); [apply list_max_ge, Hv|].
    apply bit_length_bound, Hnn.
  - rewrite map_map. rewrite <- (map_id bl) at 2. apply map_ext. intros v.
    unfold bits_value, push_operand. rewrite Hunsigned. reflexivity.
Qed.

End UnsignedWidth.

Lemma list_max_in l : 0 < list_max l -> In (list_max l) l.
Proof.
  induction l as [|x r IH]; cbn [list_max fold_right]; [lia|].
  fold (list_max r). intros Hpos.
  destruct (Z.le_ge_cases (list_max r) x) as [Hle|Hge].
  - rewrite Z.max_l by lia. left. reflexivity.
  - rewrite Z.max_r in * by lia. right. apply IH. exact Hpos.
Qed.

(** X15 (width of an unsigned block). On values of an unsigned type
    [f_most_significant_bit] returns the bit length of the largest value:
    every value of the block is below [2^w], and unless [w] is 0 one of them
    is at least [2^(w-1)], so that no smaller width would do. *)
Theorem unsigned_width_is_minimal T values :
  tsigned T = false -> 0 < tbits T <= 64 -> Forall (in_range T) values ->
  let w := f_most_significant_bit T values in
  w = bit_length (list_max values) /\
  Forall (fun v => 0 <= v < 2 ^ w) values /\
  (0 < w -> Exists (fun v => 2 ^ (w - 1) <= v) values).
Proof.
  intros Hs Hb Hall. cbn zeta.
  rewrite (f_most_significant_bit_unsigned T Hs Hb values Hall).
  pose proof (list_max_nonneg values) as Hnn.
  split; [reflexivity|]. split.
  - apply Forall_forall. intros v Hv. rewrite Forall_forall in Hall.
    pose proof (unsigned_range T Hs v (Hall v Hv)).
    split; [lia|]. apply Z.le_lt_trans with (list_max values); [apply list_max_ge, Hv|].
    apply bit_length_bound, Hnn.
  - intros Hw.
    assert (Hpos : 0 < list_max values).
    { unfold bit_length in Hw. destruct (Z.eqb_spec (list_max values) 0); lia. }
    assert (Hin : exists v, In v values /\ v = list_max values)
      by (exists (list_max values); split; [apply list_max_in, Hpos | reflexivity]).
    destruct Hin as (v & Hv & Ev). apply Exists_exists. exists v. split; [exact Hv|].
    rewrite Ev. unfold bit_length in *.
    destruct (Z.eqb_spec (list_max values) 0) as [E0|E0]; [lia|].
    replace (Z.log2 (list_max values) + 1 - 1) with (Z.log2 (list_max values)) by lia.
    apply Z.log2_spec. lia.
Qed.

Lemma unsigned_width_is_minimal_witness :
  let w := f_most_significant_bit uint16_t [5; 300; 0] in
  w = bit_length (list_max [5; 300; 0]) /\
  Forall (fun v => 0 <= v < 2 ^ w) [5; 300; 0] /\
  (0 < w -> Exists (fun v => 2 ^ (w - 1) <= v) [5; 300; 0]).
Proof.
  apply (unsigned_width_is_minimal uint16_t [5; 300; 0]).
  - reflexivity.
  - cbn. lia.
  - repeat constructor; vm_compute; intuition discriminate.
Defined.

(** * Mode [Unsigned]: the decoder reads what the encoder wrote *)

Lemma packed_app B a b :
  0 <= B ->
  packed B (a ++ b) = packed B a + 2 ^ (B * Z.of_nat (length a)) * packed B b.
Proof.
  intros HB. induction a as [|x r IH]; cbn [app packed fold_right length].
  - rewrite Z.mul_0_r. change (2 ^ 0) with 1. fold (packed B b). lia.
  - fold (packed B (r ++ b)). fold (packed B r). rewrite IH.
    rewrite Nat2Z.inj_succ.
    replace (B * Z.succ (Z.of_nat (length r))) with (B + B * Z.of_nat (length r)) by lia.
    rewrite Z.pow_add_r by lia. ring.
Qed.

Section Unsigned.

Variable T : int_type.
Hypothesis Hunsigned : tsigned T = false.
Hypothesis Hbits : tbits T = 8 \/ tbits T = 16 \/ tbits T = 32.

Lemma width_range : 0 < tbits T <= 64.
Proof. destruct Hbits as [-> | [-> | ->]]; lia. Qed.

Lemma cast_in_range_unsigned x : in_range T (cast T x).
Proof.
  pose proof width_range.
  unfold in_range, numeric_min, numeric_max, cast, wrap_unsigned. rewrite Hunsigned.
  pose proof (Z.mod_pos_bound x (2 ^ tbits T) ltac:(apply pow2_pos; lia)). lia.
Qed.

Lemma decrement_incr bl :
  Forall (in_range T) bl ->
  decrement_all T (map (fun val => cast T (val + 1)) bl) = bl.
Proof.
  intros Hbl. unfold decrement_all. rewrite map_map. rewrite <- (map_id bl) at 2.
  apply map_ext_in. intros v Hv. rewrite Forall_forall in Hbl.
  pose proof (unsigned_range T Hunsigned v (Hbl v Hv)) as Hr.
  pose proof width_range. pose proof (pow2_pos (tbits T) ltac:(lia)).
  unfold cast, wrap_unsigned. rewrite Hunsigned.
  rewrite Zminus_mod_idemp_l. replace (v + 1 - 1) with v by lia.
  apply Z.mod_small. lia.
Qed.

Variables (t : Terse) (data : list Z).
Hypothesis Hdata : Forall (in_range T) data.

Lemma span_in_range from to : Forall (in_range T) (span_of data from to).
Proof. unfold span_of. apply Forall_firstn, Forall_skipn, Hdata. Qed.

Lemma transform_incr_in_range bl buffer :
  Forall (in_range T) buffer -> Forall (in_range T) (transform_incr T bl buffer).
Proof.
  intros Hb. unfold transform_incr. apply Forall_app. split.
  - apply Forall_forall. intros x Hx. apply in_map_iff in Hx.
    destruct Hx as (v & <- & _). apply cast_in_range_unsigned.
  - apply Forall_skipn, Hb.
Qed.

Lemma transform_incr_length bl buffer :
  (length bl <= length buffer)%nat ->
  length (transform_incr T bl buffer) = length buffer.
Proof.
  intros H. unfold transform_incr. rewrite length_app, length_map, length_skipn. lia.
Qed.

(** One block of the encoder in mode [Unsigned]. *)
Lemma compress_block_unsigned from s :
  push_wf (cs_queue s) -> Forall (in_range T) (cs_buffer s) ->
  let bl := span_of data from (Nat.min (d_size t) (from + d_block t)) in
  let w := f_most_significant_bit T bl in
  let s1 := compress_block Unsigned T t data from s in
  let hb := header_bits (cs_prevbits s) w in
  let hv := header_value (cs_prevbits s) w in
  cs_prevbits s1 = w /\
  if w =? tbits T then
    let buffer := transform_incr T bl (cs_buffer s) in
    let mb := f_most_significant_bit T buffer in
    cs_prevmasked_bits s1 = mb /\ cs_buffer s1 = buffer /\
    appended (cs_queue s) (cs_queue s1)
      (hb + (header_bits (cs_prevmasked_bits s) mb + mb * Z.of_nat (length buffer)))
      (hv + 2 ^ hb * (header_value (cs_prevmasked_bits s) mb
                      + 2 ^ header_bits (cs_prevmasked_bits s) mb
                        * packed mb (map (push_operand T mb) buffer)))
  else
    cs_prevmasked_bits s1 = cs_prevmasked_bits s /\ cs_buffer s1 = cs_buffer s /\
    appended (cs_queue s) (cs_queue s1)
      (hb + w * Z.of_nat (length bl))
      (hv + 2 ^ hb * packed w (map (push_operand T w) bl)).
Proof.
  intros Hq Hbuf. cbn zeta. unfold compress_block.
  set (bl := span_of data from (Nat.min (d_size t) (from + d_block t))).
  set (w := f_most_significant_bit T bl).
  pose proof width_range as HP.
  destruct (unsigned_block_fits T Hunsigned HP bl (span_in_range _ _)) as (Hw & Hops & _).
  fold w in Hw, Hops.
  destruct (PUSH_BITS_appended (cs_prevbits s) w (cs_queue s) Hq ltac:(lia)) as [Hsnd Happ].
  destruct (PUSH_BITS (cs_prevbits s) w (cs_queue s)) as [q1 prev1] eqn:E.
  cbn [fst snd] in *. subst prev1.
  pose proof (header_bits_range (cs_prevbits s) w) as Hhb.
  destruct (Z.eqb_spec w (tbits T)) as [Hm|Hm]; cbn [negb].
  - set (buffer := transform_incr T bl (cs_buffer s)).
    set (mb := f_most_significant_bit T buffer).
    destruct (unsigned_block_fits T Hunsigned HP buffer
                (transform_incr_in_range bl _ Hbuf)) as (Hmb & Hmops & _).
    fold mb in Hmb, Hmops.
    destruct (PUSH_BITS_appended (cs_prevmasked_bits s) mb q1 (proj1 Happ) ltac:(lia))
      as [Hsnd2 Happ2].
    destruct (PUSH_BITS (cs_prevmasked_bits s) mb q1) as [q2 prev2] eqn:E2.
    cbn [fst snd] in *. subst prev2. cbn [cs_queue cs_prevbits cs_prevmasked_bits cs_buffer].
    split; [reflexivity|]. split; [reflexivity|]. split; [reflexivity|].
    pose proof (header_bits_range (cs_prevmasked_bits s) mb) as Hhb2.
    eapply appended_trans; [exact Hq | lia | exact Happ |].
    eapply appended_trans; [exact (proj1 Happ) | lia | exact Happ2 |].
    apply push_back_span_appended; [exact (proj1 Happ2) | | exact Hmops].
    destruct Hbits as [E' | [E' | E']]; rewrite E' in Hmb; lia.
  - cbn [cs_queue cs_prevbits cs_prevmasked_bits cs_buffer].
    split; [reflexivity|]. split; [reflexivity|]. split; [reflexivity|].
    eapply appended_trans; [exact Hq | lia | exact Happ |].
    apply push_back_span_appended; [exact (proj1 Happ) | | exact Hops].
    destruct Hbits as [E' | [E' | E']]; rewrite E' in Hw; lia.
Qed.

Lemma compress_block_unsigned_extends from s :
  push_wf (cs_queue s) -> Forall (in_range T) (cs_buffer s) ->
  let s1 := compress_block Unsigned T t data from s in
  extends (cs_queue s) (cs_queue s1) /\ Forall (in_range T) (cs_buffer s1) /\
  (length (cs_buffer s) = d_block t -> length (cs_buffer s1) = d_block t).
Proof.
  intros Hq Hbuf. cbn zeta.
  pose proof (compress_block_unsigned from s Hq Hbuf) as H. cbn zeta in H.
  destruct H as [_ H].
  set (bl := span_of data from (Nat.min (d_size t) (from + d_block t))) in *.
  set (w := f_most_significant_bit T bl) in *.
  pose proof width_range as HP.
  pose proof (header_bits_range (cs_prevbits s) w) as Hhb.
  destruct (unsigned_block_fits T Hunsigned HP bl (span_in_range _ _)) as (Hw & _ & _).
  fold w in Hw.
  assert (Hlen : (length bl <= d_block t)%nat)
    by (unfold bl, span_of; rewrite length_firstn, length_skipn; lia).
  destruct (w =? tbits T).
  - destruct H as (_ & Hb1 & Happ). rewrite Hb1.
    set (buffer := transform_incr T bl (cs_buffer s)) in *.
    set (mb := f_most_significant_bit T buffer) in *.
    destruct (unsigned_block_fits T Hunsigned HP buffer
                (transform_incr_in_range bl _ Hbuf)) as (Hmb & _ & _).
    fold mb in Hmb.
    pose proof (header_bits_range (cs_prevmasked_bits s) mb) as Hhb2.
    split; [|split].
    + eapply appended_extends; [exact Hq | | exact Happ].
      assert (0 <= mb * Z.of_nat (length buffer)) by (apply Z.mul_nonneg_nonneg; lia). lia.
    + apply transform_incr_in_range, Hbuf.
    + intros Hl. unfold buffer. rewrite transform_incr_length; lia.
  - destruct H as (_ & Hb1 & Happ). rewrite Hb1.
    split; [|split; [exact Hbuf | auto]].
    eapply appended_extends; [exact Hq | | exact Happ].
    assert (0 <= w * Z.of_nat (length bl)) by (apply Z.mul_nonneg_nonneg; lia). lia.
Qed.

Lemma compress_loop_unsigned_extends fuel : forall from s,
  push_wf (cs_queue s) -> Forall (in_range T) (cs_buffer s) ->
  extends (cs_queue s) (cs_queue (compress_loop fuel Unsigned T t data from s)).
Proof.
  induction fuel as [|k IH]; intros from s Hq Hbuf; cbn [compress_loop].
  - destruct (from <? d_size t)%nat; apply extends_refl, Hq.
  - destruct (from <? d_size t)%nat; [|apply extends_refl, Hq].
    destruct (compress_block_unsigned_extends from s Hq Hbuf) as (Hext & Hbuf1 & _).
    eapply extends_trans; [exact Hq | exact Hext |].
    apply IH; [exact (proj1 Hext) | exact Hbuf1].
Qed.

End Unsigned.

Section UnsignedLoop.

Variable T : int_type.
Hypothesis Hunsigned : tsigned T = false.
Hypothesis Hbits : tbits T = 8 \/ tbits T = 16 \/ tbits T = 32.
Variables (t : Terse) (data : list Z).
Hypothesis Hdata : Forall (in_range T) data.
Hypothesis Hsize : d_size t = length data.
Variables (ndebug : bool) (t' : Terse).
Hypothesis Hblock : (0 < d_block t)%nat.
Hypothesis Hsize' : d_size t' = d_size t.
Hypothesis Hblock' : d_block t' = d_block t.
Hypothesis Hprolix : d_prolix_bits t' = tbits T.

Lemma prolix_unsigned_loop_reads fuel : forall from s q out,
  push_wf (cs_queue s) -> pop_wf q ->
  Forall (in_range T) (cs_buffer s) -> length (cs_buffer s) = d_block t ->
  let qF := cs_queue (compress_loop fuel Unsigned T t data from s) in
  ((from < d_size t)%nat ->
   unread q = pushed_value qF / 2 ^ pushed_bits (cs_queue s) /\
   pushed_bits qF - pushed_bits (cs_queue s) <= unread_bits q) ->
  (d_size t <= from + fuel * d_block t)%nat ->
  prolix_unsigned_loop fuel ndebug T t' from (cs_prevbits s) (cs_prevmasked_bits s) q out
  = Done (out ++ skipn from data).
Proof.
  pose proof (width_range T Hbits) as HP.
  induction fuel as [|k IH]; intros from s q out Hq Hp Hbuf Hbl; cbn zeta;
    cbn [compress_loop prolix_unsigned_loop]; intros Hsync Hfuel.
  - rewrite skipn_all2 by lia. rewrite app_nil_r. reflexivity.
  - rewrite Hsize', Hblock', Hprolix.
    destruct (Nat.ltb_spec from (d_size t)) as [Hlt|Hge].
    2:{ rewrite skipn_all2 by lia. rewrite app_nil_r. reflexivity. }
    destruct (Hsync Hlt) as [Hun Hav]. clear Hsync.
    pose proof (compress_block_unsigned T Hunsigned Hbits t data Hdata from s Hq Hbuf) as Hblk.
    destruct (compress_block_unsigned_extends T Hunsigned Hbits t data Hdata from s Hq Hbuf)
      as (Hext1 & Hbuf1 & Hbl1).
    specialize (Hbl1 Hbl). cbn zeta in Hblk.
    set (to := Nat.min (d_size t) (from + d_block t)) in *.
    set (bl := span_of data from to) in *.
    set (w := f_most_significant_bit T bl) in *.
    set (s1 := compress_block Unsigned T t data from s) in *.
    set (qF := cs_queue (compress_loop k Unsigned T t data (from + d_block t) s1)) in *.
    pose proof (compress_loop_unsigned_extends T Hunsigned Hbits t data Hdata k
                  (from + d_block t) s1 (proj1 Hext1) Hbuf1) as Hext.
    fold qF in Hext.
    destruct (unsigned_block_fits T Hunsigned HP bl (span_in_range T data Hdata from to))
      as (Hw & Hops & Hround).
    fold w in Hw, Hops, Hround.
    pose proof (header_bits_range (cs_prevbits s) w) as Hhb.
    pose proof (header_value_range (cs_prevbits s) w ltac:(lia)) as Hhv.
    destruct (span_step t data Hsize from Hlt) as [Hlen Hcat]. fold to bl in Hlen, Hcat.
    set (hb := header_bits (cs_prevbits s) w) in *.
    set (hv := header_value (cs_prevbits s) w) in *.
    pose proof (pow2_pos hb ltac:(lia)) as Hphb.
    destruct Hblk as [Hprev Hblk].
    destruct (Z.eqb_spec w (tbits T)) as [Hm|Hm]; cbn [negb].
    + (* a masked block *)
      destruct Hblk as (Hpm & Hb1 & Happ).
      set (buffer := transform_incr T bl (cs_buffer s)) in *.
      set (mb := f_most_significant_bit T buffer) in *.
      destruct (unsigned_block_fits T Hunsigned HP buffer
                  (transform_incr_in_range T Hunsigned Hbits bl _ Hbuf))
        as (Hmb & Hmops & _).
      fold mb in Hmb, Hmops.
      pose proof (header_bits_range (cs_prevmasked_bits s) mb) as Hhb2.
      pose proof (header_value_range (cs_prevmasked_bits s) mb ltac:(lia)) as Hhv2.
      set (hb2 := header_bits (cs_prevmasked_bits s) mb) in *.
      set (hv2 := header_value (cs_prevmasked_bits s) mb) in *.
      pose proof (pow2_pos hb2 ltac:(lia)) as Hphb2.
      assert (Hmops' : Forall (fun x => 0 <= x < 2 ^ mb) (map (push_operand T mb) buffer))
        by (rewrite Forall_map; exact Hmops).
      pose proof (packed_bound mb _ ltac:(lia) Hmops') as Hpk. rewrite length_map in Hpk.
      set (Pk := packed mb (map (push_operand T mb) buffer)) in *.
      assert (Hnn : 0 <= mb * Z.of_nat (length buffer))
        by (apply Z.mul_nonneg_nonneg; lia).
      set (L := mb * Z.of_nat (length buffer)) in *.
      assert (Hx2 : 0 <= hv2 + 2 ^ hb2 * Pk < 2 ^ (hb2 + L)).
      { rewrite Z.pow_add_r by lia.
        assert (0 <= 2 ^ hb2 * Pk) by (apply Z.mul_nonneg_nonneg; lia).
        assert (2 ^ hb2 * Pk <= 2 ^ hb2 * (2 ^ L - 1))
          by (apply Z.mul_le_mono_nonneg_l; lia).
        lia. }
      assert (Hx : 0 <= hv + 2 ^ hb * (hv2 + 2 ^ hb2 * Pk) < 2 ^ (hb + (hb2 + L))).
      { rewrite (Z.pow_add_r 2 hb) by lia.
        assert (0 <= 2 ^ hb * (hv2 + 2 ^ hb2 * Pk)) by (apply Z.mul_nonneg_nonneg; lia).
        assert (2 ^ hb * (hv2 + 2 ^ hb2 * Pk) <= 2 ^ hb * (2 ^ (hb2 + L) - 1))
          by (apply Z.mul_le_mono_nonneg_l; lia).
        lia. }
      pose proof (extends_view (cs_queue s) (cs_queue s1) qF
                    (hb + (hb2 + L)) (hv + 2 ^ hb * (hv2 + 2 ^ hb2 * Pk))
                    Hq ltac:(lia) Hx Happ Hext) as Hview.
      rewrite Hview in Hun. rewrite !Z.pow_add_r in Hun by lia.
      set (G := pushed_value qF / 2 ^ pushed_bits (cs_queue s1)) in *.
      assert (Hun0 : unread q = hv + 2 ^ hb * (hv2 + 2 ^ hb2 * (Pk + 2 ^ L * G)))
        by (rewrite Hun; ring).
      destruct Happ as (Hwf1 & Hbits1 & _). destruct Hext as (_ & HbF & _).
      destruct (BITS_header ndebug (cs_prevbits s) w q _ Hp ltac:(lia)
                  ltac:(fold hb; lia) Hun0)
        as (q1 & HB & Hp1 & Hun1 & Hub1 & _).
      rewrite HB. cbn [obind]. fold hb in Hub1.
      replace (w =? tbits T) with true by (symmetry; apply Z.eqb_eq; exact Hm).
      cbn [negb].
      destruct (BITS_header ndebug (cs_prevmasked_bits s) mb q1 _ Hp1 ltac:(lia)
                  ltac:(fold hb2; lia) Hun1)
        as (q2 & HB2 & Hp2 & Hun2 & Hub2 & _).
      rewrite HB2. cbn [obind]. fold hb2 in Hub2.
      (* the values of the block are the first fields of the buffer *)
      set (incr := map (fun val => cast T (val + 1)) bl) in *.
      set (tail := skipn (length bl) (cs_buffer s)) in *.
      assert (Ebuf : buffer = incr ++ tail) by reflexivity.
      assert (Hli : length incr = length bl) by apply length_map.
      assert (HPk : Pk = packed mb (map (push_operand T mb) incr)
                         + 2 ^ (mb * Z.of_nat (length bl))
                           * packed mb (map (push_operand T mb) tail)).
      { unfold Pk. rewrite Ebuf, map_app, packed_app by lia.
        rewrite length_map, Hli. reflexivity. }
      assert (HL : L = mb * Z.of_nat (length bl) + mb * Z.of_nat (length tail)).
      { unfold L. rewrite Ebuf, length_app, Hli, Nat2Z.inj_add. ring. }
      assert (Hnb : 0 <= mb * Z.of_nat (length bl)) by (apply Z.mul_nonneg_nonneg; lia).
      assert (Hnt : 0 <= mb * Z.of_nat (length tail)) by (apply Z.mul_nonneg_nonneg; lia).
      rewrite Ebuf, map_app in Hmops'. apply Forall_app in Hmops'.
      destruct Hmops' as [Hiops Htops].
      destruct (pop_span_packed ndebug T mb (map (push_operand T mb) incr) q2
                  (packed mb (map (push_operand T mb) tail)
                   + 2 ^ (mb * Z.of_nat (length tail)) * G) Hp2)
        as (q3 & HPOP & Hp3 & Hun3 & Hub3 & _).
      * lia.
      * lia.
      * rewrite length_map, Hli. lia.
      * exact Hiops.
      * rewrite length_map, Hli, Hun2, HPk, HL. rewrite Z.pow_add_r by lia. ring.
      * rewrite length_map, Hli, Hlen in HPOP. unfold POP. rewrite HPOP. cbn [obind].
        rewrite length_map, Hli in Hub3.
        replace (map (bits_value T mb) (map (push_operand T mb) incr)) with incr.
        2:{ rewrite map_map. rewrite <- (map_id incr) at 1. apply map_ext. intros v.
            unfold bits_value, push_operand. rewrite Hunsigned. reflexivity. }
        unfold incr. rewrite (decrement_incr T Hunsigned Hbits bl)
          by apply (span_in_range T data Hdata).
        rewrite <- Hprev, <- Hpm.
        rewrite (IH (from + d_block t)%nat s1 q3 (out ++ bl) Hwf1 Hp3 Hbuf1 Hbl1).
        -- rewrite <- app_assoc, Hcat. reflexivity.
        -- intros Hnext. fold qF.
           assert (Hfull : length bl = d_block t) by (rewrite Hlen; unfold to; lia).
           assert (Htl : tail = []).
           { apply length_zero_iff_nil. unfold tail. rewrite length_skipn. lia. }
           rewrite Htl in *. cbn [map packed fold_right length] in Hun3.
           change (Z.of_nat 0) with 0 in Hun3. rewrite Z.mul_0_r in Hun3.
           change (2 ^ 0) with 1 in Hun3.
           split; [rewrite Hun3; fold G; lia|].
           cbn [length] in HL. change (Z.of_nat 0) with 0 in HL. lia.
        -- lia.
    + (* a block written as it is *)
      destruct Hblk as (Hpm & Hb1 & Happ).
      assert (Hops' : Forall (fun x => 0 <= x < 2 ^ w) (map (push_operand T w) bl))
        by (rewrite Forall_map; exact Hops).
      pose proof (packed_bound w _ ltac:(lia) Hops') as Hpk. rewrite length_map in Hpk.
      set (Pk := packed w (map (push_operand T w) bl)) in *.
      assert (Hnn : 0 <= w * Z.of_nat (length bl)) by (apply Z.mul_nonneg_nonneg; lia).
      set (L := w * Z.of_nat (length bl)) in *.
      assert (Hx : 0 <= hv + 2 ^ hb * Pk < 2 ^ (hb + L)).
      { rewrite Z.pow_add_r by lia.
        assert (0 <= 2 ^ hb * Pk) by (apply Z.mul_nonneg_nonneg; lia).
        assert (2 ^ hb * Pk <= 2 ^ hb * (2 ^ L - 1))
          by (apply Z.mul_le_mono_nonneg_l; lia).
        lia. }
      pose proof (extends_view (cs_queue s) (cs_queue s1) qF
                    (hb + L) (hv + 2 ^ hb * Pk) Hq ltac:(lia) Hx Happ Hext) as Hview.
      rewrite Hview in Hun. rewrite Z.pow_add_r in Hun by lia.
      set (G := pushed_value qF / 2 ^ pushed_bits (cs_queue s1)) in *.
      assert (Hun0 : unread q = hv + 2 ^ hb * (Pk + 2 ^ L * G)) by (rewrite Hun; ring).
      destruct Happ as (Hwf1 & Hbits1 & _). destruct Hext as (_ & HbF & _).
      destruct (BITS_header ndebug (cs_prevbits s) w q _ Hp ltac:(lia)
                  ltac:(fold hb; lia) Hun0)
        as (q1 & HB & Hp1 & Hun1 & Hub1 & _).
      rewrite HB. cbn [obind]. fold hb in Hub1.
      replace (w =? tbits T) with false by (symmetry; apply Z.eqb_neq; exact Hm).
      cbn [negb].
      destruct (pop_span_packed ndebug T w (map (push_operand T w) bl) q1 G Hp1)
        as (q2 & HPOP & Hp2 & Hun2 & Hub2 & _).
      * lia.
      * lia.
      * rewrite length_map. fold L. lia.
      * exact Hops'.
      * rewrite length_map. fold L. exact Hun1.
      * rewrite length_map, Hlen in HPOP. unfold POP. rewrite HPOP. cbn [obind].
        rewrite length_map in Hub2. fold L in Hub2.
        rewrite Hround. rewrite <- Hprev, <- Hpm.
        rewrite (IH (from + d_block t)%nat s1 q2 (out ++ bl) Hwf1 Hp2 Hbuf1 Hbl1).
        -- rewrite <- app_assoc, Hcat. reflexivity.
        -- intros _. fold qF. split; [exact Hun2 | lia].
        -- lia.
Qed.

End UnsignedLoop.

(** The queue after the 18-bit mode prefix. *)
Lemma prefix_appended (prefix : Z) :
  0 <= prefix < 2 ^ 18 ->
  appended push_init (push_back int_ 18 prefix push_init) 18 prefix.
Proof.
  intros Hp.
  assert (Hop : push_operand int_ 18 prefix = prefix).
  { unfold push_operand. cbn [tsigned int_ int32_t].
    rewrite Z.land_ones by lia. unfold to_unsigned, wrap_unsigned. cbn [tbits int_ int32_t].
    rewrite mod_mod_pow2 by lia. apply Z.mod_small. exact Hp. }
  rewrite <- Hop at 2.
  apply push_back_appended; [exact push_init_wf | lia | rewrite Hop; exact Hp].
Qed.

(** X16 (round trip, mode [Unsigned]). With assertions compiled in, for
    the unsigned types of 8, 16 and 32 bits, every block size other than 0
    and the modes [Unsigned] and [Default]: when the encoder returns a
    frame, which it does when its bit stream stays inside the output
    vector, and the frame is a whole number of 8-byte words long, [prolix]
    returns exactly the values the frame was compressed from, the overload
    value [2^P - 1] included. *)
Theorem unsigned_round_trip T block mode data frame :
  tsigned T = false -> tbits T = 8 \/ tbits T = 16 \/ tbits T = 32 ->
  (0 < block)%nat -> Forall (in_range T) data ->
  mode = Unsigned \/ mode = Default ->
  compressed false T block mode data = Done [frame] ->
  (length frame mod 8 = 0)%nat ->
  roundtrip false T block mode data = Done data.
Proof.
  intros Hs Hb Hblock Hdata Hmode Hc Hmod.
  unfold compressed, roundtrip, block_size, push_back_frame, insert,
    f_validate_insert in *.
  cbn [obind Terse_empty number_of_frames d_terse_frames length Nat.eqb Nat.leb
       d_signed d_small d_block d_size d_prolix_bits d_dim d_metadata] in *.
  rewrite Hs in *. cbn [implb] in *.
  change ((0 <=? 0)%nat) with true in *. rewrite !assert_true in *.
  cbn [obind d_signed implb] in *.
  set (t1 := {| d_terse_frames := []; d_signed := false; d_small := false;
                d_block := block; d_size := length data;
                d_prolix_bits := Z.max 0 (8 * Z.of_nat (sizeof T));
                d_dim := []; d_metadata := [] |}) in *.
  assert (Hplain : f_compress false mode T t1 data = f_compress_plain false Unsigned T t1 data).
  { unfold f_compress. rewrite Hs. destruct Hmode as [-> | ->]; reflexivity. }
  rewrite Hplain in *. clear Hplain.
  apply obind_done in Hc. destruct Hc as (tc & Hcomp & Hc).
  apply obind_done in Hcomp. destruct Hcomp as (fr & Hcomp & Htc).
  assert (Hfr : fr = frame).
  { inversion Htc; subst tc. cbn in Hc. inversion Hc. reflexivity. }
  subst fr. clear Hc Htc tc.
  rewrite Hcomp. cbn [obind].
  unfold f_compress_plain in Hcomp. cbn zeta in Hcomp.
  apply obind_done in Hcomp. destruct Hcomp as (q0 & Hctor & Hcomp).
  assert (q0 = push_init).
  { unfold push_ctor in Hctor. apply obind_done in Hctor.
    destruct Hctor as (_ & _ & Hctor). inversion Hctor. reflexivity. }
  subst q0.
  set (q0 := push_back int_ 18 262136 push_init) in *.
  set (s0 := {| cs_vector := {| tf_size := initial_size T (d_size t1) (d_block t1);
                               tf_defined := true |};
                cs_queue := q0; cs_prevbits := 0; cs_prevmasked_bits := 0;
                cs_buffer := repeat 0 (d_block t1) |}) in *.
  set (sF := compress_loop (d_size t1) Unsigned T t1 data 0 s0) in *.
  set (t2 := set_frames t1 (vector_insert 0 frame (d_terse_frames t1))
               (vector_insert 0 (Chars EmptyString) (d_metadata t1))).
  destruct (prefix_appended 262136 ltac:(lia)) as (Hwf0 & Hbits0 & Hval0).
  fold q0 in Hwf0, Hbits0, Hval0.
  change (pushed_bits push_init) with 0 in *. change (pushed_value push_init) with 0 in *.
  change (2 ^ 0) with 1 in Hval0. rewrite Z.add_0_l, Z.mul_1_r in Hval0.
  rewrite Z.add_0_l in Hbits0.
  assert (Hbuf0 : Forall (in_range T) (cs_buffer s0)).
  { apply Forall_forall. intros x Hx. apply repeat_spec in Hx. subst x.
    unfold in_range, numeric_min, numeric_max. rewrite Hs.
    pose proof (pow2_pos (tbits T) ltac:(destruct Hb as [-> | [-> | ->]]; lia)). lia. }
  assert (Hext : extends q0 (cs_queue sF)).
  { apply (compress_loop_unsigned_extends T Hs Hb t1 data Hdata (d_size t1) 0%nat s0 Hwf0 Hbuf0). }
  destruct Hext as (HwfF & HbF & HvF). rewrite Hbits0 in HbF, HvF. rewrite Hval0 in HvF.
  destruct (frame_bytes_spec (cs_queue sF) HwfF) as (Hval & Hbytes & Hlen).
  assert (Hframe : frame_bytes (cs_queue sF) = frame) by (apply (finish_done _ _ _ Hcomp)).
  rewrite Hframe in Hval, Hbytes, Hlen.
  assert (H8 : (8 <= length frame)%nat).
  { apply Nat.Div0.div_exact in Hmod. lia. }
  destruct (pop_ctor_spec false frame Hbytes Hmod H8) as (p & Hp & Hpw & Hun & Hub & Hpm).
  unfold prolix, f_prolix.
  change (nth 0 (d_terse_frames t2) []) with frame.
  change ((0 <? number_of_frames t2)%nat) with true.
  rewrite assert_true. cbn [obind]. rewrite Hp. cbn [obind].
  destruct (pop_value_spec false size_t 18 p Hpw) as (p1 & Hpop & Hpw1 & Hun1 & Hub1 & _).
  { cbn [tbits size_t uint64_t]. lia. }
  { cbn [tbits size_t uint64_t]. lia. }
  { lia. }
  unfold pop. change (18 =? 0) with false. rewrite Hpop. cbn [obind].
  unfold bits_value. cbn [tsigned size_t uint64_t]. rewrite Hun, Hval, HvF.
  change (262136 =? 262140) with false. change (262136 =? 262136) with true.
  cbn iota. unfold f_prolix_unsigned.
  change (nth 0 (d_terse_frames t2) []) with frame.
  change ((0 <? number_of_frames t2)%nat) with true.
  change (d_signed t2) with false. cbn [implb].
  rewrite !assert_true. cbn [obind]. rewrite Hp. cbn [obind].
  unfold assert_prefix, pop. change (18 =? 0) with false. rewrite Hpop. cbn [obind].
  unfold bits_value. cbn [tsigned size_t uint64_t]. rewrite Hun, Hval, HvF.
  change (262136 =? 262136) with true. cbn [assert_ obind].
  change (prolix_unsigned_loop (d_size t2) false T t2 0 0 0 p1 [])
    with (prolix_unsigned_loop (d_size t1) false T t2 0
            (cs_prevbits s0) (cs_prevmasked_bits s0) p1 []).
  rewrite (prolix_unsigned_loop_reads T Hs Hb t1 data Hdata eq_refl false t2 Hblock
             eq_refl eq_refl); try assumption.
  all: match goal with
       | |- Done _ = Done _ => reflexivity
       | |- length _ = _ => apply repeat_length
       | |- d_prolix_bits _ = _ =>
           change (d_prolix_bits t2) with (Z.max 0 (8 * Z.of_nat (sizeof T)));
           unfold sizeof; destruct Hb as [-> | [-> | ->]]; reflexivity
       | |- (_ <= _)%nat => change (d_block t1) with block; nia
       | |- _ -> _ =>
           intros _; cbn zeta; fold sF;
           change (pushed_bits (cs_queue s0)) with (pushed_bits q0); rewrite Hbits0;
           split; [rewrite Hun1, Hun, Hval; reflexivity | lia]
       end.
Qed.

Lemma unsigned_round_trip_witness :
  roundtrip false uint16_t 11 Unsigned overload_frame = Done overload_frame.
Proof.
  apply (unsigned_round_trip uint16_t 11 Unsigned overload_frame
           [248; 255; 251; 6; 113; 85; 85; 0]).
  - reflexivity.
  - right. left. reflexivity.
  - lia.
  - repeat constructor; vm_compute; intuition discriminate.
  - left. reflexivity.
  - vm_compute. reflexivity.
  - reflexivity.
Defined.

(** * Radix packing of small values *)

Lemma to_size_t_small x : 0 <= x < 2 ^ 64 -> to_size_t x = x.
Proof. intros H. unfold to_size_t, wrap_unsigned. apply Z.mod_small. exact H. Qed.

Lemma radix_digits_packed base data :
  0 < base -> Forall (fun d => 0 <= d < base) data ->
  forall rest,
    radix_digits (length data) base
      (fold_right (fun d acc => d + base * acc) rest data) = data.
Proof.
  intros Hb. induction 1 as [|d r Hd Hr IH]; intros rest; cbn [length radix_digits fold_right].
  - reflexivity.
  - rewrite (Z.mul_comm base), Z.mod_add, Z.div_add by lia.
    rewrite Z.mod_small, Z.div_small by lia. rewrite Z.add_0_l. f_equal. apply IH.
Qed.

Lemma radix_pack_fold maxval data : forall k c,
  0 <= maxval -> 0 <= k -> Forall (fun d => 0 <= d <= maxval) data ->
  (maxval + 1) ^ (k + Z.of_nat (length data)) <= 2 ^ 64 ->
  0 <= c < (maxval + 1) ^ k ->
  let r := fold_left (fun '(mult, compact) d =>
                        (to_size_t (mult * (maxval + 1)), to_size_t (compact + mult * d)))
                     data (to_size_t ((maxval + 1) ^ k), c) in
  fst r = to_size_t ((maxval + 1) ^ (k + Z.of_nat (length data))) /\
  snd r = c + (maxval + 1) ^ k * fold_right (fun d acc => d + (maxval + 1) * acc) 0 data /\
  0 <= snd r < (maxval + 1) ^ (k + Z.of_nat (length data)).
Proof.
  intros k c Hm Hk Hall. revert k c Hk.
  induction Hall as [|d r Hd Hr IH]; intros k c Hk Hpow Hc; cbn [fold_left fold_right length].
  - cbn [fst snd]. change (Z.of_nat 0) with 0. rewrite Z.add_0_r.
    split; [reflexivity|]. split; [lia | lia].
  - cbn [length] in Hpow. rewrite Nat2Z.inj_succ in *.
    replace (k + Z.succ (Z.of_nat (length r))) with ((k + 1) + Z.of_nat (length r)) in * by lia.
    assert (Hb : 0 < maxval + 1) by lia.
    assert (Hpk : 0 < (maxval + 1) ^ k) by (apply Z.pow_pos_nonneg; lia).
    assert (Hstep : (maxval + 1) ^ (k + 1) = (maxval + 1) ^ k * (maxval + 1))
      by (rewrite Z.pow_add_r by lia; rewrite Z.pow_1_r; reflexivity).
    assert (Hle : (maxval + 1) ^ (k + 1) <= (maxval + 1) ^ (k + 1 + Z.of_nat (length r)))
      by (apply Z.pow_le_mono_r; lia).
    assert (Hlt : (maxval + 1) ^ k < 2 ^ 64 \/ maxval = 0).
    { destruct (Z.eq_dec maxval 0); [right; assumption | left].
      assert ((maxval + 1) ^ k < (maxval + 1) ^ (k + 1)); [|lia].
      rewrite Hstep. generalize dependent ((maxval + 1) ^ k). intros. nia. }
    assert (Hmult : to_size_t ((maxval + 1) ^ k) = (maxval + 1) ^ k).
    { destruct Hlt as [Hlt | ->]; [apply to_size_t_small; lia|].
      cbn [Z.add]. rewrite Z.pow_1_l by lia. reflexivity. }
    rewrite Hmult. rewrite <- Hstep.
    assert (Hc' : 0 <= c + (maxval + 1) ^ k * d < (maxval + 1) ^ (k + 1)).
    { rewrite Hstep. cbn beta in Hd. nia. }
    rewrite (to_size_t_small (c + (maxval + 1) ^ k * d)) by lia.
    destruct (IH (k + 1) (c + (maxval + 1) ^ k * d) ltac:(lia) Hpow Hc') as (H1 & H2 & H3).
    cbn zeta in *. split; [exact H1|]. split; [|exact H3].
    rewrite H2, Hstep. ring.
Qed.

Lemma msb1_bit_length T v :
  0 < tbits T <= 64 -> 0 <= v < 2 ^ tbits T -> f_most_significant_bit1 T v = bit_length v.
Proof.
  intros HT Hv. unfold f_most_significant_bit1.
  assert (2 ^ tbits T <= 2 ^ 64) by (apply Z.pow_le_mono_r; lia).
  rewrite to_size_t_small by lia.
  rewrite msb_loop_spec by (change (Z.of_nat 64) with 64; lia).
  rewrite Z.add_0_l. apply Z.min_l. apply bit_length_le_width; lia.
Qed.

(** The number a weak block is packed into, and the width it is written
    and read with. *)
Lemma radix_block_width maxval data :
  0 <= maxval -> Forall (fun d => 0 <= d <= maxval) data ->
  (maxval + 1) ^ Z.of_nat (length data) <= 2 ^ 64 ->
  let N := (maxval + 1) ^ Z.of_nat (length data) in
  weak_radix_bits maxval data = bit_length (N - 1) /\
  prolix_radix_bits maxval (length data) = Done (bit_length (N - 1)) /\
  snd (radix_pack maxval data)
    = fold_right (fun d acc => d + (maxval + 1) * acc) 0 data /\
  0 <= snd (radix_pack maxval data) < N.
Proof.
  intros Hm Hall Hpow. cbn zeta.
  destruct (radix_pack_fold maxval data 0 0 Hm ltac:(lia) Hall
              ltac:(rewrite Z.add_0_l; exact Hpow) ltac:(rewrite Z.pow_0_r; lia))
    as (Hfst & Hsnd & Hrange).
  cbn zeta in *. rewrite Z.pow_0_r in Hfst, Hsnd, Hrange. change (to_size_t 1) with 1 in *.
  rewrite Z.add_0_l in Hfst, Hrange. fold (radix_pack maxval data) in *.
  rewrite Z.mul_1_l, Z.add_0_l in Hsnd.
  assert (Hpos : 0 < (maxval + 1) ^ Z.of_nat (length data))
    by (apply Z.pow_pos_nonneg; lia).
  remember ((maxval + 1) ^ Z.of_nat (length data)) as N eqn:EN.
  assert (Hmsb : f_most_significant_bit1 size_t (N - 1) = bit_length (N - 1)).
  { apply msb1_bit_length; cbn [tbits size_t uint64_t]; lia. }
  split; [|split; [|split]].
  - unfold weak_radix_bits. rewrite Hfst.
    assert (Hmin : to_size_t (to_size_t N - 1) = N - 1).
    { destruct (Z.eq_dec N (2 ^ 64)) as [E|E].
      - rewrite E. reflexivity.
      - rewrite (to_size_t_small N) by lia. apply to_size_t_small. lia. }
    rewrite Hmin. exact Hmsb.
  - unfold prolix_radix_bits, pow_minus_one. rewrite <- EN.
    destruct (Z.ltb_spec (N - 1) (2 ^ 64)) as [_|Hge]; [|lia].
    cbn [obind]. rewrite Hmsb. reflexivity.
  - exact Hsnd.
  - exact Hrange.
Qed.

(** X17 (radix packing). When [(maxval + 1)^n] does not exceed [2^64] for
    a block of [n] values between 0 and [maxval], the digits the decoder
    takes from the packed number are the values of the block, the packed
    number has no more bits than the width the encoder writes it with, and
    for a block of full length the decoder reads it with that same width. *)
Theorem radix_block_round_trip maxval data :
  0 <= maxval -> Forall (fun d => 0 <= d <= maxval) data ->
  (maxval + 1) ^ Z.of_nat (length data) <= 2 ^ 64 ->
  radix_digits (length data) (maxval + 1) (snd (radix_pack maxval data)) = data /\
  prolix_radix_bits maxval (length data) = Done (weak_radix_bits maxval data) /\
  bit_length (snd (radix_pack maxval data)) <= weak_radix_bits maxval data.
Proof.
  intros Hm Hall Hpow.
  destruct (radix_block_width maxval data Hm Hall Hpow) as (Hw & Hpw & Hsnd & Hrange).
  cbn zeta in *.
  split; [|split].
  - rewrite Hsnd. apply radix_digits_packed; [lia|].
    eapply Forall_impl; [|exact Hall]. intros d Hd. cbn beta in *. lia.
  - rewrite Hw. exact Hpw.
  - rewrite Hw. apply bit_length_mono. lia.
Qed.

Lemma radix_block_round_trip_witness :
  radix_digits 3 (2 + 1) (snd (radix_pack 2 [2; 0; 1])) = [2; 0; 1] /\
  prolix_radix_bits 2 3 = Done (weak_radix_bits 2 [2; 0; 1]) /\
  bit_length (snd (radix_pack 2 [2; 0; 1])) <= weak_radix_bits 2 [2; 0; 1].
Proof.
  apply (radix_block_round_trip 2 [2; 0; 1]).
  - lia.
  - repeat constructor; lia.
  - vm_compute. discriminate.
Defined.

(** * Mode [Small_unsigned]: the encoder and the decoder *)

Lemma push_operand_small T B v :
  0 <= B <= tbits T -> 0 <= v < 2 ^ B -> push_operand T B v = v.
Proof.
  intros HB Hv. unfold push_operand. destruct (tsigned T); [|reflexivity].
  rewrite Z.land_ones by lia. unfold to_unsigned, wrap_unsigned.
  rewrite mod_mod_pow2 by lia. apply Z.mod_small. exact Hv.
Qed.

Lemma push_back_small T B v q :
  push_wf q -> 0 < B < 64 -> B <= tbits T -> 0 <= v < 2 ^ B ->
  appended q (push_back T B v q) B v.
Proof.
  intros Hq HB HT Hv.
  rewrite <- (push_operand_small T B v ltac:(lia) Hv) at 2.
  apply push_back_appended; [exact Hq | exact HB |].
  rewrite push_operand_small by lia. exact Hv.
Qed.

Lemma promote_bits T :
  tbits T = 8 \/ tbits T = 16 \/ tbits T = 32 -> tbits (promote T) = 32.
Proof.
  intros [E | [E | E]]; unfold promote; rewrite E; cbn; try reflexivity. exact E.
Qed.

Lemma cast_promote_small T x :
  tbits T = 8 \/ tbits T = 16 \/ tbits T = 32 ->
  0 <= x < 2 ^ 31 -> cast (promote T) x = x.
Proof.
  intros HT Hx. apply cast_in_range; [rewrite promote_bits by exact HT; lia|].
  unfold in_range, numeric_min, numeric_max. rewrite promote_bits by exact HT.
  destruct (tsigned (promote T)); change (2 ^ (32 - 1)) with (2 ^ 31); lia.
Qed.

(** The header of a weak block. *)
Lemma weak_header_appended T q prevmax maxval :
  tbits T = 8 \/ tbits T = 16 \/ tbits T = 32 ->
  push_wf q -> 0 <= maxval < 7 ->
  appended q
    (if (prevmax =? 0) && (maxval =? 0) then push_back int_ 1 1 q
     else if prevmax =? maxval then push_back int_ 2 3 q
     else if cast (promote T) (prevmax + 1) =? maxval then push_back int_ 2 2 q
     else if negb (maxval =? 6) && (cast (promote T) (prevmax - 1) =? maxval)
          then push_back int_ 2 1 q
     else if (prevmax =? 6) && (maxval =? 4) then push_back int_ 2 2 q
     else push_back (promote T) 5 (cast (promote T) (Z.shiftl maxval 2)) q)
    (weak_header_bits T prevmax maxval) (weak_header_value T prevmax maxval).
Proof.
  intros HT Hq Hm. unfold weak_header_bits, weak_header_value.
  destruct ((prevmax =? 0) && (maxval =? 0)).
  { apply push_back_small; cbn; try lia; exact Hq. }
  destruct (prevmax =? maxval).
  { apply push_back_small; cbn; try lia; exact Hq. }
  destruct (cast (promote T) (prevmax + 1) =? maxval).
  { apply push_back_small; cbn; try lia; exact Hq. }
  destruct (negb (maxval =? 6) && (cast (promote T) (prevmax - 1) =? maxval)).
  { apply push_back_small; cbn; try lia; exact Hq. }
  destruct ((prevmax =? 6) && (maxval =? 4)).
  { apply push_back_small; cbn; try lia; exact Hq. }
  rewrite Z.shiftl_mul_pow2 by lia. change (2 ^ 2) with 4.
  rewrite cast_promote_small by (try exact HT; lia).
  replace (maxval * 4) with (4 * maxval) by ring.
  apply push_back_small; [exact Hq | lia | rewrite promote_bits by exact HT; lia|].
  change (2 ^ 5) with 32. lia.
Qed.

Lemma strong_header_range prevbits bits :
  3 <= bits < 64 ->
  2 <= strong_header_bits prevbits bits <= 17 /\
  0 <= strong_header_value prevbits bits < 2 ^ strong_header_bits prevbits bits.
Proof.
  intros Hb. unfold strong_header_bits, strong_header_value.
  destruct (prevbits =? bits); [cbn; lia|].
  destruct (to_size_t (prevbits + 1) =? bits); [cbn; lia|].
  destruct (to_size_t (prevbits - 1) =? bits); [cbn; lia|].
  destruct (Z.ltb_spec bits 10); [change (2 ^ 8) with 256; lia|].
  destruct (Z.ltb_spec bits 17); [change (2 ^ 11) with 2048; lia|].
  change (2 ^ 17) with 131072. lia.
Qed.

Lemma weak_header_range T prevmax maxval :
  0 <= maxval < 7 ->
  1 <= weak_header_bits T prevmax maxval <= 5 /\
  0 <= weak_header_value T prevmax maxval < 2 ^ weak_header_bits T prevmax maxval.
Proof.
  intros Hm. unfold weak_header_bits, weak_header_value.
  destruct ((prevmax =? 0) && (maxval =? 0)); [cbn; lia|].
  destruct (prevmax =? maxval); [cbn; lia|].
  destruct (cast (promote T) (prevmax + 1) =? maxval); [cbn; lia|].
  destruct (negb (maxval =? 6) && (cast (promote T) (prevmax - 1) =? maxval)); [cbn; lia|].
  destruct ((prevmax =? 6) && (maxval =? 4)); [cbn; lia|].
  change (2 ^ 5) with 32. lia.
Qed.

(** The header of a strong block. *)
Lemma strong_header_appended q prevbits bits :
  push_wf q -> 3 <= bits < 64 ->
  appended q
    (if prevbits =? bits then push_back int_ 2 3 q
     else if to_size_t (prevbits + 1) =? bits then push_back int_ 2 2 q
     else if to_size_t (prevbits - 1) =? bits then push_back int_ 2 1 q
     else push_strong_literal bits q)
    (strong_header_bits prevbits bits) (strong_header_value prevbits bits).
Proof.
  intros Hq Hb. unfold strong_header_bits, strong_header_value, push_strong_literal.
  destruct (prevbits =? bits).
  { apply push_back_small; cbn; try lia; exact Hq. }
  destruct (to_size_t (prevbits + 1) =? bits).
  { apply push_back_small; cbn; try lia; exact Hq. }
  destruct (to_size_t (prevbits - 1) =? bits).
  { apply push_back_small; cbn; try lia; exact Hq. }
  destruct (Z.ltb_spec bits 10).
  { rewrite (to_size_t_small (bits - 3)) by lia.
    rewrite Z.shiftl_mul_pow2 by lia. change (2 ^ 5) with 32.
    rewrite to_size_t_small by lia.
    replace (28 + (bits - 3) * 32) with (28 + 32 * (bits - 3)) by ring.
    apply push_back_small; [exact Hq | lia | cbn; lia |]. change (2 ^ 8) with 256. lia. }
  destruct (Z.ltb_spec bits 17).
  { rewrite (to_size_t_small (bits - 10)) by lia.
    rewrite Z.shiftl_mul_pow2 by lia. change (2 ^ 8) with 256.
    rewrite to_size_t_small by lia.
    replace (252 + (bits - 10) * 256) with (252 + 256 * (bits - 10)) by ring.
    apply push_back_small; [exact Hq | lia | cbn; lia |]. change (2 ^ 11) with 2048. lia. }
  rewrite (to_size_t_small (bits - 17)) by lia.
  rewrite Z.shiftl_mul_pow2 by lia. change (2 ^ 11) with 2048.
  rewrite to_size_t_small by lia.
  replace (2044 + (bits - 17) * 2048) with (2044 + 2048 * (bits - 17)) by ring.
  apply push_back_small; [exact Hq | lia | cbn; lia |]. change (2 ^ 17) with 131072. lia.
Qed.

Section SmallHeaders.

Variable T : int_type.
Hypothesis Hunsigned : tsigned T = false.
Hypothesis Hbits : tbits T = 8 \/ tbits T = 16 \/ tbits T = 32.

Lemma half_max : 127 <= numeric_max T / 2 /\ 2 * (numeric_max T / 2) < numeric_max T
  /\ numeric_max T = 2 ^ tbits T - 1.
Proof.
  unfold numeric_max. rewrite Hunsigned.
  destruct Hbits as [E | [E | E]]; rewrite E; cbn; lia.
Qed.

Lemma cast_small v : 0 <= v <= numeric_max T -> cast T v = v.
Proof.
  intros Hv. apply cast_in_range; [destruct Hbits as [E | [E | E]]; rewrite E; lia|].
  unfold in_range, numeric_min. rewrite Hunsigned. lia.
Qed.

Lemma cast_through_promote x m :
  cast (promote T) x = m -> 0 <= m < 7 -> cast T x = m.
Proof.
  intros Hc Hm.
  assert (HP : 0 < tbits T <= tbits (promote T))
    by (rewrite promote_bits by exact Hbits; destruct Hbits as [E | [E | E]]; rewrite E; lia).
  pose proof (cast_mod (promote T) x (tbits T) HP) as H. rewrite Hc in H.
  unfold cast, wrap_unsigned. rewrite Hunsigned. rewrite <- H.
  apply Z.mod_small. pose proof half_max as (_ & _ & Hn).
  assert (8 <= tbits T) by (destruct Hbits as [E | [E | E]]; rewrite E; lia).
  pose proof (Z.pow_le_mono_r 2 8 (tbits T) ltac:(lia) ltac:(lia)).
  change (2 ^ 8) with 256 in *. lia.
Qed.

Lemma cast_promote_minus_one : 7 <= cast (promote T) (-1) \/ cast (promote T) (-1) < 0.
Proof.
  destruct Hbits as [E | [E | E]]; unfold promote; rewrite E; cbn [Z.ltb Z.compare Pos.compare Pos.compare_cont].
  - right. vm_compute. reflexivity.
  - right. vm_compute. reflexivity.
  - left. unfold cast. rewrite Hunsigned, E. vm_compute. discriminate.
Qed.

Lemma half_max_promote :
  7 <= cast (promote T) (numeric_max T / 2 + 1) /\
  7 <= cast (promote T) (numeric_max T / 2 - 1).
Proof.
  unfold promote, numeric_max. rewrite Hunsigned.
  destruct Hbits as [E | [E | E]]; rewrite E.
  - change (8 <? 32) with true. cbv iota. vm_compute. split; discriminate.
  - change (16 <? 32) with true. cbv iota. vm_compute. split; discriminate.
  - change (32 <? 32) with false. cbv iota. unfold cast. rewrite Hunsigned, E.
    vm_compute. split; discriminate.
Qed.

(** [f_get_max] reads the maximum of a weak block from its header. *)
Lemma get_max_weak ndebug q prevmax maxval dmax dbits rest :
  pop_wf q -> 0 <= maxval < 7 -> 0 <= prevmax <= numeric_max T ->
  dmax = prevmax \/ prevmax = numeric_max T / 2 ->
  weak_header_bits T prevmax maxval <= unread_bits q ->
  unread q = weak_header_value T prevmax maxval
             + 2 ^ weak_header_bits T prevmax maxval * rest ->
  exists q' bits',
    f_get_max ndebug T q dmax dbits = Done (q', maxval, bits') /\
    pop_wf q' /\ unread q' = rest /\
    unread_bits q' = unread_bits q - weak_header_bits T prevmax maxval /\
    pp_mem q' = pp_mem q.
Proof.
  intros Hq Hm Hprev Hsync. pose proof half_max as (Hh & Hh2 & Hn).
  unfold weak_header_bits, weak_header_value, f_get_max.
  destruct ((prevmax =? 0) && (maxval =? 0)) eqn:E00.
  { (* both zero: one bit *)
    apply andb_true_iff in E00. destruct E00 as [E0 M0].
    apply Z.eqb_eq in E0, M0.
    intros Hav HU. change (2 ^ 1) with 2 in HU.
    assert (dmax = 0) by lia. subst dmax.
    pop_step pop_field ndebug 1 q 1 rest Hq HU Hav q1.
    cbn [Z.eqb Pos.eqb andb]. exists q1, dbits. subst maxval.
    split; [reflexivity|]. split; [assumption|]. split; [assumption|].
    split; [lia | assumption]. }
  assert (Hnz : prevmax <> 0 \/ maxval <> 0).
  { apply andb_false_iff in E00. destruct E00 as [E|E]; apply Z.eqb_neq in E; tauto. }
  clear E00.
  destruct (Z.eqb_spec prevmax maxval) as [E1|E1].
  { (* the same maximum: bits 1 and 1 *)
    intros Hav HU. change (2 ^ 2) with 4 in HU.
    assert (dmax = prevmax) by (destruct Hsync as [?|Hs]; [assumption | lia]).
    subst dmax.
    pop_step pop_field ndebug 1 q 1 (1 + 2 ^ 1 * rest) Hq HU Hav q1.
    destruct (Z.eqb_spec prevmax 0); [lia|]. cbn [Z.eqb Pos.eqb andb].
    pop_step pop_field ndebug 1 q1 1 rest Hwf Hun Hav q2.
    change (cast uint8_t (Z.shiftl 1 1 + 1)) with 3. cbn [Z.eqb Pos.eqb].
    exists q2, dbits. subst prevmax.
    split; [reflexivity|]. split; [assumption|]. split; [assumption|].
    split; [lia | congruence]. }
  destruct (Z.eqb_spec (cast (promote T) (prevmax + 1)) maxval) as [E2|E2].
  { (* one more: bits 0 and 1 *)
    intros Hav HU. change (2 ^ 2) with 4 in HU.
    assert (dmax = prevmax).
    { destruct Hsync as [?|Hs]; [assumption|]. exfalso.
      subst prevmax. pose proof half_max_promote as (Ha & _). lia. }
    subst dmax.
    pop_step pop_field ndebug 1 q 0 (1 + 2 ^ 1 * rest) Hq HU Hav q1.
    cbn [Z.eqb andb].
    pop_step pop_field ndebug 1 q1 1 rest Hwf Hun Hav q2.
    change (cast uint8_t (Z.shiftl 0 1 + 1)) with 1. cbn [Z.eqb Pos.eqb].
    exists q2, (cast uint8_t (dbits + 1)).
    split; [|split; [assumption|split; [assumption|split; [lia | congruence]]]].
    destruct (Z.eqb_spec prevmax 6) as [P6|P6].
    - exfalso. subst prevmax. rewrite cast_promote_small in E2 by (try exact Hbits; lia). lia.
    - rewrite (cast_through_promote _ _ E2 Hm). reflexivity. }
  destruct (negb (maxval =? 6) && (cast (promote T) (prevmax - 1) =? maxval)) eqn:E36.
  { (* one less: bits 1 and 0 *)
    apply andb_true_iff in E36. destruct E36 as [E6 E3]. apply Z.eqb_eq in E3.
    intros Hav HU. change (2 ^ 2) with 4 in HU.
    assert (dmax = prevmax).
    { destruct Hsync as [?|Hs]; [assumption|]. exfalso.
      subst prevmax. pose proof half_max_promote as (_ & Ha). lia. }
    subst dmax.
    assert (prevmax <> 0).
    { intros ->. change (0 - 1) with (-1) in E3. destruct cast_promote_minus_one; lia. }
    pop_step pop_field ndebug 1 q 1 (0 + 2 ^ 1 * rest) Hq HU Hav q1.
    destruct (Z.eqb_spec prevmax 0); [lia|]. cbn [Z.eqb Pos.eqb andb].
    pop_step pop_field ndebug 1 q1 0 rest Hwf Hun Hav q2.
    change (cast uint8_t (Z.shiftl 1 1 + 0)) with 2. cbn [Z.eqb Pos.eqb].
    exists q2, (cast uint8_t (dbits - 1)).
    rewrite (cast_through_promote _ _ E3 Hm).
    split; [reflexivity|]. split; [assumption|]. split; [assumption|].
    split; [lia | congruence]. }
  clear E36.
  destruct ((prevmax =? 6) && (maxval =? 4)) eqn:E64.
  { (* from 6 to 4: bits 0 and 1 *)
    apply andb_true_iff in E64. destruct E64 as [P6 M4]. apply Z.eqb_eq in P6, M4.
    intros Hav HU. change (2 ^ 2) with 4 in HU.
    assert (dmax = prevmax) by (destruct Hsync as [?|Hs]; [assumption | lia]).
    subst dmax.
    pop_step pop_field ndebug 1 q 0 (1 + 2 ^ 1 * rest) Hq HU Hav q1.
    cbn [Z.eqb andb].
    pop_step pop_field ndebug 1 q1 1 rest Hwf Hun Hav q2.
    change (cast uint8_t (Z.shiftl 0 1 + 1)) with 1. cbn [Z.eqb Pos.eqb].
    exists q2, (cast uint8_t (dbits + 1)). subst prevmax maxval.
    cbn [Z.eqb Pos.eqb]. rewrite cast_small by lia.
    split; [reflexivity|]. split; [assumption|]. split; [assumption|].
    split; [lia | congruence]. }
  clear E64.
  (* the literal header: two zero bits and the maximum *)
  intros Hav HU. change (2 ^ 5) with 32 in HU.
  pop_step pop_field ndebug 1 q 0 (0 + 2 ^ 1 * (maxval + 2 ^ 3 * rest)) Hq HU Hav q1.
  cbn [Z.eqb andb].
  pop_step pop_field ndebug 1 q1 0 (maxval + 2 ^ 3 * rest) Hwf Hun Hav q2.
  change (cast uint8_t (Z.shiftl 0 1 + 0)) with 0. cbn [Z.eqb].
  pop_step pop_field ndebug 3 q2 maxval rest Hwf0 Hun0 Hav q3.
  destruct (Z.eqb_spec maxval 7); [lia|].
  exists q3, maxval. rewrite cast_small by lia.
  split; [reflexivity|]. split; [assumption|]. split; [assumption|].
  split; [lia | congruence].
Qed.

(** [f_get_max] reads the width of a strong block from its header. *)
Lemma get_max_strong ndebug q prevbits sb dmax dbits rest :
  pop_wf q -> 3 <= sb < tbits T ->
  strong_synced T prevbits dmax dbits \/ prevbits = 0 \/ prevbits = 65 ->
  strong_header_bits prevbits sb <= unread_bits q ->
  unread q = strong_header_value prevbits sb + 2 ^ strong_header_bits prevbits sb * rest ->
  exists q' max',
    f_get_max ndebug T q dmax dbits = Done (q', max', sb) /\
    strong_synced T sb max' sb /\
    pop_wf q' /\ unread q' = rest /\
    unread_bits q' = unread_bits q - strong_header_bits prevbits sb /\
    pp_mem q' = pp_mem q.
Proof.
  intros Hq Hsb Hsync. pose proof half_max as (Hh & Hh2 & Hn).
  assert (HP : 8 <= tbits T <= 32) by (destruct Hbits as [E | [E | E]]; rewrite E; lia).
  assert (Hpow : 256 <= 2 ^ tbits T).
  { pose proof (Z.pow_le_mono_r 2 8 (tbits T) ltac:(lia) ltac:(lia)).
    change (2 ^ 8) with 256 in *. lia. }
  assert (Hrel : strong_header_bits prevbits sb = 2 ->
                 strong_synced T prevbits dmax dbits /\ 0 <= prevbits < 64).
  { unfold strong_header_bits. intros H2.
    destruct Hsync as [Hs | [-> | ->]].
    - split; [exact Hs|]. destruct Hs as (-> & Hd & _). lia.
    - exfalso. revert H2. destruct (Z.eqb_spec 0 sb); [lia|].
      change (to_size_t (0 + 1)) with 1. destruct (Z.eqb_spec 1 sb); [lia|].
      change (to_size_t (0 - 1)) with 18446744073709551615.
      destruct (Z.eqb_spec 18446744073709551615 sb); [lia|].
      destruct (sb <? 10); [lia|]. destruct (sb <? 17); lia.
    - exfalso. revert H2. destruct (Z.eqb_spec 65 sb); [lia|].
      change (to_size_t (65 + 1)) with 66. destruct (Z.eqb_spec 66 sb); [lia|].
      change (to_size_t (65 - 1)) with 64. destruct (Z.eqb_spec 64 sb); [lia|].
      destruct (sb <? 10); [lia|]. destruct (sb <? 17); lia. }
  revert Hrel.
  unfold strong_header_bits, strong_header_value, f_get_max.
  destruct (Z.eqb_spec prevbits sb) as [E1|E1].
  { (* the same width: bits 1 and 1 *)
    intros Hrel Hav HU. change (2 ^ 2) with 4 in HU.
    destruct (Hrel eq_refl) as [(Hd & Hr & Hdiff) Hpb].
    pop_step pop_field ndebug 1 q 1 (1 + 2 ^ 1 * rest) Hq HU Hav q1.
    destruct (Z.eqb_spec dmax 0); [lia|]. cbn [Z.eqb Pos.eqb andb].
    pop_step pop_field ndebug 1 q1 1 rest Hwf Hun Hav q2.
    change (cast uint8_t (Z.shiftl 1 1 + 1)) with 3. cbn [Z.eqb Pos.eqb].
    exists q2, dmax. subst dbits prevbits.
    split; [reflexivity|]. split; [unfold strong_synced; lia|].
    split; [assumption|]. split; [assumption|]. split; [lia | congruence]. }
  destruct (Z.eqb_spec (to_size_t (prevbits + 1)) sb) as [E2|E2].
  { (* one bit more: bits 0 and 1 *)
    intros Hrel Hav HU. change (2 ^ 2) with 4 in HU.
    destruct (Hrel eq_refl) as [(Hd & Hr & Hdiff) Hpb].
    rewrite to_size_t_small in E2 by lia.
    pop_step pop_field ndebug 1 q 0 (1 + 2 ^ 1 * rest) Hq HU Hav q1.
    cbn [Z.eqb andb].
    pop_step pop_field ndebug 1 q1 1 rest Hwf Hun Hav q2.
    change (cast uint8_t (Z.shiftl 0 1 + 1)) with 1. cbn [Z.eqb Pos.eqb].
    exists q2, (dmax + 1).
    destruct (Z.eqb_spec dmax 6); [lia|].
    rewrite cast_small by lia. rewrite cast_uint8_small by lia.
    replace (dbits + 1) with sb by lia.
    split; [reflexivity|]. split; [unfold strong_synced; lia|].
    split; [assumption|]. split; [assumption|]. split; [lia | congruence]. }
  destruct (Z.eqb_spec (to_size_t (prevbits - 1)) sb) as [E3|E3].
  { (* one bit less: bits 1 and 0 *)
    intros Hrel Hav HU. change (2 ^ 2) with 4 in HU.
    destruct (Hrel eq_refl) as [(Hd & Hr & Hdiff) Hpb].
    rewrite to_size_t_small in E3 by lia.
    pop_step pop_field ndebug 1 q 1 (0 + 2 ^ 1 * rest) Hq HU Hav q1.
    destruct (Z.eqb_spec dmax 0); [lia|]. cbn [Z.eqb Pos.eqb andb].
    pop_step pop_field ndebug 1 q1 0 rest Hwf Hun Hav q2.
    change (cast uint8_t (Z.shiftl 1 1 + 0)) with 2. cbn [Z.eqb Pos.eqb].
    exists q2, (dmax - 1).
    rewrite cast_small by lia. rewrite cast_uint8_small by lia.
    replace (dbits - 1) with sb by lia.
    split; [reflexivity|]. split; [unfold strong_synced; lia|].
    split; [assumption|]. split; [assumption|]. split; [lia | congruence]. }
  intros _.
  assert (Hlit : strong_synced T sb (numeric_max T / 2) sb) by (unfold strong_synced; lia).
  destruct (Z.ltb_spec sb 10) as [H10|H10].
  { intros Hav HU. change (2 ^ 8) with 256 in HU.
    pop_step pop_field ndebug 1 q 0 (0 + 2 ^ 1 * (7 + 2 ^ 3 * ((sb - 3) + 2 ^ 3 * rest)))
      Hq HU Hav q1.
    cbn [Z.eqb andb].
    pop_step pop_field ndebug 1 q1 0 (7 + 2 ^ 3 * ((sb - 3) + 2 ^ 3 * rest)) Hwf Hun Hav q2.
    change (cast uint8_t (Z.shiftl 0 1 + 0)) with 0. cbn [Z.eqb].
    pop_step pop_field ndebug 3 q2 7 ((sb - 3) + 2 ^ 3 * rest) Hwf0 Hun0 Hav q3.
    cbn [Z.eqb Pos.eqb].
    pop_step pop_field ndebug 3 q3 (sb - 3) rest Hwf1 Hun1 Hav q4.
    replace (3 + (sb - 3)) with sb by lia. rewrite cast_uint8_small by lia.
    destruct (Z.eqb_spec sb 10); [lia|].
    exists q4, (numeric_max T / 2).
    split; [reflexivity|]. split; [exact Hlit|].
    split; [assumption|]. split; [assumption|]. split; [lia | congruence]. }
  destruct (Z.ltb_spec sb 17) as [H17|H17].
  { intros Hav HU. change (2 ^ 11) with 2048 in HU.
    pop_step pop_field ndebug 1 q 0
      (0 + 2 ^ 1 * (7 + 2 ^ 3 * (7 + 2 ^ 3 * ((sb - 10) + 2 ^ 3 * rest)))) Hq HU Hav q1.
    cbn [Z.eqb andb].
    pop_step pop_field ndebug 1 q1 0 (7 + 2 ^ 3 * (7 + 2 ^ 3 * ((sb - 10) + 2 ^ 3 * rest)))
      Hwf Hun Hav q2.
    change (cast uint8_t (Z.shiftl 0 1 + 0)) with 0. cbn [Z.eqb].
    pop_step pop_field ndebug 3 q2 7 (7 + 2 ^ 3 * ((sb - 10) + 2 ^ 3 * rest)) Hwf0 Hun0 Hav q3.
    cbn [Z.eqb Pos.eqb].
    pop_step pop_field ndebug 3 q3 7 ((sb - 10) + 2 ^ 3 * rest) Hwf1 Hun1 Hav q4.
    change (cast uint8_t (3 + 7)) with 10. cbn [Z.eqb Pos.eqb].
    pop_step pop_field ndebug 3 q4 (sb - 10) rest Hwf2 Hun2 Hav q5.
    replace (10 + (sb - 10)) with sb by lia. rewrite cast_uint8_small by lia.
    destruct (Z.eqb_spec sb 17); [lia|].
    exists q5, (numeric_max T / 2).
    split; [reflexivity|]. split; [exact Hlit|].
    split; [assumption|]. split; [assumption|]. split; [lia | congruence]. }
  intros Hav HU. change (2 ^ 17) with 131072 in HU.
  pop_step pop_field ndebug 1 q 0
    (0 + 2 ^ 1 * (7 + 2 ^ 3 * (7 + 2 ^ 3 * (7 + 2 ^ 3 * ((sb - 17) + 2 ^ 6 * rest)))))
    Hq HU Hav q1.
  cbn [Z.eqb andb].
  pop_step pop_field ndebug 1 q1 0
    (7 + 2 ^ 3 * (7 + 2 ^ 3 * (7 + 2 ^ 3 * ((sb - 17) + 2 ^ 6 * rest)))) Hwf Hun Hav q2.
  change (cast uint8_t (Z.shiftl 0 1 + 0)) with 0. cbn [Z.eqb].
  pop_step pop_field ndebug 3 q2 7 (7 + 2 ^ 3 * (7 + 2 ^ 3 * ((sb - 17) + 2 ^ 6 * rest)))
    Hwf0 Hun0 Hav q3.
  cbn [Z.eqb Pos.eqb].
  pop_step pop_field ndebug 3 q3 7 (7 + 2 ^ 3 * ((sb - 17) + 2 ^ 6 * rest)) Hwf1 Hun1 Hav q4.
  change (cast uint8_t (3 + 7)) with 10. cbn [Z.eqb Pos.eqb].
  pop_step pop_field ndebug 3 q4 7 ((sb - 17) + 2 ^ 6 * rest) Hwf2 Hun2 Hav q5.
  change (cast uint8_t (10 + 7)) with 17. cbn [Z.eqb Pos.eqb].
  pop_step pop_field ndebug 6 q5 (sb - 17) rest Hwf3 Hun3 Hav q6.
  replace (17 + (sb - 17)) with sb by lia. rewrite cast_uint8_small by lia.
  exists q6, (numeric_max T / 2).
  split; [reflexivity|]. split; [exact Hlit|].
  split; [assumption|]. split; [assumption|]. split; [lia | congruence].
Qed.

End SmallHeaders.

Lemma fold_left_max r : forall x,
  0 <= x -> fold_left Z.max r x = Z.max x (list_max r).
Proof.
  induction r as [|y r IH]; intros x Hx; cbn [fold_left list_max fold_right].
  - lia.
  - fold (list_max r). rewrite IH by lia. lia.
Qed.

Lemma ranges_max_list_max l :
  Forall (fun v => 0 <= v) l -> ranges_max l = list_max l.
Proof.
  intros H. destruct H as [|x r Hx Hr]; [reflexivity|].
  cbn [ranges_max list_max fold_right]. fold (list_max r).
  apply fold_left_max. exact Hx.
Qed.

(** The radix case of the decoder on the number the encoder packed. *)
Lemma prolix_radix_reads ndebug T maxval data q rest :
  tsigned T = false -> 0 < tbits T ->
  0 <= maxval -> maxval < 2 ^ tbits T ->
  Forall (fun d => 0 <= d <= maxval) data ->
  (maxval + 1) ^ Z.of_nat (length data) <= 2 ^ 63 ->
  pop_wf q ->
  let W := weak_radix_bits maxval data in
  W <= unread_bits q ->
  unread q = snd (radix_pack maxval data) + 2 ^ W * rest ->
  exists q',
    prolix_radix ndebug T maxval (length data) (length data) q = Done (data, q') /\
    pop_wf q' /\ unread q' = rest /\
    unread_bits q' = unread_bits q - W /\ pp_mem q' = pp_mem q.
Proof.
  intros Hu HT Hm HmT Hall Hpow Hq. cbn zeta.
  assert (Hpow64 : (maxval + 1) ^ Z.of_nat (length data) <= 2 ^ 64) by lia.
  destruct (radix_block_width maxval data Hm Hall Hpow64) as (Hw & Hpw & Hsnd & Hrange).
  cbn zeta in *.
  remember ((maxval + 1) ^ Z.of_nat (length data)) as N eqn:EN.
  assert (Hbl : 0 <= bit_length (N - 1) <= 63).
  { split; [apply bit_length_nonneg|]. apply bit_length_le_width; lia. }
  pose proof (bit_length_bound (N - 1) ltac:(lia)) as Hbb.
  rewrite Hw. intros Hav HU.
  unfold prolix_radix. rewrite Hpw. cbn [obind].
  assert (Hdigits : radix_digits (length data) (maxval + 1) (snd (radix_pack maxval data))
                    = data).
  { rewrite Hsnd. apply radix_digits_packed; [lia|].
    eapply Forall_impl; [|exact Hall]. intros d Hd. cbn beta in *. lia. }
  assert (Hcast : map (cast T) data = data).
  { rewrite <- (map_id data) at 2. apply map_ext_in. intros v Hv.
    rewrite Forall_forall in Hall. specialize (Hall v Hv). cbn beta in Hall.
    unfold cast, wrap_unsigned. rewrite Hu. apply Z.mod_small. lia. }
  destruct (Z.eq_dec (bit_length (N - 1)) 0) as [E0|E0].
  - (* an empty width: the number is 0 *)
    rewrite E0 in *. unfold pop. cbn [Z.eqb obind].
    assert (Hsz : snd (radix_pack maxval data) = 0) by (change (2 ^ 0) with 1 in Hbb; lia).
    rewrite Hsz in Hdigits. rewrite Hdigits, Hcast.
    exists q. split; [reflexivity|]. split; [exact Hq|].
    split; [rewrite HU, Hsz; change (2 ^ 0) with 1; lia|]. split; [lia | reflexivity].
  - destruct (pop_field ndebug size_t (bit_length (N - 1)) q
                (snd (radix_pack maxval data)) rest Hq
                ltac:(cbn [tbits size_t uint64_t]; lia) ltac:(cbn [tbits size_t uint64_t]; lia)
                Hav ltac:(lia) HU) as (q' & Hp & Hwf & Hun & Hb & Hmem).
    rewrite Hp. cbn [obind]. unfold bits_value. cbn [tsigned size_t uint64_t].
    rewrite Hdigits, Hcast.
    exists q'. split; [reflexivity|]. split; [assumption|]. split; [assumption|].
    split; assumption.
Qed.

Lemma unsigned_operands T B bl :
  tsigned T = false -> map (push_operand T B) bl = bl.
Proof.
  intros Hu. rewrite <- (map_id bl) at 2. apply map_ext. intros v.
  unfold push_operand. rewrite Hu. reflexivity.
Qed.

Lemma unsigned_bits_values T B bl :
  tsigned T = false -> map (bits_value T B) bl = bl.
Proof.
  intros Hu. rewrite <- (map_id bl) at 2. apply map_ext. intros v.
  unfold bits_value. rewrite Hu. reflexivity.
Qed.

Lemma unsigned_span_appended T B bl q :
  tsigned T = false -> push_wf q -> 0 <= B < 64 ->
  Forall (fun v => 0 <= v < 2 ^ B) bl ->
  appended q (push_back_span T B bl q) (B * Z.of_nat (length bl)) (packed B bl).
Proof.
  intros Hu Hq HB Hall.
  rewrite <- (unsigned_operands T B bl Hu) at 3.
  apply push_back_span_appended; [exact Hq | exact HB |].
  eapply Forall_impl; [|exact Hall]. intros v Hv. cbn beta in *.
  unfold push_operand. rewrite Hu. exact Hv.
Qed.

Lemma weak_payload_range maxval bl :
  0 <= maxval < 7 -> Forall (fun d => 0 <= d <= maxval) bl ->
  (maxval + 1) ^ Z.of_nat (length bl) <= 2 ^ 63 ->
  0 <= weak_payload_bits maxval bl <= 63 + 2 * Z.of_nat (length bl) /\
  0 <= weak_payload_value maxval bl < 2 ^ weak_payload_bits maxval bl.
Proof.
  intros Hm Hall Hpow. unfold weak_payload_bits, weak_payload_value.
  destruct (Z.eqb_spec maxval 0) as [E0|E0]; [change (2 ^ 0) with 1; lia|].
  destruct (Z.eqb_spec maxval 1) as [E1|E1].
  { split; [lia|]. apply packed_bound; [lia|].
    eapply Forall_impl; [|exact Hall]. intros d Hd. cbn beta in *.
    change (2 ^ 1) with 2. lia. }
  destruct (Z.eqb_spec maxval 3) as [E3|E3].
  { split; [lia|]. apply packed_bound; [lia|].
    eapply Forall_impl; [|exact Hall]. intros d Hd. cbn beta in *.
    change (2 ^ 2) with 4. lia. }
  destruct (radix_block_width maxval bl ltac:(lia) Hall ltac:(lia)) as (Hw & _ & _ & Hr).
  cbn zeta in *. rewrite Hw.
  assert (Hpos : 0 < (maxval + 1) ^ Z.of_nat (length bl)) by (apply Z.pow_pos_nonneg; lia).
  remember ((maxval + 1) ^ Z.of_nat (length bl)) as N eqn:EN.
  pose proof (bit_length_nonneg (N - 1)).
  pose proof (bit_length_le_width (N - 1) 63 ltac:(lia) ltac:(lia)).
  pose proof (bit_length_bound (N - 1) ltac:(lia)).
  lia.
Qed.

Section Small.

Variable T : int_type.
Hypothesis Hunsigned : tsigned T = false.
Hypothesis Hbits : tbits T = 8 \/ tbits T = 16 \/ tbits T = 32.

(** One weak block of the encoder: its header and its values. *)
Lemma weak_block_appended q bl maxval prevmax :
  push_wf q -> 0 <= maxval < 7 -> Forall (fun d => 0 <= d <= maxval) bl ->
  (maxval + 1) ^ Z.of_nat (length bl) <= 2 ^ 63 ->
  snd (f_compress_weak_block T bl q maxval prevmax) = maxval /\
  appended q (fst (f_compress_weak_block T bl q maxval prevmax))
    (weak_header_bits T prevmax maxval + weak_payload_bits maxval bl)
    (weak_header_value T prevmax maxval
     + 2 ^ weak_header_bits T prevmax maxval * weak_payload_value maxval bl).
Proof.
  intros Hq Hm Hall Hpow. unfold f_compress_weak_block. cbn [fst snd].
  split; [reflexivity|].
  pose proof (weak_header_appended T q prevmax maxval Hbits Hq Hm) as Hhead.
  pose proof (weak_header_range T prevmax maxval Hm) as Hhr.
  set (q1 := if (prevmax =? 0) && (maxval =? 0) then push_back int_ 1 1 q
             else if prevmax =? maxval then push_back int_ 2 3 q
             else if cast (promote T) (prevmax + 1) =? maxval then push_back int_ 2 2 q
             else if negb (maxval =? 6) && (cast (promote T) (prevmax - 1) =? maxval)
                  then push_back int_ 2 1 q
             else if (prevmax =? 6) && (maxval =? 4) then push_back int_ 2 2 q
             else push_back (promote T) 5 (cast (promote T) (Z.shiftl maxval 2)) q) in *.
  eapply appended_trans; [exact Hq | lia | exact Hhead |].
  pose proof (proj1 Hhead) as Hq1.
  unfold weak_payload_bits, weak_payload_value.
  destruct (Z.eqb_spec maxval 0) as [E0|E0]; [apply appended_refl, Hq1|].
  destruct (Z.eqb_spec maxval 1) as [E1|E1].
  { apply unsigned_span_appended; [exact Hunsigned | exact Hq1 | lia |].
    eapply Forall_impl; [|exact Hall]. intros d Hd. cbn beta in *.
    change (2 ^ 1) with 2. lia. }
  destruct (Z.eqb_spec maxval 3) as [E3|E3].
  { apply unsigned_span_appended; [exact Hunsigned | exact Hq1 | lia |].
    eapply Forall_impl; [|exact Hall]. intros d Hd. cbn beta in *.
    change (2 ^ 2) with 4. lia. }
  pose proof (weak_payload_range maxval bl Hm Hall Hpow) as Hr.
  unfold weak_payload_bits, weak_payload_value in Hr.
  destruct (Z.eqb_spec maxval 0) as [?|_]; [lia|].
  destruct (Z.eqb_spec maxval 1) as [?|_]; [lia|].
  destruct (Z.eqb_spec maxval 3) as [?|_]; [lia|].
  destruct (radix_block_width maxval bl ltac:(lia) Hall ltac:(lia)) as (Hw & _ & _ & _).
  cbn zeta in Hw.
  assert (Hpos : 0 < (maxval + 1) ^ Z.of_nat (length bl)) by (apply Z.pow_pos_nonneg; lia).
  pose proof (bit_length_le_width ((maxval + 1) ^ Z.of_nat (length bl) - 1) 63
                ltac:(lia) ltac:(lia)) as H63.
  rewrite <- Hw in H63.
  destruct (Z.eq_dec (weak_radix_bits maxval bl) 0) as [W0|W0].
  - rewrite W0 in *. unfold push_back. cbn [Z.eqb].
    replace (snd (radix_pack maxval bl)) with 0 by (change (2 ^ 0) with 1 in Hr; lia).
    apply appended_refl, Hq1.
  - apply push_back_small; [exact Hq1 | lia | cbn [tbits size_t uint64_t]; lia | lia].
Qed.

(** One strong block of the encoder. *)
Lemma strong_block_appended q bl sb prevbits :
  push_wf q -> 3 <= sb < tbits T -> Forall (fun d => 0 <= d < 2 ^ sb) bl ->
  snd (f_compress_strong_block T bl q sb prevbits) = sb /\
  appended q (fst (f_compress_strong_block T bl q sb prevbits))
    (strong_header_bits prevbits sb + sb * Z.of_nat (length bl))
    (strong_header_value prevbits sb + 2 ^ strong_header_bits prevbits sb * packed sb bl).
Proof.
  intros Hq Hsb Hall. unfold f_compress_strong_block. cbn [fst snd].
  split; [reflexivity|].
  assert (HP : tbits T <= 32) by (destruct Hbits as [E | [E | E]]; rewrite E; lia).
  pose proof (strong_header_appended q prevbits sb Hq ltac:(lia)) as Hhead.
  pose proof (strong_header_range prevbits sb ltac:(lia)) as Hhr.
  eapply appended_trans; [exact Hq | lia | exact Hhead |].
  apply unsigned_span_appended; [exact Hunsigned | exact (proj1 Hhead) | lia | exact Hall].
Qed.

End Small.

Lemma fields_bound a m b n :
  0 <= m -> 0 <= n -> 0 <= a < 2 ^ m -> 0 <= b < 2 ^ n ->
  0 <= a + 2 ^ m * b < 2 ^ (m + n).
Proof.
  intros Hm Hn Ha Hb. rewrite Z.pow_add_r by lia.
  pose proof (pow2_pos m Hm). pose proof (pow2_pos n Hn).
  assert (0 <= 2 ^ m * b) by (apply Z.mul_nonneg_nonneg; lia).
  assert (2 ^ m * b <= 2 ^ m * (2 ^ n - 1)) by (apply Z.mul_le_mono_nonneg_l; lia).
  lia.
Qed.

Lemma bit_length_from_7 v : 7 <= v -> 3 <= bit_length v.
Proof.
  intros Hv. unfold bit_length. destruct (Z.eqb_spec v 0); [lia|].
  pose proof (Z.log2_le_mono 7 v ltac:(lia)) as H. change (Z.log2 7) with 2 in H. lia.
Qed.

Lemma weak_power maxval n :
  0 <= maxval < 7 -> (n <= 22)%nat -> (maxval + 1) ^ Z.of_nat n <= 2 ^ 63.
Proof.
  intros Hm Hn.
  apply Z.le_trans with (7 ^ Z.of_nat n); [apply Z.pow_le_mono_l; lia|].
  apply Z.le_trans with (7 ^ 22); [apply Z.pow_le_mono_r; lia|].
  vm_compute. discriminate.
Qed.

Section SmallBlocks.

Variable T : int_type.
Hypothesis Hunsigned : tsigned T = false.
Hypothesis Hbits : tbits T = 8 \/ tbits T = 16 \/ tbits T = 32.

Lemma half_max_above : 119 <= numeric_max T / 2 - tbits T /\ numeric_max T / 2 + tbits T <= numeric_max T.
Proof.
  unfold numeric_max. rewrite Hunsigned.
  destruct Hbits as [E | [E | E]]; rewrite E; vm_compute; split; discriminate.
Qed.

(** The values of a weak block as the decoder takes them. *)
Lemma weak_payload_reads ndebug q bl maxval rest :
  pop_wf q -> 0 <= maxval < 7 -> Forall (fun d => 0 <= d <= maxval) bl ->
  (maxval + 1) ^ Z.of_nat (length bl) <= 2 ^ 63 ->
  weak_payload_bits maxval bl <= unread_bits q ->
  unread q = weak_payload_value maxval bl + 2 ^ weak_payload_bits maxval bl * rest ->
  exists q',
    pop_wf q' /\ unread q' = rest /\
    unread_bits q' = unread_bits q - weak_payload_bits maxval bl /\
    (maxval = 0 -> POP ndebug T 0 (length bl) q = Done (bl, q')) /\
    (maxval = 1 -> POP ndebug T 1 (length bl) q = Done (bl, q')) /\
    (maxval = 3 -> POP ndebug T 2 (length bl) q = Done (bl, q')) /\
    (maxval <> 0 -> maxval <> 1 -> maxval <> 3 ->
     prolix_radix ndebug T maxval (length bl) (length bl) q = Done (bl, q')).
Proof.
  intros Hq Hm Hall Hpow.
  assert (HP : 8 <= tbits T <= 32) by (destruct Hbits as [E | [E | E]]; rewrite E; lia).
  unfold weak_payload_bits, weak_payload_value.
  destruct (Z.eqb_spec maxval 0) as [E0|E0].
  { intros Hav HU. exists q. change (2 ^ 0) with 1 in HU.
    split; [exact Hq|]. split; [lia|]. split; [lia|].
    split; [|split; [lia|split; [lia|lia]]].
    intros _. unfold POP, pop_span. cbn [Z.eqb]. do 2 f_equal.
    subst maxval. clear - Hall. induction Hall as [|d r Hd Hr IH]; [reflexivity|].
    cbn [length repeat]. rewrite IH. f_equal. lia. }
  destruct (Z.eqb_spec maxval 1) as [E1|E1].
  { intros Hav HU.
    destruct (pop_span_packed ndebug T 1 bl q rest Hq ltac:(lia) ltac:(lia) Hav)
      as (q' & HPOP & Hwf & Hun & Hb & _).
    - eapply Forall_impl; [|exact Hall]. intros d Hd. cbn beta in *.
      change (2 ^ 1) with 2. lia.
    - exact HU.
    - rewrite unsigned_bits_values in HPOP by exact Hunsigned.
      exists q'. split; [exact Hwf|]. split; [exact Hun|]. split; [exact Hb|].
      split; [lia|]. split; [intros _; exact HPOP|]. split; lia. }
  destruct (Z.eqb_spec maxval 3) as [E3|E3].
  { intros Hav HU.
    destruct (pop_span_packed ndebug T 2 bl q rest Hq ltac:(lia) ltac:(lia) Hav)
      as (q' & HPOP & Hwf & Hun & Hb & _).
    - eapply Forall_impl; [|exact Hall]. intros d Hd. cbn beta in *.
      change (2 ^ 2) with 4. lia.
    - exact HU.
    - rewrite unsigned_bits_values in HPOP by exact Hunsigned.
      exists q'. split; [exact Hwf|]. split; [exact Hun|]. split; [exact Hb|].
      split; [lia|]. split; [lia|]. split; [intros _; exact HPOP | lia]. }
  intros Hav HU.
  assert (HmT : maxval < 2 ^ tbits T).
  { pose proof (Z.pow_le_mono_r 2 8 (tbits T) ltac:(lia) ltac:(lia)).
    change (2 ^ 8) with 256 in *. lia. }
  destruct (prolix_radix_reads ndebug T maxval bl q rest Hunsigned ltac:(lia) ltac:(lia)
              HmT Hall Hpow Hq Hav HU) as (q' & HR & Hwf & Hun & Hb & _).
  exists q'. split; [exact Hwf|]. split; [exact Hun|]. split; [exact Hb|].
  split; [lia|]. split; [lia|]. split; [lia|]. intros _ _ _. exact HR.
Qed.

Variables (t : Terse) (data : list Z).
Hypothesis Hdata : Forall (fun v => 0 <= v < 2 ^ (tbits T - 1)) data.
Hypothesis Hsize : d_size t = length data.
Hypothesis Hblock : (0 < d_block t <= 22)%nat.

(** The blocks of a frame that is a whole number of blocks long. *)
Lemma whole_block from :
  (from < d_size t)%nat -> Nat.divide (d_block t) (d_size t - from) ->
  let bl := span_of data from (from + d_block t) in
  small_block t = d_block t /\
  Nat.min (d_size t) (from + d_block t) = (from + d_block t)%nat /\
  length bl = d_block t /\
  bl ++ skipn (from + d_block t) data = skipn from data /\
  Nat.divide (d_block t) (d_size t - (from + d_block t)) /\
  ranges_max bl = list_max bl /\
  Forall (fun v => 0 <= v <= list_max bl) bl /\
  0 <= list_max bl < 2 ^ (tbits T - 1).
Proof.
  intros Hlt [n Hn]. cbn zeta.
  assert (Hn1 : (1 <= n)%nat) by (destruct n; [lia | lia]).
  assert (Hle : (from + d_block t <= d_size t)%nat) by nia.
  set (bl := span_of data from (from + d_block t)).
  assert (Hbl : Forall (fun v => 0 <= v < 2 ^ (tbits T - 1)) bl)
    by (unfold bl, span_of; apply Forall_firstn, Forall_skipn, Hdata).
  assert (Hlen : length bl = d_block t).
  { unfold bl, span_of. rewrite length_firstn, length_skipn. lia. }
  split; [unfold small_block; lia|]. split; [lia|]. split; [exact Hlen|].
  split; [|split; [|split; [|split]]].
  - unfold bl, span_of. replace (from + d_block t - from)%nat with (d_block t) by lia.
    rewrite <- (firstn_skipn (d_block t) (skipn from data)) at 2.
    rewrite skipn_skipn. rewrite (Nat.add_comm (d_block t)). reflexivity.
  - exists (n - 1)%nat. nia.
  - apply ranges_max_list_max. eapply Forall_impl; [|exact Hbl]. intros v Hv.
    cbn beta in *. lia.
  - apply Forall_forall. intros v Hv. split.
    + rewrite Forall_forall in Hbl. specialize (Hbl v Hv). cbn beta in Hbl. lia.
    + apply list_max_ge, Hv.
  - split; [apply list_max_nonneg|].
    destruct (Z.eq_dec (list_max bl) 0) as [E|E].
    + rewrite E. apply pow2_pos. destruct Hbits as [E' | [E' | E']]; rewrite E'; lia.
    + pose proof (list_max_nonneg bl).
      pose proof (list_max_in bl ltac:(lia)) as Hin.
      rewrite Forall_forall in Hbl. specialize (Hbl _ Hin). cbn beta in Hbl. lia.
Qed.

End SmallBlocks.

Section SmallLoop.

Variable T : int_type.
Hypothesis Hunsigned : tsigned T = false.
Hypothesis Hbits : tbits T = 8 \/ tbits T = 16 \/ tbits T = 32.
Variables (t : Terse) (data : list Z).
Hypothesis Hdata : Forall (fun v => 0 <= v < 2 ^ (tbits T - 1)) data.
Hypothesis Hsize : d_size t = length data.
Hypothesis Hblock : (0 < d_block t <= 22)%nat.
(** One block: the encoder writes it, and the decoder, placed where the
    encoder stood and holding what the encoder remembers, reads it back and
    is left where the encoder is. *)
Lemma small_step from s :
  (from < d_size t)%nat -> Nat.divide (d_block t) (d_size t - from) ->
  push_wf (ss_queue s) ->
  exists s1,
    (forall k, small_loop (S k) T t data from s
               = small_loop k T t data (from + d_block t) s1) /\
    extends (ss_queue s) (ss_queue s1) /\
    forall ndebug t' dmax dbits qF q out k,
      d_size t' = d_size t -> d_block t' = d_block t -> d_prolix_bits t' = tbits T ->
      small_synced T s dmax dbits ->
      extends (ss_queue s1) qF -> pop_wf q ->
      unread q = pushed_value qF / 2 ^ pushed_bits (ss_queue s) ->
      pushed_bits qF - pushed_bits (ss_queue s) <= unread_bits q ->
      exists q1 dmax1 dbits1,
        small_synced T s1 dmax1 dbits1 /\ pop_wf q1 /\
        unread q1 = pushed_value qF / 2 ^ pushed_bits (ss_queue s1) /\
        pushed_bits qF - pushed_bits (ss_queue s1) <= unread_bits q1 /\
        prolix_small_loop (S k) ndebug T t' from
          {| ps_queue := q; ps_max := dmax; ps_bits := dbits; ps_out := out |}
        = prolix_small_loop k ndebug T t' (from + d_block t)
            {| ps_queue := q1; ps_max := dmax1; ps_bits := dbits1;
               ps_out := out ++ span_of data from (from + d_block t) |}.
Proof.
  intros Hlt Hdiv Hq.
  destruct (whole_block T Hbits t data Hdata Hsize Hblock from Hlt Hdiv)
    as (Hsb & Hmin & Hlen & _ & _ & Hrm & Hall & Hmax).
  assert (HP : 8 <= tbits T <= 32) by (destruct Hbits as [E | [E | E]]; rewrite E; lia).
  pose proof (half_max T Hunsigned Hbits) as (Hh & Hh2 & Hn).
  pose proof (half_max_above T Hunsigned Hbits) as (Hha & Hhb).
  set (bl := span_of data from (from + d_block t)) in *.
  set (max := list_max bl) in *.
  assert (Hltb : (from <? d_size t)%nat = true) by (apply Nat.ltb_lt; exact Hlt).
  assert (Hlenz : Z.of_nat (length bl) = Z.of_nat (d_block t)) by lia.
  destruct (Z.ltb_spec max 7) as [Hweak|Hstrong].
  - (* a weak block *)
    assert (Hm : 0 <= max < 7) by lia.
    assert (Hpow : (max + 1) ^ Z.of_nat (length bl) <= 2 ^ 63)
      by (apply weak_power; [exact Hm | lia]).
    destruct (weak_block_appended T Hunsigned Hbits (ss_queue s) bl max (ss_prevmax s)
                Hq Hm Hall Hpow) as (Hsnd & Happ).
    pose proof (weak_header_range T (ss_prevmax s) max Hm) as (Hhr & Hhv).
    pose proof (weak_payload_range max bl Hm Hall Hpow) as (Hpr & Hpv).
    set (hb := weak_header_bits T (ss_prevmax s) max) in *.
    set (hv := weak_header_value T (ss_prevmax s) max) in *.
    set (pb := weak_payload_bits max bl) in *.
    set (pv := weak_payload_value max bl) in *.
    exists {| ss_vector := make_room T t (d_block t) from (ss_queue s) (ss_vector s);
              ss_queue := fst (f_compress_weak_block T bl (ss_queue s) max (ss_prevmax s));
              ss_prevmax := max; ss_prevbits := 65 |}.
    cbn [ss_queue ss_prevmax ss_prevbits].
    split; [|split].
    + intros k. cbn [small_loop]. rewrite Hltb, Hsb, Hmin. fold bl. rewrite Hrm. fold max.
      replace (max <? 7) with true by (symmetry; apply Z.ltb_lt; exact Hweak).
      destruct (f_compress_weak_block T bl (ss_queue s) max (ss_prevmax s)) as [q1 pm].
      cbn [fst snd] in *. subst pm. reflexivity.
    + eapply appended_extends; [exact Hq | | exact Happ]. lia.
    + intros ndebug t' dmax dbits qF q out k Hsize' Hblock' Hprolix Hsync Hext Hpq HU Hav.
      assert (Hsb' : small_block t' = d_block t) by (unfold small_block; lia).
      assert (Hltb' : (from <? d_size t')%nat = true) by (apply Nat.ltb_lt; lia).
      pose proof (fields_bound hv hb pv pb ltac:(lia) ltac:(lia) Hhv Hpv) as Hx.
      pose proof (extends_view (ss_queue s) _ qF (hb + pb) (hv + 2 ^ hb * pv)
                    Hq ltac:(lia) Hx Happ Hext) as Hview.
      rewrite Hview in HU. rewrite Z.pow_add_r in HU by lia.
      remember (pushed_value qF
                / 2 ^ pushed_bits (fst (f_compress_weak_block T bl (ss_queue s) max
                                          (ss_prevmax s)))) as G eqn:EG.
      assert (HU1 : unread q = hv + 2 ^ hb * (pv + 2 ^ pb * G)) by (rewrite HU; ring).
      destruct Happ as (Hwf1 & Hb1 & _). destruct Hext as (_ & HbF & _).
      assert (Hprev : 0 <= ss_prevmax s <= numeric_max T
                      /\ (dmax = ss_prevmax s \/ ss_prevmax s = numeric_max T / 2)).
      { destruct Hsync as [(_ & Hd & Hr) | (_ & Hpm)]; lia. }
      destruct (get_max_weak T Hunsigned Hbits ndebug q (ss_prevmax s) max dmax dbits
                  (pv + 2 ^ pb * G) Hpq Hm (proj1 Hprev) (proj2 Hprev)
                  ltac:(fold hb; lia) HU1)
        as (q1 & bits' & HG & Hp1 & Hun1 & Hub1 & _).
      fold hb in Hub1.
      destruct (weak_payload_reads T Hunsigned Hbits ndebug q1 bl max G Hp1 Hm Hall Hpow
                  ltac:(fold pb; lia) Hun1)
        as (q2 & Hp2 & Hun2 & Hub2 & H0 & H1 & H3 & HR).
      fold pb in Hub2.
      exists q2, max, bits'.
      split; [left; cbn [ss_prevmax ss_prevbits]; lia|].
      split; [exact Hp2|]. split; [exact Hun2|]. split; [lia|].
      cbn [prolix_small_loop]. rewrite Hltb', Hsize', Hsb', Hmin.
      cbn [ps_queue ps_max ps_bits ps_out]. rewrite HG. cbn [obind].
      replace (from + d_block t - from)%nat with (d_block t) by lia.
      rewrite Hlen in H0, H1, H3, HR.
      destruct (Z.eqb_spec max 0) as [E0|E0]; [rewrite (H0 E0); reflexivity|].
      destruct (Z.eqb_spec max 1) as [E1|E1]; [rewrite (H1 E1); reflexivity|].
      destruct (Z.eqb_spec max 2) as [E2|E2].
      { rewrite (HR E0 E1 ltac:(lia)). reflexivity. }
      destruct (Z.eqb_spec max 3) as [E3|E3]; [rewrite (H3 E3); reflexivity|].
      destruct (Z.eqb_spec max 7) as [E7|E7]; [lia|].
      replace (max <? 7) with true by (symmetry; apply Z.ltb_lt; exact Hweak).
      rewrite (HR E0 E1 E3). reflexivity.
  - (* a strong block *)
    assert (Hmsb : f_most_significant_bit1 T max = bit_length max).
    { apply msb1_bit_length; [lia|]. split; [lia|].
      apply Z.lt_trans with (2 ^ (tbits T - 1)); [lia|]. apply Z.pow_lt_mono_r; lia. }
    pose proof (bit_length_from_7 max Hstrong) as Hsb3.
    pose proof (bit_length_le_width max (tbits T - 1) ltac:(lia) Hmax) as HsbP.
    pose proof (bit_length_bound max ltac:(lia)) as Hbb.
    set (sb := bit_length max) in *.
    assert (Hfit : Forall (fun d => 0 <= d < 2 ^ sb) bl).
    { eapply Forall_impl; [|exact Hall]. intros d Hd. cbn beta in *. lia. }
    destruct (strong_block_appended T Hunsigned Hbits (ss_queue s) bl sb (ss_prevbits s)
                Hq ltac:(lia) Hfit) as (Hsnd & Happ).
    pose proof (strong_header_range (ss_prevbits s) sb ltac:(lia)) as (Hhr & Hhv).
    pose proof (packed_bound sb bl ltac:(lia) Hfit) as Hpv.
    set (hb := strong_header_bits (ss_prevbits s) sb) in *.
    set (hv := strong_header_value (ss_prevbits s) sb) in *.
    assert (Hpb : 0 <= sb * Z.of_nat (length bl)) by (apply Z.mul_nonneg_nonneg; lia).
    exists {| ss_vector := make_room T t (d_block t) from (ss_queue s) (ss_vector s);
              ss_queue := fst (f_compress_strong_block T bl (ss_queue s) sb (ss_prevbits s));
              ss_prevmax := numeric_max T / 2; ss_prevbits := sb |}.
    cbn [ss_queue ss_prevmax ss_prevbits].
    split; [|split].
    + intros k. cbn [small_loop]. rewrite Hltb, Hsb, Hmin. fold bl. rewrite Hrm. fold max.
      replace (max <? 7) with false by (symmetry; apply Z.ltb_ge; exact Hstrong).
      rewrite Hmsb. fold sb.
      replace (sb =? tbits T) with false by (symmetry; apply Z.eqb_neq; lia).
      destruct (f_compress_strong_block T bl (ss_queue s) sb (ss_prevbits s)) as [q1 pb].
      cbn [fst snd] in *. subst pb. reflexivity.
    + eapply appended_extends; [exact Hq | | exact Happ]. lia.
    + intros ndebug t' dmax dbits qF q out k Hsize' Hblock' Hprolix Hsync Hext Hpq HU Hav.
      assert (Hsb' : small_block t' = d_block t) by (unfold small_block; lia).
      assert (Hltb' : (from <? d_size t')%nat = true) by (apply Nat.ltb_lt; lia).
      pose proof (fields_bound hv hb (packed sb bl) (sb * Z.of_nat (length bl))
                    ltac:(lia) Hpb Hhv Hpv) as Hx.
      pose proof (extends_view (ss_queue s) _ qF (hb + sb * Z.of_nat (length bl))
                    (hv + 2 ^ hb * packed sb bl) Hq ltac:(lia) Hx Happ Hext) as Hview.
      rewrite Hview in HU. rewrite Z.pow_add_r in HU by lia.
      remember (pushed_value qF
                / 2 ^ pushed_bits (fst (f_compress_strong_block T bl (ss_queue s) sb
                                          (ss_prevbits s)))) as G eqn:EG.
      assert (HU1 : unread q
                    = hv + 2 ^ hb * (packed sb bl + 2 ^ (sb * Z.of_nat (length bl)) * G))
        by (rewrite HU; ring).
      destruct Happ as (Hwf1 & Hb1 & _). destruct Hext as (_ & HbF & _).
      assert (Hs : strong_synced T (ss_prevbits s) dmax dbits
                   \/ ss_prevbits s = 0 \/ ss_prevbits s = 65).
      { destruct Hsync as [(Hpb' & _) | (Hss & _)]; [right; exact Hpb' | left; exact Hss]. }
      destruct (get_max_strong T Hunsigned Hbits ndebug q (ss_prevbits s) sb dmax dbits
                  (packed sb bl + 2 ^ (sb * Z.of_nat (length bl)) * G)
                  Hpq ltac:(lia) Hs ltac:(fold hb; lia) HU1)
        as (q1 & max' & HG & Hss & Hp1 & Hun1 & Hub1 & _).
      fold hb in Hub1.
      destruct (pop_span_packed ndebug T sb bl q1 G Hp1 ltac:(lia) ltac:(lia)
                  ltac:(lia) Hfit Hun1) as (q2 & HPOP & Hp2 & Hun2 & Hub2 & _).
      rewrite unsigned_bits_values in HPOP by exact Hunsigned.
      exists q2, max', sb.
      split; [right; cbn [ss_prevmax ss_prevbits]; split; [exact Hss | reflexivity]|].
      split; [exact Hp2|]. split; [exact Hun2|]. split; [lia|].
      cbn [prolix_small_loop]. rewrite Hltb', Hsize', Hsb', Hmin.
      cbn [ps_queue ps_max ps_bits ps_out]. rewrite HG. cbn [obind].
      replace (from + d_block t - from)%nat with (d_block t) by lia.
      rewrite Hlen in HPOP. unfold POP.
      destruct Hss as (_ & _ & Hdiff).
      destruct (Z.eqb_spec max' 0) as [E0|E0]; [lia|].
      destruct (Z.eqb_spec max' 1) as [E1|E1]; [lia|].
      destruct (Z.eqb_spec max' 2) as [E2|E2]; [lia|].
      destruct (Z.eqb_spec max' 3) as [E3|E3]; [lia|].
      destruct (Z.eqb_spec max' 7) as [E7|E7]; [lia|].
      destruct (Z.ltb_spec max' 7) as [L7|L7]; [lia|].
      rewrite Hprolix.
      destruct (Z.eqb_spec sb (tbits T)) as [EP|EP]; [lia|].
      rewrite HPOP. reflexivity.
Qed.

Lemma small_loop_extends fuel : forall from s,
  Nat.divide (d_block t) (d_size t - from) -> push_wf (ss_queue s) ->
  extends (ss_queue s) (ss_queue (small_loop fuel T t data from s)).
Proof.
  induction fuel as [|k IH]; intros from s Hdiv Hq.
  - cbn [small_loop]. destruct (from <? d_size t)%nat; apply extends_refl, Hq.
  - destruct (Nat.ltb_spec from (d_size t)) as [Hlt|Hge].
    + destruct (small_step from s Hlt Hdiv Hq) as (s1 & Hstep & Hext & _).
      rewrite Hstep.
      destruct (whole_block T Hbits t data Hdata Hsize Hblock from Hlt Hdiv)
        as (_ & _ & _ & _ & Hdiv1 & _).
      eapply extends_trans; [exact Hq | exact Hext |].
      apply IH; [exact Hdiv1 | exact (proj1 Hext)].
    + cbn [small_loop].
      replace (from <? d_size t)%nat with false by (symmetry; apply Nat.ltb_ge; exact Hge).
      apply extends_refl, Hq.
Qed.

Variables (ndebug : bool) (t' : Terse).
Hypothesis Hsize' : d_size t' = d_size t.
Hypothesis Hblock' : d_block t' = d_block t.
Hypothesis Hprolix : d_prolix_bits t' = tbits T.

(** The decoder, placed where the encoder stood, reads back what the
    encoder went on to write. *)
Lemma prolix_small_loop_reads fuel : forall from s q dmax dbits out,
  Nat.divide (d_block t) (d_size t - from) ->
  push_wf (ss_queue s) -> small_synced T s dmax dbits -> pop_wf q ->
  let qF := ss_queue (small_loop fuel T t data from s) in
  unread q = pushed_value qF / 2 ^ pushed_bits (ss_queue s) ->
  pushed_bits qF - pushed_bits (ss_queue s) <= unread_bits q ->
  (d_size t <= from + fuel * d_block t)%nat ->
  prolix_small_loop fuel ndebug T t' from
    {| ps_queue := q; ps_max := dmax; ps_bits := dbits; ps_out := out |}
  = Done (out ++ skipn from data).
Proof.
  induction fuel as [|k IH]; intros from s q dmax dbits out Hdiv Hq Hsync Hpq;
    cbn zeta; intros HU Hav Hfuel.
  - cbn [prolix_small_loop ps_out]. rewrite skipn_all2 by lia.
    rewrite app_nil_r. reflexivity.
  - destruct (Nat.ltb_spec from (d_size t)) as [Hlt|Hge].
    + destruct (small_step from s Hlt Hdiv Hq) as (s1 & Hstep & Hext & Hdec).
      rewrite Hstep in HU, Hav.
      destruct (whole_block T Hbits t data Hdata Hsize Hblock from Hlt Hdiv)
        as (_ & _ & _ & Hcat & Hdiv1 & _).
      pose proof (small_loop_extends k (from + d_block t) s1 Hdiv1 (proj1 Hext)) as HextF.
      destruct (Hdec ndebug t' dmax dbits _ q out k Hsize' Hblock' Hprolix Hsync HextF Hpq HU Hav)
        as (q1 & dmax1 & dbits1 & Hsync1 & Hpq1 & HU1 & Hav1 & Heq).
      rewrite Heq.
      rewrite (IH (from + d_block t)%nat s1 q1 dmax1 dbits1 _ Hdiv1 (proj1 Hext)
                 Hsync1 Hpq1 HU1 Hav1 ltac:(lia)).
      rewrite <- app_assoc, Hcat. reflexivity.
    + cbn [prolix_small_loop].
      replace (from <? d_size t')%nat with false by (symmetry; apply Nat.ltb_ge; lia).
      cbn [ps_out]. rewrite skipn_all2 by lia. rewrite app_nil_r. reflexivity.
Qed.

End SmallLoop.

(** X18 (round trip, mode [Small_unsigned]). With assertions compiled in,
    for the unsigned types of 8, 16 and 32 bits and a block size from 1 to
    22: a frame that is a whole number of blocks long and whose values all
    lie below [2^(P-1)], so that no block is masked, is returned by [prolix]
    exactly as it was compressed, when the encoder returns a frame, which
    it does when its bit stream stays inside the output vector, and the
    compressed frame is a whole number of 8-byte words long. *)
Theorem small_round_trip T block data frame :
  tsigned T = false -> tbits T = 8 \/ tbits T = 16 \/ tbits T = 32 ->
  (0 < block <= 22)%nat -> (length data mod block = 0)%nat ->
  Forall (fun v => 0 <= v < 2 ^ (tbits T - 1)) data ->
  compressed false T block Small_unsigned data = Done [frame] ->
  (length frame mod 8 = 0)%nat ->
  roundtrip false T block Small_unsigned data = Done data.
Proof.
  intros Hs Hb Hblock Hwhole Hdata Hc Hmod.
  unfold compressed, roundtrip, block_size, push_back_frame, insert,
    f_validate_insert in *.
  cbn [obind Terse_empty number_of_frames d_terse_frames length Nat.eqb Nat.leb
       d_signed d_small d_block d_size d_prolix_bits d_dim d_metadata] in *.
  rewrite Hs in *. cbn [implb] in *.
  change ((0 <=? 0)%nat) with true in *. rewrite !assert_true in *.
  cbn [obind d_signed implb] in *.
  set (t1 := {| d_terse_frames := []; d_signed := false; d_small := false;
                d_block := block; d_size := length data;
                d_prolix_bits := Z.max 0 (8 * Z.of_nat (sizeof T));
                d_dim := []; d_metadata := [] |}) in *.
  assert (Hsmall : f_compress false Small_unsigned T t1 data = f_compress_small false T t1 data).
  { unfold f_compress. rewrite Hs. reflexivity. }
  rewrite Hsmall in *. clear Hsmall.
  apply obind_done in Hc. destruct Hc as (tc & Hcomp & Hc).
  apply obind_done in Hcomp. destruct Hcomp as (fr & Hcomp & Htc).
  assert (Hfr : fr = frame).
  { inversion Htc; subst tc. cbn in Hc. inversion Hc. reflexivity. }
  subst fr. clear Hc Htc tc.
  rewrite Hcomp. cbn [obind].
  unfold f_compress_small in Hcomp. cbn zeta in Hcomp.
  apply obind_done in Hcomp. destruct Hcomp as (q0 & Hctor & Hcomp).
  assert (q0 = push_init).
  { unfold push_ctor in Hctor. apply obind_done in Hctor.
    destruct Hctor as (_ & _ & Hctor). inversion Hctor. reflexivity. }
  subst q0.
  set (q0 := push_back int_ 18 262140 push_init) in *.
  set (s0 := {| ss_vector := {| tf_size := initial_size T (d_size t1) (small_block t1);
                               tf_defined := true |};
                ss_queue := q0; ss_prevmax := 0; ss_prevbits := 0 |}) in *.
  set (sF := small_loop (d_size t1) T t1 data 0 s0) in *.
  set (t2 := set_frames t1 (vector_insert 0 frame (d_terse_frames t1))
               (vector_insert 0 (Chars EmptyString) (d_metadata t1))).
  destruct (prefix_appended 262140 ltac:(lia)) as (Hwf0 & Hbits0 & Hval0).
  fold q0 in Hwf0, Hbits0, Hval0.
  change (pushed_bits push_init) with 0 in *. change (pushed_value push_init) with 0 in *.
  change (2 ^ 0) with 1 in Hval0. rewrite Z.add_0_l, Z.mul_1_r in Hval0.
  rewrite Z.add_0_l in Hbits0.
  assert (Hdiv : Nat.divide (d_block t1) (d_size t1 - 0)).
  { exists (length data / block)%nat. cbn [d_block d_size t1].
    apply Nat.Div0.div_exact in Hwhole. lia. }
  assert (Hext : extends q0 (ss_queue sF)).
  { apply (small_loop_extends T Hs Hb t1 data Hdata eq_refl Hblock (d_size t1) 0%nat s0
             Hdiv Hwf0). }
  destruct Hext as (HwfF & HbF & HvF). rewrite Hbits0 in HbF, HvF. rewrite Hval0 in HvF.
  destruct (frame_bytes_spec (ss_queue sF) HwfF) as (Hval & Hbytes & Hlen).
  assert (Hframe : frame_bytes (ss_queue sF) = frame) by (apply (finish_done _ _ _ Hcomp)).
  rewrite Hframe in Hval, Hbytes, Hlen.
  assert (H8 : (8 <= length frame)%nat).
  { apply Nat.Div0.div_exact in Hmod. lia. }
  destruct (pop_ctor_spec false frame Hbytes Hmod H8) as (p & Hp & Hpw & Hun & Hub & Hpm).
  unfold prolix, f_prolix.
  change (nth 0 (d_terse_frames t2) []) with frame.
  change ((0 <? number_of_frames t2)%nat) with true.
  rewrite assert_true. cbn [obind]. rewrite Hp. cbn [obind].
  destruct (pop_value_spec false size_t 18 p Hpw) as (p1 & Hpop & Hpw1 & Hun1 & Hub1 & _).
  { cbn [tbits size_t uint64_t]. lia. }
  { cbn [tbits size_t uint64_t]. lia. }
  { lia. }
  unfold pop. change (18 =? 0) with false. rewrite Hpop. cbn [obind].
  unfold bits_value. cbn [tsigned size_t uint64_t]. rewrite Hun, Hval, HvF.
  change (262140 =? 262140) with true.
  cbn iota. unfold f_prolix_small_unsigned.
  change (nth 0 (d_terse_frames t2) []) with frame.
  change (d_signed t2) with false. cbn [implb].
  rewrite !assert_true. cbn [obind]. rewrite Hp. cbn [obind].
  unfold assert_prefix, pop. change (18 =? 0) with false. rewrite Hpop. cbn [obind].
  unfold bits_value. cbn [tsigned size_t uint64_t]. rewrite Hun, Hval, HvF.
  change (262140 =? 262140) with true. cbn [assert_ obind].
  change (d_size t2) with (d_size t1).
  assert (Hprolix : d_prolix_bits t2 = tbits T).
  { change (d_prolix_bits t2) with (Z.max 0 (8 * Z.of_nat (sizeof T))).
    unfold sizeof. destruct Hb as [-> | [-> | ->]]; reflexivity. }
  apply (prolix_small_loop_reads T Hs Hb t1 data Hdata eq_refl Hblock false t2
           eq_refl eq_refl Hprolix (d_size t1) 0%nat s0 p1 0 0 [] Hdiv Hwf0).
  - left. cbn [ss_prevbits ss_prevmax s0]. lia.
  - exact Hpw1.
  - fold sF. change (pushed_bits (ss_queue s0)) with (pushed_bits q0). rewrite Hbits0.
    rewrite Hun1, Hun, Hval. reflexivity.
  - fold sF. change (pushed_bits (ss_queue s0)) with (pushed_bits q0). rewrite Hbits0. lia.
  - change (d_block t1) with block. change (d_size t1) with (length data). nia.
Qed.

Lemma small_round_trip_witness :
  roundtrip false uint16_t 11 Small_unsigned small_frame = Done small_frame.
Proof.
  apply (small_round_trip uint16_t 11 small_frame
           [252; 255; 155; 81; 94; 100; 128; 8; 0; 128; 1; 0; 0; 64; 0; 0]).
  - reflexivity.
  - right. left. reflexivity.
  - lia.
  - reflexivity.
  - repeat constructor; vm_compute; intuition discriminate.
  - vm_compute. reflexivity.
  - reflexivity.
Defined.

(** * A frame among the others of a container *)


Lemma vector_erase_nth {A} pos (l : list A) i d :
  (pos < length l)%nat -> nth i (vector_erase pos l) d = nth (shifted pos i) l d.
Proof.
  intros Hp. unfold shifted, vector_erase.
  destruct (Nat.ltb_spec i pos) as [Hlt|Hge].
  - rewrite app_nth1 by (rewrite length_firstn; lia).
    rewrite nth_firstn. replace (i <? pos)%nat with true by (symmetry; apply Nat.ltb_lt; lia).
    reflexivity.
  - rewrite app_nth2 by (rewrite length_firstn; lia).
    rewrite length_firstn, Nat.min_l by lia.
    rewrite nth_skipn. f_equal. lia.
Qed.





(** X20 (erasure and the other frames). After [erase(pos)] every frame
    that is left decompresses as it did from the place it had before. *)
Theorem erase_keeps_the_other_frames ndebug T t pos t' i :
  erase t pos = Done t' -> (S i < number_of_frames t)%nat ->
  prolix ndebug T t' i = prolix ndebug T t (if (i <? pos)%nat then i else S i).
Proof.
  unfold erase. intros H Hi. fold (shifted pos i).
  destruct ((pos <? length (d_metadata t))%nat && (pos <? number_of_frames t)%nat) eqn:E;
    [|discriminate H].
  apply andb_true_iff in E. destruct E as [_ Hp]. apply Nat.ltb_lt in Hp.
  inversion H; subst t'; clear H.
  unfold prolix, number_of_frames in *. cbn [set_frames d_terse_frames].
  rewrite vector_erase_length by exact Hp.
  replace (i <? pred (length (d_terse_frames t)))%nat with true
    by (symmetry; apply Nat.ltb_lt; lia).
  replace (shifted pos i <? length (d_terse_frames t))%nat with true
    by (symmetry; apply Nat.ltb_lt; unfold shifted; destruct (i <? pos)%nat; lia).
  apply obind_ext. intros _. apply f_prolix_ext.
  - unfold same_settings. cbn [set_frames d_size d_block d_prolix_bits d_signed]. auto.
  - cbn [set_frames d_terse_frames]. apply vector_erase_nth. exact Hp.
  - unfold number_of_frames. cbn [set_frames d_terse_frames].
    rewrite vector_erase_length by exact Hp.
    replace (i <? pred (length (d_terse_frames t)))%nat with true
      by (symmetry; apply Nat.ltb_lt; lia).
    symmetry. apply Nat.ltb_lt. unfold shifted. destruct (i <? pos)%nat; lia.
Qed.

Lemma erase_keeps_the_other_frames_witness :
  prolix false int16_t walk_terse 0 = prolix false int16_t walk_twice 0.
Proof.
  apply (erase_keeps_the_other_frames false int16_t walk_twice 1 walk_terse 0).
  - vm_compute. reflexivity.
  - cbn. lia.
Defined.







